(** * ARM ELF plugin loader: relocation engine

    A shallow embedding of [ARMDLObject::relocate] and
    [ARMDLObject::relocateRels] from backends/plugins/elf/arm-loader.cpp,
    with the properties of the relocation engine proved about it.

    Conventions of the embedding:
    - C integers are [Z]; a conversion to [uint32] or [int32] is written
      where the C code converts (implicitly or by a cast).
    - Pointers are 32 bits wide, as on the ARM targets of the loader, and
      pointer arithmetic wraps like [uint32].
    - The loaded segment is the block of bytes [_segment] points to; a
      32-bit word is read and written little-endian at any byte address
      (alignment is not modelled).  An access that leaves the block is
      undefined behaviour in C and ends the model's run in [Undefined].
    - [malloc]/[free], the object file stream and [warning] are effects on
      an explicit state, threaded by a small state-and-fault monad. *)

From Stdlib Require Import ZArith List Bool Lia.
From Stdlib Require String.
From coqutil Require Import Byte Word.LittleEndianList.
Import ListNotations.
Import String.StringSyntax.
Delimit Scope string_scope with string.
Local Open Scope Z_scope.

(** ** Integer conversions *)

Definition uint32 (z : Z) : Z := z mod 2 ^ 32.

Definition int32 (z : Z) : Z :=
  let u := uint32 z in if u <? 2 ^ 31 then u else u - 2 ^ 32.

(** ** ELF declarations (elf32.h) *)

(** Modelled from the spec: the header elf32.h, which declares the ELF
    structures, the section and relocation constants and the two access
    macros for the packed info field, is not among the sources.  The spec
    names them (simple and addend-carrying encodings, runtime-resident
    flag, reserved external-symbol threshold, packed symbol-index/type
    field); the values are those of the ELF and ARM ELF ABIs. *)
Definition SHT_RELA : Z := 4.
Definition SHT_REL : Z := 9.
Definition SHF_ALLOC : Z := 2.
Definition SHN_LOPROC : Z := 65280.

Definition R_ARM_PC24 : Z := 1.
Definition R_ARM_ABS32 : Z := 2.
Definition R_ARM_THM_CALL : Z := 10.
Definition R_ARM_CALL : Z := 28.
Definition R_ARM_JUMP24 : Z := 29.
Definition R_ARM_TARGET1 : Z := 38.
Definition R_ARM_V4BX : Z := 40.

(** [#define REL_TYPE(x) ((byte)(x))] and [#define REL_INDEX(x) ((x)>>8)]. *)
Definition REL_TYPE (x : Z) : Z := Z.land x 255.
Definition REL_INDEX (x : Z) : Z := Z.shiftr x 8.

Record Elf32_Rel := mkRel {
  r_offset : Z;   (* Elf32_Addr: link-time address of the word to patch *)
  r_info   : Z    (* Elf32_Word: symbol index << 8 | relocation type *)
}.

(** [sizeof(Elf32_Rel)]: two 32-bit fields. *)
Definition sizeof_Elf32_Rel : Z := 8.

Record Elf32_Sym := mkSym {
  st_name  : Z;
  st_value : Z;
  st_size  : Z;
  st_info  : Z;
  st_other : Z;
  st_shndx : Z    (* Elf32_Half: index of the defining section *)
}.

Record Elf32_Shdr := mkShdr {
  sh_name      : Z;
  sh_type      : Z;
  sh_flags     : Z;
  sh_addr      : Z;
  sh_offset    : Z;
  sh_size      : Z;
  sh_link      : Z;
  sh_info      : Z;
  sh_addralign : Z;
  sh_entsize   : Z
}.

Record Elf32_Ehdr := mkEhdr {
  e_machine : Z;
  e_shoff   : Z;
  e_shnum   : Z   (* Elf32_Half: number of section headers *)
}.

(** ** The object file stream *)

(** Modelled from the spec: the stream class behind [_file]
    (Common::SeekableReadStream) is not among the sources; the spec asks
    for a byte-addressable read/seek stream.  [seek off s] is
    [seek(off, SEEK_SET)] and tells whether it succeeded; [read n s] is
    [read(buf, n)] and gives the bytes that reached the buffer, whose
    number is the count the C++ call returns. *)
Class SeekableReadStream (S : Type) := {
  seek : Z -> S -> bool * S;
  read : Z -> S -> list byte * S
}.

(** A stream over a byte array held in memory: seeking past the end
    fails, reading stops at the end. *)
Record MemoryStream := mkMemoryStream {
  ms_data : list byte;
  ms_pos  : Z
}.

Definition ms_seek (off : Z) (s : MemoryStream) : bool * MemoryStream :=
  if (0 <=? off) && (off <=? Z.of_nat (length (ms_data s)))
  then (true, mkMemoryStream (ms_data s) off)
  else (false, s).

Definition ms_read (n : Z) (s : MemoryStream) : list byte * MemoryStream :=
  let got := firstn (Z.to_nat n) (skipn (Z.to_nat (ms_pos s)) (ms_data s)) in
  (got, mkMemoryStream (ms_data s) (ms_pos s + Z.of_nat (length got))).

#[export] Instance MemoryStream_stream : SeekableReadStream MemoryStream :=
  {| seek := ms_seek; read := ms_read |}.

(** ** The allocator *)

(** [malloc] may refuse any request (for a size of zero the C standard
    lets it return a null pointer even when memory is left), so whether
    the [n]-th call, asking for [size] bytes, succeeds is a policy the
    loader does not control.  The heap counts the calls, keeps the blocks
    that are live and remembers the largest number of blocks that were
    live together. *)
Record Heap := mkHeap {
  h_policy : nat -> Z -> bool;
  h_calls  : nat;
  h_live   : list nat;
  h_peak   : nat
}.

Definition heap_malloc (size : Z) (h : Heap) : option nat * Heap :=
  if h_policy h (h_calls h) size
  then (Some (h_calls h),
        mkHeap (h_policy h) (S (h_calls h)) (h_calls h :: h_live h)
               (Nat.max (h_peak h) (S (length (h_live h)))))
  else (None, mkHeap (h_policy h) (S (h_calls h)) (h_live h) (h_peak h)).

Definition heap_free (p : nat) (h : Heap) : Heap :=
  mkHeap (h_policy h) (h_calls h) (remove Nat.eq_dec p (h_live h)) (h_peak h).

(** ** Diagnostics *)

(** The four [warning] calls of the two functions. *)
Inductive Warning :=
| CouldNotAllocate (size : Z)        (* "Could not allocate %d bytes for the relocation table" *)
| RelocationTableLoadFailed          (* "Relocation table load failed." *)
| UnknownRelocationType (type : Z)   (* "Unknown relocation type %d." *)
| RelaNotSupported.                  (* "RELA entries not supported yet!" *)

(** ** The loader's state *)

Record State (F : Type) := mkState {
  _file         : F;                (* the object file *)
  _symtab       : list Elf32_Sym;   (* the symbol table, [_symbol_cnt] entries *)
  _symtab_sect  : Z;                (* index of the symbol-table section, or -1 *)
  _segment      : Z;                (* runtime address of the loaded segment *)
  _segmentVMA   : Z;                (* link-time address of the segment *)
  segment_bytes : list byte;        (* the bytes at [_segment] *)
  heap          : Heap;
  warnings      : list Warning      (* oldest first *)
}.

Arguments mkState {F}.
Arguments _file {F}.
Arguments _symtab {F}.
Arguments _symtab_sect {F}.
Arguments _segment {F}.
Arguments _segmentVMA {F}.
Arguments segment_bytes {F}.
Arguments heap {F}.
Arguments warnings {F}.

(** Undefined behaviour the two functions can run into. *)
Inductive Fault :=
| OutOfSegment (addr : Z)     (* [*target] outside the segment's block *)
| NoSuchSymbol (index : Z)    (* [sym->st_shndx] past the symbol table *)
| NoSuchSection (index : Z).  (* [shdr[i]] past the section headers *)

Inductive Outcome (St A : Type) :=
| Returned (a : A) (st : St)
| Undefined (f : Fault).

Arguments Returned {St A}.
Arguments Undefined {St A}.

Definition M (F A : Type) : Type := State F -> Outcome (State F) A.

Definition ret {F A} (a : A) : M F A := fun st => Returned a st.

Definition bind {F A B} (m : M F A) (k : A -> M F B) : M F B :=
  fun st => match m st with
            | Returned a st' => k a st'
            | Undefined f => Undefined f
            end.

Notation "x <- m ;; k" := (bind m (fun x => k))
  (at level 61, m at next level, right associativity).
Notation "m ;;; k" := (bind m (fun _ => k))
  (at level 61, right associativity).

Section Loader.
Context {F : Type} `{SeekableReadStream F}.

Definition get : M F (State F) := fun st => Returned st st.

Definition set_file (f : F) (st : State F) : State F :=
  mkState f (_symtab st) (_symtab_sect st) (_segment st) (_segmentVMA st)
          (segment_bytes st) (heap st) (warnings st).

Definition set_segment_bytes (bs : list byte) (st : State F) : State F :=
  mkState (_file st) (_symtab st) (_symtab_sect st) (_segment st)
          (_segmentVMA st) bs (heap st) (warnings st).

Definition set_heap (h : Heap) (st : State F) : State F :=
  mkState (_file st) (_symtab st) (_symtab_sect st) (_segment st)
          (_segmentVMA st) (segment_bytes st) h (warnings st).

Definition add_warning (w : Warning) (st : State F) : State F :=
  mkState (_file st) (_symtab st) (_symtab_sect st) (_segment st)
          (_segmentVMA st) (segment_bytes st) (heap st) (warnings st ++ [w]).

(** *** Effects *)

Definition warning (w : Warning) : M F unit :=
  fun st => Returned tt (add_warning w st).

Definition malloc (size : Z) : M F (option nat) :=
  fun st => let (p, h) := heap_malloc size (heap st) in
            Returned p (set_heap h st).

Definition free (p : nat) : M F unit :=
  fun st => Returned tt (set_heap (heap_free p (heap st)) st).

Definition file_seek (offset : Z) : M F bool :=
  fun st => let (ok, f) := seek offset (_file st) in
            Returned ok (set_file f st).

Definition file_read (size : Z) : M F (list byte) :=
  fun st => let (buf, f) := read size (_file st) in
            Returned buf (set_file f st).

(** The word [*target]: inside the block when all four bytes are. *)
Definition in_segment (st : State F) (addr : Z) : bool :=
  (_segment st <=? addr) &&
  (addr + 4 <=? _segment st + Z.of_nat (length (segment_bytes st))).

Definition word_at (bs : list byte) (off : nat) : Z :=
  le_combine (firstn 4 (skipn off bs)).

Definition put_word (bs : list byte) (off : nat) (v : Z) : list byte :=
  firstn off bs ++ le_split 4 v ++ skipn (off + 4) bs.

Definition load32 (addr : Z) : M F Z :=
  fun st => if in_segment st addr
            then Returned (word_at (segment_bytes st)
                                   (Z.to_nat (addr - _segment st))) st
            else Undefined (OutOfSegment addr).

Definition store32 (addr v : Z) : M F unit :=
  fun st => if in_segment st addr
            then Returned tt
                   (set_segment_bytes
                      (put_word (segment_bytes st)
                                (Z.to_nat (addr - _segment st)) v) st)
            else Undefined (OutOfSegment addr).

(** [sym->st_shndx] for [sym = _symtab + index]. *)
Definition sym_shndx (index : Z) : M F Z :=
  fun st => match nth_error (_symtab st) (Z.to_nat index) with
            | Some sym => Returned (st_shndx sym) st
            | None => Undefined (NoSuchSymbol index)
            end.

(** [rel[i]]: the i-th entry of the table read into the scratch buffer. *)
Definition rel_at (buf : list byte) (i : Z) : Elf32_Rel :=
  let off := Z.to_nat (sizeof_Elf32_Rel * i) in
  mkRel (word_at buf off) (word_at buf (off + 4)).

(** *** ARMDLObject::relocate *)

(** The body of the loop for one entry.  The result tells whether the
    loop goes on: [false] is the [default:] branch, which warns, frees
    the table and makes [relocate] return [false]. *)
Definition relocate_entry (rel : nat) (e : Elf32_Rel) (relSegment : Z)
  : M F bool :=
  st <- get ;;
  let index := REL_INDEX (r_info e) in
  let target := uint32 (relSegment + r_offset e - _segmentVMA st) in
  let type := REL_TYPE (r_info e) in
  if (type =? R_ARM_ABS32) || (type =? R_ARM_TARGET1) then
    shndx <- sym_shndx index ;;
    if shndx <? SHN_LOPROC then
      w <- load32 target ;;
      let a := int32 w in
      let relocation := uint32 (a - _segmentVMA st + uint32 (_segment st)) in
      store32 target relocation ;;;
      ret true
    else ret true
  else if type =? R_ARM_PC24 then ret true
  else if type =? R_ARM_THM_CALL then ret true
  else if (type =? R_ARM_CALL) || (type =? R_ARM_JUMP24) then ret true
  else if type =? R_ARM_V4BX then ret true
  else
    warning (UnknownRelocationType type) ;;;
    free rel ;;;
    ret false.

(** [for (uint32 i = ...; i < cnt; i++)] with [n] iterations left. *)
Fixpoint relocate_loop (n : nat) (i : Z) (rel : nat) (buf : list byte)
         (relSegment : Z) : M F bool :=
  match n with
  | O => ret true
  | S n' =>
      go <- relocate_entry rel (rel_at buf i) relSegment ;;
      if go then relocate_loop n' (i + 1) rel buf relSegment
      else ret false
  end.

Definition relocate (offset size : Z) (relSegment : Z) : M F bool :=
  p <- malloc size ;;
  match p with
  | None =>
      warning (CouldNotAllocate size) ;;;
      ret false
  | Some rel =>
      sought <- file_seek offset ;;
      if negb sought then
        warning RelocationTableLoadFailed ;;; free rel ;;; ret false
      else
        buf <- file_read size ;;
        if negb (Z.of_nat (length buf) =? size) then
          warning RelocationTableLoadFailed ;;; free rel ;;; ret false
        else
          let cnt := size / sizeof_Elf32_Rel in
          done <- relocate_loop (Z.to_nat cnt) 0 rel buf relSegment ;;
          if done then free rel ;;; ret true
          else ret false
  end.

(** *** ARMDLObject::relocateRels *)

(** [shdr[i]]. *)
Definition section_at (shdr : list Elf32_Shdr) (i : Z) : M F Elf32_Shdr :=
  fun st => match nth_error shdr (Z.to_nat i) with
            | Some s => Returned s st
            | None => Undefined (NoSuchSection i)
            end.

(** The condition of the [if], evaluated left to right; the header of
    the relocated section is read only when the four checks before it
    passed. *)
Definition relocates_loaded_section (ehdr : Elf32_Ehdr)
           (shdr : list Elf32_Shdr) (curShdr : Elf32_Shdr) : M F bool :=
  st <- get ;;
  if ((sh_type curShdr =? SHT_REL) || (sh_type curShdr =? SHT_RELA)) &&
     (sh_entsize curShdr =? sizeof_Elf32_Rel) &&
     (int32 (sh_link curShdr) =? _symtab_sect st) &&
     (sh_info curShdr <? e_shnum ehdr)
  then
    relocated <- section_at shdr (sh_info curShdr) ;;
    ret (negb (Z.land (sh_flags relocated) SHF_ALLOC =? 0))
  else ret false.

Fixpoint relocateRels_loop (n : nat) (i : Z) (ehdr : Elf32_Ehdr)
         (shdr : list Elf32_Shdr) : M F bool :=
  match n with
  | O => ret true
  | S n' =>
      curShdr <- section_at shdr i ;;
      found <- relocates_loaded_section ehdr shdr curShdr ;;
      if found then
        if sh_type curShdr =? SHT_RELA then
          warning RelaNotSupported ;;;
          ret false
        else
          st <- get ;;
          ok <- relocate (sh_offset curShdr) (sh_size curShdr) (_segment st) ;;
          if negb ok then ret false
          else relocateRels_loop n' (i + 1) ehdr shdr
      else relocateRels_loop n' (i + 1) ehdr shdr
  end.

Definition relocateRels (ehdr : Elf32_Ehdr) (shdr : list Elf32_Shdr)
  : M F bool :=
  relocateRels_loop (Z.to_nat (e_shnum ehdr)) 0 ehdr shdr.

(** *** The same loops, over lists

    [relocate] walks the scratch buffer by index and [relocateRels] the
    section headers by index.  The definitions below say what the spec
    says of them, over a list of entries and a list of sections; the
    theorems relate the two. *)

(** Each entry in turn, until one stops the run. *)
Fixpoint relocate_entries (rel : nat) (es : list Elf32_Rel)
         (relSegment : Z) : M F bool :=
  match es with
  | [] => ret true
  | e :: es' =>
      go <- relocate_entry rel e relSegment ;;
      if go then relocate_entries rel es' relSegment else ret false
  end.

(** What is done with a section that qualifies: the addend-carrying
    encoding is refused, the simple one is relocated. *)
Fixpoint process_sections (todo : list Elf32_Shdr) : M F bool :=
  match todo with
  | [] => ret true
  | s :: rest =>
      if sh_type s =? SHT_RELA then
        warning RelaNotSupported ;;; ret false
      else
        st <- get ;;
        ok <- relocate (sh_offset s) (sh_size s) (_segment st) ;;
        if ok then process_sections rest else ret false
  end.

End Loader.

(** The whole entries of a table: eight bytes each, two little-endian
    words; what is left after the last whole entry is dropped. *)
Fixpoint parse_entries (buf : list byte) : list Elf32_Rel :=
  match buf with
  | b0 :: b1 :: b2 :: b3 :: b4 :: b5 :: b6 :: b7 :: rest =>
      mkRel (le_combine [b0; b1; b2; b3]) (le_combine [b4; b5; b6; b7])
        :: parse_entries rest
  | _ => []
  end.

Definition encode_rel (e : Elf32_Rel) : list byte :=
  le_split 4 (r_offset e) ++ le_split 4 (r_info e).

Definition encode_table (es : list Elf32_Rel) : list byte :=
  flat_map encode_rel es.

(** The relocation types [relocate] has a [case] for. *)
Definition absolute_fixup (type : Z) : bool :=
  (type =? R_ARM_ABS32) || (type =? R_ARM_TARGET1).

Definition self_relative_or_marker (type : Z) : bool :=
  (type =? R_ARM_PC24) || (type =? R_ARM_THM_CALL) || (type =? R_ARM_CALL) ||
  (type =? R_ARM_JUMP24) || (type =? R_ARM_V4BX).

Definition enumerated_type (type : Z) : bool :=
  absolute_fixup type || self_relative_or_marker type.

(** An entry that asks for no patch: self-relative, a marker, or an
    absolute fixup against a symbol at or above the reserved threshold. *)
Definition no_patch (symtab : list Elf32_Sym) (e : Elf32_Rel) : bool :=
  let type := REL_TYPE (r_info e) in
  self_relative_or_marker type ||
  (absolute_fixup type &&
   match nth_error symtab (Z.to_nat (REL_INDEX (r_info e))) with
   | Some sym => SHN_LOPROC <=? st_shndx sym
   | None => false
   end).

(** What one entry does, in closed form.  [patch_word] is the state after
    the word at [target] is shifted, [reject] the state after the
    [default:] branch, and [entry_outcome] picks between them. *)
Definition target_of {F} (relSegment : Z) (e : Elf32_Rel) (st : State F) : Z :=
  uint32 (relSegment + r_offset e - _segmentVMA st).

Definition patch_word {F} (target : Z) (st : State F) : State F :=
  let off := Z.to_nat (target - _segment st) in
  let old := word_at (segment_bytes st) off in
  set_segment_bytes
    (put_word (segment_bytes st) off
              (uint32 (old - _segmentVMA st + _segment st))) st.

Definition reject {F} (rel : nat) (w : Warning) (st : State F) : State F :=
  set_heap (heap_free rel (heap st)) (add_warning w st).

Definition entry_outcome {F} (rel : nat) (e : Elf32_Rel) (relSegment : Z)
           (st : State F) : Outcome (State F) bool :=
  let type := REL_TYPE (r_info e) in
  let index := REL_INDEX (r_info e) in
  let target := target_of relSegment e st in
  if absolute_fixup type then
    match nth_error (_symtab st) (Z.to_nat index) with
    | None => Undefined (NoSuchSymbol index)
    | Some sym =>
        if st_shndx sym <? SHN_LOPROC then
          if in_segment st target then Returned true (patch_word target st)
          else Undefined (OutOfSegment target)
        else Returned true st
    end
  else if self_relative_or_marker type then Returned true st
  else Returned false (reject rel (UnknownRelocationType type) st).

(** The section is runtime-resident: bit 1, [SHF_ALLOC], of its flags. *)
Definition runtime_resident (s : Elf32_Shdr) : bool :=
  Z.testbit (sh_flags s) 1.

(** The spec's qualifying relocation section, for the chosen symbol-table
    section [symtab_sect]: a relocation type, entries of the simple
    encoding's width, linked to the symbol table, and relocating an
    existing section that is runtime-resident. *)
Definition qualifies (symtab_sect : Z) (ehdr : Elf32_Ehdr)
           (shdr : list Elf32_Shdr) (s : Elf32_Shdr) : bool :=
  ((sh_type s =? SHT_REL) || (sh_type s =? SHT_RELA)) &&
  (sh_entsize s =? sizeof_Elf32_Rel) &&
  (int32 (sh_link s) =? symtab_sect) &&
  (sh_info s <? e_shnum ehdr) &&
  match nth_error shdr (Z.to_nat (sh_info s)) with
  | Some relocated => runtime_resident relocated
  | None => false
  end.

(** The heap's invariant: a block that is live was handed out by an
    earlier call. *)
Definition heap_ok (h : Heap) : Prop :=
  Forall (fun p => (p < h_calls h)%nat) (h_live h).

(** What an entry leaves alone: the object's fields, the file and the
    size of the segment; the heap changes only when the table is freed,
    and only then is there a warning. *)
Record entry_frame {F} (rel : nat) (b : bool) (st st' : State F) : Prop := {
  frame_file     : _file st' = _file st;
  frame_symtab   : _symtab st' = _symtab st;
  frame_sect     : _symtab_sect st' = _symtab_sect st;
  frame_segment  : _segment st' = _segment st;
  frame_vma      : _segmentVMA st' = _segmentVMA st;
  frame_length   : length (segment_bytes st') = length (segment_bytes st);
  frame_heap     : heap st' = if b then heap st else heap_free rel (heap st);
  frame_warnings : if b then warnings st' = warnings st
                   else exists t, warnings st' =
                                  warnings st ++ [UnknownRelocationType t]
}.

(** What a call of [relocate] that returns leaves alone, and what it does
    to the heap: one more call of [malloc], the same live blocks, and at
    most one block more than were live at its start. *)
Record relocate_frame {F} (st st' : State F) : Prop := {
  rf_symtab  : _symtab st' = _symtab st;
  rf_sect    : _symtab_sect st' = _symtab_sect st;
  rf_segment : _segment st' = _segment st;
  rf_vma     : _segmentVMA st' = _segmentVMA st;
  rf_length  : length (segment_bytes st') = length (segment_bytes st);
  rf_live    : h_live (heap st') = h_live (heap st);
  rf_calls   : h_calls (heap st') = S (h_calls (heap st));
  rf_policy  : h_policy (heap st') = h_policy (heap st);
  rf_peak    : (h_peak (heap st') <=
                Nat.max (h_peak (heap st)) (S (length (h_live (heap st)))))%nat;
  rf_ok      : heap_ok (heap st')
}.

(** The scratch allocations of a run balance: the blocks that are live
    at its end are those that were live at its start, and never was more
    than one block live beside them. *)
Definition heap_balanced (h h' : Heap) : Prop :=
  h_live h' = h_live h /\
  (h_peak h' <= Nat.max (h_peak h) (S (length (h_live h))))%nat /\
  heap_ok h'.

(** The table of a section was read whole: [malloc] gave the block
    [rel], the seek succeeded and the read filled the buffer with [buf];
    [st1] is the state at the start of the loop. *)
Definition table_loaded {F} `{SeekableReadStream F} (offset size : Z)
           (st : State F) (rel : nat) (buf : list byte) (st1 : State F)
  : Prop :=
  exists h1 f1 f2,
    heap_malloc size (heap st) = (Some rel, h1) /\
    seek offset (_file st) = (true, f1) /\
    read size f1 = (buf, f2) /\
    Z.of_nat (length buf) = size /\
    st1 = set_file f2 (set_heap h1 st).

(** The table cannot be read whole: the seek fails, or the read gives
    fewer bytes than the section declares. *)
Definition table_truncated {F} `{SeekableReadStream F} (offset size : Z)
           (st : State F) : Prop :=
  fst (seek offset (_file st)) = false \/
  Z.of_nat (length (fst (read size (snd (seek offset (_file st)))))) <> size.

(** ** A sample object

    One loaded segment of 32 bytes, linked at 0x8000 and loaded at
    0x30000, whose word at offset 0x10 holds the link-time address 0x8000;
    a symbol table with one symbol of the loaded section (index 1) and
    one absolute symbol (index 2). *)

Definition always : nat -> Z -> bool := fun _ _ => true.

Definition sample_symtab : list Elf32_Sym :=
  [ mkSym 0 0 0 0 0 0;
    mkSym 1 32768 4 0 0 1;
    mkSym 9 4096 0 0 0 65521 ].

Definition sample_segment : list byte :=
  repeat Byte.x00 16 ++ le_split 4 32768 ++ repeat Byte.xff 12.

Definition sample_state (table : list byte) : State MemoryStream :=
  mkState (mkMemoryStream table 0) sample_symtab 2 196608 32768
          sample_segment (mkHeap always 0 [] 0) [].

Definition rel_entry (offset index type : Z) : Elf32_Rel :=
  mkRel offset (Z.lor (Z.shiftl index 8) type).

(** The state at the start of the loop when the table is read whole, and
    the buffer the loop then walks. *)
Definition after_load {F} `{SeekableReadStream F} (offset size : Z)
           (st : State F) : State F :=
  set_file (snd (read size (snd (seek offset (_file st)))))
           (set_heap (snd (heap_malloc size (heap st))) st).

Definition table_bytes {F} `{SeekableReadStream F} (offset size : Z)
           (st : State F) : list byte :=
  fst (read size (snd (seek offset (_file st)))).

(** Section headers of the sample object: the null section, the loaded
    code, the symbol table, debugging data that is not loaded, and one
    relocation section. *)
Definition sample_ehdr : Elf32_Ehdr := mkEhdr 40 0 5.

Definition sample_sections (reloc : Elf32_Shdr) : list Elf32_Shdr :=
  [ mkShdr 0 0 0 0 0 0 0 0 0 0;
    mkShdr 1 1 6 32768 52 32 0 0 4 0;
    mkShdr 7 2 0 0 84 48 0 3 4 16;
    mkShdr 15 1 0 0 132 64 0 0 1 0;
    reloc ].

(** A table of [size] bytes at the start of the file, in the simple
    encoding, for the loaded code. *)
Definition rel_text (size : Z) : Elf32_Shdr :=
  mkShdr 27 SHT_REL 0 0 0 size 2 1 4 8.

(** Sections of the addend-carrying type, both linked to the symbol
    table and both declaring the entry size [relocateRels] asks for: one
    for the debugging data, which is not loaded, and one for the loaded
    code. *)
Definition rela_debug : Elf32_Shdr := mkShdr 27 SHT_RELA 0 0 0 24 2 3 4 8.
Definition rela_text : Elf32_Shdr := mkShdr 27 SHT_RELA 0 0 0 24 2 1 4 8.

(** A section of the addend-carrying type as a linker writes it, for the
    loaded code: three entries of twelve bytes (offset, info, addend),
    linked to the symbol table; and its table. *)
Definition rela_text_addends : Elf32_Shdr :=
  mkShdr 27 SHT_RELA 0 0 0 36 2 1 4 12.

Definition table_rela : list byte :=
  flat_map (fun e : Z * Z * Z =>
              let '(offset, info, addend) := e in
              le_split 4 offset ++ le_split 4 info ++ le_split 4 addend)
           [ (32784, Z.lor (Z.shiftl 1 8) R_ARM_ABS32, 0);
             (32772, Z.lor (Z.shiftl 1 8) R_ARM_PC24, -8);
             (32776, Z.lor (Z.shiftl 1 8) R_ARM_CALL, -8) ].

(** Relocation tables for the sample object.  Entry offsets are
    link-time addresses; 0x8010 is the word at offset 0x10 of the segment,
    0x9000 lies 0x1000 past the start of a segment of 32 bytes. *)
Definition table_scenario : list byte :=
  encode_table [ rel_entry 32784 1 R_ARM_ABS32;
                 rel_entry 32772 1 R_ARM_PC24;
                 rel_entry 32776 1 R_ARM_CALL ].

Definition table_fixup_between : list byte :=
  encode_table [ rel_entry 32772 1 R_ARM_PC24;
                 rel_entry 32784 1 R_ARM_ABS32;
                 rel_entry 32776 1 R_ARM_CALL ].

Definition table_unknown : list byte :=
  encode_table [ rel_entry 32784 1 R_ARM_ABS32; rel_entry 32772 1 77 ].

Definition table_no_patch : list byte :=
  encode_table [ rel_entry 32772 1 R_ARM_PC24;
                 rel_entry 32776 0 R_ARM_V4BX;
                 rel_entry 32784 2 R_ARM_ABS32 ].

Definition table_outside_branch : list byte :=
  encode_table [ rel_entry 36864 1 R_ARM_PC24 ].

Definition table_outside_fixup : list byte :=
  encode_table [ rel_entry 36864 1 R_ARM_ABS32 ].

(** The same state with another symbol table, and a result carried over
    to it. *)
Definition set_symtab {F} (symtab : list Elf32_Sym) (st : State F) : State F :=
  mkState (_file st) symtab (_symtab_sect st) (_segment st) (_segmentVMA st)
          (segment_bytes st) (heap st) (warnings st).

Definition outcome_map {St A} (f : St -> St) (o : Outcome St A) : Outcome St A :=
  match o with
  | Returned a st => Returned a (f st)
  | Undefined u => Undefined u
  end.

(** Whether relocation shifts a word for the symbol: it is defined in a
    section below the reserved indices. *)
Definition shifted_symbol (sym : Elf32_Sym) : bool :=
  st_shndx sym <? SHN_LOPROC.

(** Two fixups at the words at offsets 4 and 0x10 of the sample segment. *)
Definition fixup_at_4 : Elf32_Rel := rel_entry 32772 1 R_ARM_ABS32.
Definition fixup_at_16 : Elf32_Rel := rel_entry 32784 1 R_ARM_TARGET1.

(** A table for the loaded code that is linked to another section than
    the symbol table, and the sample symbols with other names, values and
    sizes. *)
Definition rel_text_unlinked : Elf32_Shdr := mkShdr 27 SHT_REL 0 0 0 24 7 1 4 8.

Definition sample_symtab_moved : list Elf32_Sym :=
  [ mkSym 0 0 0 0 0 0;
    mkSym 5 32800 16 2 0 1;
    mkSym 3 0 0 1 0 65521 ].

(** The sample object loaded at its link-time address. *)
Definition sample_state_in_place (table : list byte) : State MemoryStream :=
  mkState (mkMemoryStream table 0) sample_symtab 2 32768 32768
          sample_segment (mkHeap always 0 [] 0) [].

(** ** After the relocation *)

Record Plugin := mkPlugin {
  plugin_base    : Z;
  plugin_segment : list byte;
  plugin_symbols : list Elf32_Sym
}.

(** Modelled from the spec: the caller of [relocateRels], the load
    sequence of the object, is not among the sources.  The spec says that
    a Plugin is created only after every relocation in the object
    succeeds and that any earlier failure yields no Plugin at all. *)
Definition plugin_after_relocation {F} `{SeekableReadStream F}
           (ehdr : Elf32_Ehdr) (shdr : list Elf32_Shdr)
  : M F (option Plugin) :=
  ok <- relocateRels ehdr shdr ;;
  st <- get ;;
  ret (if ok
       then Some (mkPlugin (_segment st) (segment_bytes st) (_symtab st))
       else None).

(** * Dreamcast save files: the streams

    A shallow embedding of the stream classes of
    backends/platform/dc/vmsave.cpp.  [InVMSave] is a stream of the kind
    [relocate] reads its tables from ([Common::InSaveFile] is a seekable
    read stream); [OutVMSave] is the write stream beside it.

    [int] is 32 bits wide.  A conversion of an unsigned or a wider number
    to [int] wraps ([int32]); an [int] sum or difference that leaves the
    range of [int], and a [memcpy] that leaves its buffers or is given a
    negative count, is undefined behaviour, for which the functions give
    [None]. *)

Definition fits_int (z : Z) : bool := (- 2 ^ 31 <=? z) && (z <? 2 ^ 31).

Definition fits_int64 (z : Z) : bool := (- 2 ^ 63 <=? z) && (z <? 2 ^ 63).

(** The [whence] of a seek, as <stdio.h> numbers them. *)
Definition SEEK_SET : Z := 0.
Definition SEEK_CUR : Z := 1.
Definition SEEK_END : Z := 2.

Module InVMSave.

Record t := mk {
  buffer : list byte;   (* char *buffer: the bytes of the save, or none *)
  _pos   : Z;           (* int *)
  _size  : Z;           (* int *)
  _eos   : bool
}.

(** [uint32 read(void *buf, uint32 cnt)]: the bytes copied to [buf], the
    count returned and the stream after the call. *)
Definition read (cnt : Z) (s : t) : option (list byte * Z * t) :=
  let nbyt := int32 cnt in
  if negb (fits_int (_pos s + nbyt)) then None
  else
    let short := _size s <? _pos s + nbyt in
    if short && negb (fits_int (_size s - _pos s)) then None
    else
      let cnt' := if short then uint32 (_size s - _pos s) else cnt in
      let eos' := if short then true else _eos s in
      let nbyt' := if short then int32 cnt' else nbyt in
      if nbyt' =? 0 then
        Some ([], cnt', mk (buffer s) (_pos s) (_size s) eos')
      else if (0 <=? nbyt') && (0 <=? _pos s) &&
              (_pos s + nbyt' <=? Z.of_nat (length (buffer s))) then
        Some (firstn (Z.to_nat nbyt') (skipn (Z.to_nat (_pos s)) (buffer s)),
              cnt', mk (buffer s) (_pos s + nbyt') (_size s) eos')
      else None.

(** [bool skip(uint32 offset)]. *)
Definition skip (offset : Z) (s : t) : option (bool * t) :=
  let nbyt := int32 offset in
  if negb (fits_int (_pos s + nbyt)) then None
  else
    let short := _size s <? _pos s + nbyt in
    if short && negb (fits_int (_size s - _pos s)) then None
    else
      let nbyt' := if short then _size s - _pos s else nbyt in
      Some (true, mk (buffer s) (_pos s + nbyt') (_size s) (_eos s)).

(** [bool seek(int64 offs, int whence)]. *)
Definition seek (offs whence : Z) (s : t) : option (bool * t) :=
  let moved :=
    if whence =? SEEK_SET then Some (int32 offs)
    else if whence =? SEEK_CUR then
      if fits_int64 (_pos s + offs) then Some (int32 (_pos s + offs)) else None
    else if whence =? SEEK_END then
      if fits_int64 (_size s + offs) then Some (int32 (_size s + offs)) else None
    else Some (_pos s) in
  match moved with
  | None => None
  | Some p =>
      let p' := if p <? 0 then 0 else if _size s <? p then _size s else p in
      Some (true, mk (buffer s) p' (_size s) false)
  end.

(** The stream after a save was read into it: the position lies in the
    save, whose bytes are all there. *)
Definition ok (s : t) : Prop :=
  0 <= _pos s <= _size s /\
  _size s = Z.of_nat (length (buffer s)) /\
  _size s < 2 ^ 31.

End InVMSave.

(** Savegame can not be bigger than this: [#define MAX_SAVE_SIZE]. *)
Definition MAX_SAVE_SIZE : Z := 128 * 1024.

Inductive vmsaveResult :=
| VMSAVE_OK
| VMSAVE_NOVM
| VMSAVE_NOSPACE
| VMSAVE_WRITEERROR.

(** The value of the enumerator, by which [writeSaveGame] compares. *)
Definition vmsave_rank (r : vmsaveResult) : Z :=
  match r with
  | VMSAVE_OK => 0
  | VMSAVE_NOVM => 1
  | VMSAVE_NOSPACE => 2
  | VMSAVE_WRITEERROR => 3
  end.

(** The memory-card library (the [vmsfs_] functions) is not part of the
    sources.  A [Card] holds what its calls answer for one unit at one
    time: whether the unit is there, whether its superblock can be read,
    the number of free blocks, the blocks of the file of the save's name
    if there is one, and whether the file can be created. *)
Record Card := mkCard {
  check_unit     : bool;
  get_superblock : bool;
  count_free     : Z;
  open_file      : option Z;
  create_file    : bool
}.

(** [static vmsaveResult trySave(...)], for a save of [size] bytes.
    The blocks of the file that is replaced are added to the free ones,
    and the bytes of the header to those of the save, as [int]s. *)
Definition trySave (size : Z) (c : Card) : option vmsaveResult :=
  if negb (check_unit c) then Some VMSAVE_NOVM
  else if negb (get_superblock c) then Some VMSAVE_NOVM
  else
    let free_cnt := count_free c in
    let grown := match open_file c with
                 | Some blks =>
                     if fits_int (free_cnt + blks) then Some (free_cnt + blks)
                     else None
                 | None => Some free_cnt
                 end in
    match grown with
    | None => None
    | Some free_cnt =>
        if negb (fits_int (128 + 512 + size)) then None
        else if negb (fits_int (128 + 512 + size + 511)) then None
        else if free_cnt <? Z.shiftr (128 + 512 + size + 511) 9
        then Some VMSAVE_NOSPACE
        else if negb (create_file c) then Some VMSAVE_WRITEERROR
        else Some VMSAVE_OK
    end.

(** The loop of [writeSaveGame] over the units from [i], with [n] units
    to go: [k] counts the attempts made so far, and [units k vm] is the
    card found in unit [vm] by the attempt after them.  The result is
    paired with the unit to remember, if a save succeeded. *)
Fixpoint writeSaveGame_loop (units : nat -> Z -> Card) (size : Z) (n : nat)
         (i : Z) (k : nat) (res : vmsaveResult)
  : option (vmsaveResult * option Z) :=
  match n with
  | O => Some (res, None)
  | S n' =>
      match trySave size (units k i) with
      | None => None
      | Some r =>
          match r with
          | VMSAVE_OK => Some (r, Some i)
          | _ =>
              writeSaveGame_loop units size n' (i + 1) (S k)
                (if vmsave_rank res <? vmsave_rank r then r else res)
          end
      end
  end.

(** [vmsaveResult writeSaveGame(...)]: the result and [lastvm] after the
    call. *)
Definition writeSaveGame (units : nat -> Z -> Card) (size : Z) (lastvm : Z)
  : option (vmsaveResult * Z) :=
  let first := if 0 <=? lastvm
               then match trySave size (units 0%nat lastvm) with
                    | Some r => Some (Some r)
                    | None => None
                    end
               else Some None in
  match first with
  | None => None
  | Some (Some VMSAVE_OK) => Some (VMSAVE_OK, lastvm)
  | Some first =>
      let res := match first with Some r => r | None => VMSAVE_NOVM end in
      let k := match first with Some _ => 1%nat | None => 0%nat end in
      match writeSaveGame_loop units size 24 0 k res with
      | None => None
      | Some (r, Some i) => Some (r, i)
      | Some (r, None) => Some (r, lastvm)
      end
  end.

Module OutVMSave.

Record t := mk {
  buffer    : list byte;   (* char *buffer, [size] bytes *)
  _pos      : Z;           (* int *)
  size      : Z;           (* int *)
  committed : Z;           (* int *)
  iofailed  : bool
}.

(** The stream as the constructor leaves it, the buffer holding
    [fresh], which the constructor does not initialise. *)
Definition create (fresh : list byte) : t :=
  mk fresh 0 MAX_SAVE_SIZE (-1) false.

(** [uint32 write(const void *buf, uint32 cnt)], for [data] the bytes at
    [buf]: the count returned and the stream after the call. *)
Definition write (data : list byte) (cnt : Z) (s : t) : option (Z * t) :=
  let nbyt := int32 cnt in
  if negb (fits_int (_pos s + nbyt)) then None
  else
    let short := size s <? _pos s + nbyt in
    if short && negb (fits_int (size s - _pos s)) then None
    else
      let cnt' := if short then uint32 (size s - _pos s) else cnt in
      let nbyt' := if short then int32 cnt' else nbyt in
      if nbyt' =? 0 then Some (cnt', s)
      else if (0 <=? nbyt') && (0 <=? _pos s) &&
              (_pos s + nbyt' <=? Z.of_nat (length (buffer s))) &&
              (nbyt' <=? Z.of_nat (length data)) then
        Some (cnt',
              mk (firstn (Z.to_nat (_pos s)) (buffer s)
                  ++ firstn (Z.to_nat nbyt') data
                  ++ skipn (Z.to_nat (_pos s + nbyt')) (buffer s))
                 (_pos s + nbyt') (size s) (committed s) (iofailed s))
      else None.

(** [void finalize()], with [lastvm] beside the stream.  The result
    tells, beside them, what was handed to [writeSaveGame] and what it
    answered, which is what the dialog shows, if it was called. *)
Definition finalize (units : nat -> Z -> Card) (lastvm : Z) (s : t)
  : option (option (list byte * vmsaveResult) * Z * t) :=
  if _pos s <=? committed s then Some (None, lastvm, s)
  else
    let data := firstn (Z.to_nat (_pos s)) (buffer s) in
    let len := _pos s in
    match writeSaveGame units len lastvm with
    | None => None
    | Some (r, lastvm') =>
        Some (Some (data, r), lastvm',
              mk (buffer s) (_pos s) (size s) (_pos s)
                 (match r with VMSAVE_OK => iofailed s | _ => true end))
    end.

(** The stream between calls: the position lies in the buffer. *)
Definition ok (s : t) : Prop :=
  0 <= _pos s <= size s /\
  size s = Z.of_nat (length (buffer s)) /\
  size s < 2 ^ 31.

End OutVMSave.

(** * Windows fonts: characters and glyphs

    [WinFont::indexToCharacter], [WinFont::characterToIndex] and
    [WinFont::getCharWidth] of graphics/fonts/winfont.cpp, over the fields
    of the font they read.  A [char] is given by its byte. *)

Definition uint8 (z : Z) : Z := z mod 2 ^ 8.

Definition uint16 (z : Z) : Z := z mod 2 ^ 16.

Module WinFont.

Record t := mk {
  _firstChar   : Z;        (* byte *)
  _lastChar    : Z;        (* byte *)
  _defaultChar : Z;        (* byte *)
  _glyphCount  : Z;        (* uint16 *)
  _glyphs      : list Z    (* GlyphEntry *_glyphs: the width of each glyph *)
}.

(** [char indexToCharacter(uint16 index) const]. *)
Definition indexToCharacter (font : t) (index : Z) : Z :=
  if index =? _glyphCount font - 1 then 32
  else uint8 (index + _firstChar font).

(** [uint16 characterToIndex(uint32 character) const]. *)
Definition characterToIndex (font : t) (character : Z) : Z :=
  let character :=
    if (character <? _firstChar font) || (_lastChar font <? character)
    then _defaultChar font else character in
  uint16 (uint32 (character - _firstChar font)).

(** [int getCharWidth(uint32 chr) const]; [None] when the index lies
    outside the glyphs. *)
Definition getCharWidth (font : t) (chr : Z) : option Z :=
  nth_error (_glyphs font) (Z.to_nat (characterToIndex font chr)).

(** The font as [loadFromFNT] sets it up: the glyphs of the characters
    from the first to the last and one more, the sentinel. *)
Definition loaded (font : t) : Prop :=
  0 <= _firstChar font <= _lastChar font /\ _lastChar font < 256 /\
  0 <= _defaultChar font < 256 /\
  _glyphCount font = uint16 (_lastChar font - _firstChar font + 2) /\
  Z.of_nat (length (_glyphs font)) = _glyphCount font.

End WinFont.

(** * Freescape: messages and colours

    [FreescapeEngine::insertTemporaryMessage] and [getLatestMessages] of
    engines/freescape/freescape.cpp, and [Renderer::readFromPalette] and
    [Renderer::getRGBAt] of engines/freescape/gfx.cpp.  An array is the
    list of its elements from index 0; reading the back of an empty
    array, or an array past its end, stops the program and gives
    [None]. *)

Module Freescape.

Record Messages := mkMessages {
  _temporaryMessages         : list String.string;
  _temporaryMessageDeadlines : list Z;
  _countdown                 : Z
}.

Definition insertTemporaryMessage (message : String.string) (deadline : Z)
           (e : Messages) : Messages :=
  mkMessages (message :: _temporaryMessages e)
             (deadline :: _temporaryMessageDeadlines e) (_countdown e).

(** [back()] and [pop_back()] of an array. *)
Definition back {A} (a : list A) : option A := nth_error a (length a - 1).

Definition pop_back {A} (a : list A) : list A := removelast a.

(** The loop of [getLatestMessages], with [n] rounds to go. *)
Fixpoint getLatestMessages_loop (n : nat) (e : Messages)
         (message : String.string) (deadline : Z)
  : option (String.string * Z * Messages) :=
  match n with
  | O => Some (message, deadline, e)
  | S n' =>
      match _temporaryMessages e with
      | [] => Some (message, deadline, e)
      | _ :: _ =>
          if _countdown e <? deadline then
            match back (_temporaryMessages e),
                  back (_temporaryMessageDeadlines e) with
            | Some m, Some d =>
                getLatestMessages_loop n'
                  (mkMessages (pop_back (_temporaryMessages e))
                              (pop_back (_temporaryMessageDeadlines e))
                              (_countdown e)) m d
            | _, _ => None
            end
          else Some (message, deadline, e)
      end
  end.

(** [void getLatestMessages(Common::String &message, int &deadline)]: the
    message, the deadline and the engine after the call.  The countdown
    is an [int] like the deadlines it is compared with, and its successor
    has to be one.  Each round takes a message off, so the loop makes no
    more rounds than there are messages. *)
Definition getLatestMessages (e : Messages)
  : option (String.string * Z * Messages) :=
  if fits_int (_countdown e + 1) then
    getLatestMessages_loop (S (length (_temporaryMessages e))) e
                           String.EmptyString (_countdown e + 1)
  else None.

(** The colour four bytes of a colour map entry stand for when each is
    0 or 0xff: bit [i] is set when the [i]-th byte is 0xff. *)
Definition solid (be : byte) : bool :=
  (byte.unsigned be =? 0) || (byte.unsigned be =? 255).

Definition bit_of (be : byte) : Z :=
  if byte.unsigned be =? 255 then 1 else 0.

Definition colour_of (b0 b1 b2 b3 : byte) : Z :=
  bit_of b0 + 2 * bit_of b1 + 4 * bit_of b2 + 8 * bit_of b3.

(** The render modes [getRGBAt] tells apart, and the others. *)
Inductive RenderMode :=
| kRenderAmiga
| kRenderAtariST
| kRenderOther.

Record Renderer := mkRenderer {
  _keyColor   : Z;                (* int *)
  _palette    : list byte;        (* byte *_palette *)
  _colorMap   : list (list byte); (* the entries of *_colorMap *)
  _renderMode : RenderMode
}.

(** How a call ends: it returns, it reads outside an array, or an
    [assert] fails. *)
Inductive Ended (A : Type) :=
| Done (a : A)
| OutOfBounds
| AssertionFailed.

Arguments Done {A}.
Arguments OutOfBounds {A}.
Arguments AssertionFailed {A}.

(** [void readFromPalette(uint8 index, uint8 &r, uint8 &g, uint8 &b)]. *)
Definition readFromPalette (gfx : Renderer) (index : Z)
  : option (byte * byte * byte) :=
  match nth_error (_palette gfx) (Z.to_nat (3 * index + 0)),
        nth_error (_palette gfx) (Z.to_nat (3 * index + 1)),
        nth_error (_palette gfx) (Z.to_nat (3 * index + 2)) with
  | Some r, Some g, Some b => Some (r, g, b)
  | _, _, _ => None
  end.

Definition read_colour (gfx : Renderer) (index : Z)
  : Ended (bool * (byte * byte * byte)) :=
  match readFromPalette gfx index with
  | Some rgb => Done (true, rgb)
  | None => OutOfBounds
  end.

(** The loop of [getRGBAt] over the four bytes of an entry, from the
    [i]-th with [n] to go. *)
Fixpoint getRGBAt_loop (gfx : Renderer) (index : Z) (entry : list byte)
         (n : nat) (i : nat) (color acc : Z)
  : Ended (bool * (byte * byte * byte)) :=
  match n with
  | O =>
      if color <? 16 then read_colour gfx color else AssertionFailed
  | S n' =>
      match nth_error entry i with
      | None => OutOfBounds
      | Some be =>
          if negb (byte.unsigned be =? 0) && negb (byte.unsigned be =? 255)
          then read_colour gfx index
          else
            let color := if byte.unsigned be =? 255
                         then uint8 (color + acc) else color in
            getRGBAt_loop gfx index entry n' (S i) color
                          (uint8 (Z.shiftl acc 1))
      end
  end.

(** [bool getRGBAt(uint8 index, uint8 &r, uint8 &g, uint8 &b)], for
    [rgb] what the three references hold at the call: the result and what
    they hold after it. *)
Definition getRGBAt (gfx : Renderer) (index : Z) (rgb : byte * byte * byte)
  : Ended (bool * (byte * byte * byte)) :=
  if index =? _keyColor gfx then Done (false, rgb)
  else if index =? 0 then read_colour gfx 0
  else
    match _renderMode gfx with
    | kRenderAmiga | kRenderAtariST => read_colour gfx index
    | kRenderOther =>
        match nth_error (_colorMap gfx) (Z.to_nat (index - 1)) with
        | None => OutOfBounds
        | Some entry => getRGBAt_loop gfx index entry 4 0 0 1
        end
    end.

End Freescape.

(** A save of eight bytes, read up to its sixth; a stream being written,
    with room for four bytes of which two are taken; a card with three
    free blocks; and units of which only the fourth holds a card. *)
Definition sample_save : InVMSave.t :=
  InVMSave.mk [Byte.x01; Byte.x02; Byte.x03; Byte.x04;
               Byte.x05; Byte.x06; Byte.x07; Byte.x08] 6 8 false.

Definition sample_out : OutVMSave.t :=
  OutVMSave.mk [Byte.x01; Byte.x02; Byte.x00; Byte.x00] 2 4 (-1) false.

Definition card_with_three_blocks : Card := mkCard true true 3 None true.

Definition only_unit_3 : nat -> Z -> Card :=
  fun _ vm => mkCard (vm =? 3) true 10 None true.

(** A font of the characters from the space to the tilde, with the
    bullet's place as default character, and the same font with a default
    character below its first. *)
Definition sample_font : WinFont.t :=
  WinFont.mk 32 126 127 96 (repeat 8 96).

Definition sample_font_low_default : WinFont.t :=
  WinFont.mk 32 126 0 96 (repeat 8 96).

(** Three messages at countdown 3: the oldest has run out, the one
    before it has not. *)
Definition sample_messages : Freescape.Messages :=
  Freescape.mkMessages ["new"%string; "live"%string; "old"%string]
                       [5; 2; 9] 3.


(** A renderer of sixteen colours, the colour [i] being [(i, i, i)],
    whose colour map gives colour 1 the pattern of colour 5 and colour 2
    a stipple. *)
Definition sample_palette : list byte :=
  flat_map (fun i => [byte.of_Z (Z.of_nat i); byte.of_Z (Z.of_nat i);
                      byte.of_Z (Z.of_nat i)]) (seq 0 16).

Definition sample_renderer : Freescape.Renderer :=
  Freescape.mkRenderer 255 sample_palette
    [[Byte.xff; Byte.x00; Byte.xff; Byte.x00];
     [Byte.xff; Byte.x55; Byte.x00; Byte.x00]]
    Freescape.kRenderOther.

(** * Properties *)

(** ** Integers and bytes *)

Lemma uint32_small (z : Z) : 0 <= z < 2 ^ 32 -> uint32 z = z.
Proof. intros Hz. unfold uint32. apply Z.mod_small. exact Hz. Qed.

Lemma uint32_congr (a b k : Z) : a = b + k * 2 ^ 32 -> uint32 a = uint32 b.
Proof. intros ->. unfold uint32. apply Z_mod_plus_full. Qed.

(** The detour of the old word through [int32 a] and the cast of the
    segment pointer do not show in the 32-bit result. *)
Lemma shift_by_main_offset (w vma seg : Z) :
  uint32 (int32 w - vma + uint32 seg) = uint32 (w - vma + seg).
Proof.
  assert (Hu : forall z, uint32 z = z mod 2 ^ 32) by reflexivity.
  unfold int32. cbv zeta. rewrite (Hu w), (Hu seg). clear Hu.
  pose proof (Z.div_mod w (2 ^ 32) ltac:(discriminate)) as Hw.
  pose proof (Z.div_mod seg (2 ^ 32) ltac:(discriminate)) as Hs.
  destruct (w mod 2 ^ 32 <? 2 ^ 31).
  - apply (uint32_congr _ _ (- (w / 2 ^ 32) - seg / 2 ^ 32)). lia.
  - apply (uint32_congr _ _ (- (w / 2 ^ 32) - seg / 2 ^ 32 - 1)). lia.
Qed.

Lemma put_word_length (bs : list byte) (off : nat) (v : Z) :
  (off + 4 <= length bs)%nat -> length (put_word bs off v) = length bs.
Proof.
  intros Hin. unfold put_word.
  rewrite !length_app, length_firstn, length_le_split, length_skipn. lia.
Qed.

Lemma word_at_put_word (bs : list byte) (off : nat) (v : Z) :
  (off + 4 <= length bs)%nat -> word_at (put_word bs off v) off = uint32 v.
Proof.
  intros Hin. unfold word_at, put_word.
  rewrite skipn_app, length_firstn.
  replace (off - Nat.min off (length bs))%nat with 0%nat by lia.
  rewrite (skipn_all2 (firstn off bs)) by (rewrite length_firstn; lia).
  cbn [app skipn].
  rewrite firstn_app, length_le_split.
  rewrite (firstn_all2 (le_split 4 v)) by (rewrite length_le_split; lia).
  cbn [Nat.sub firstn]. rewrite app_nil_r.
  rewrite le_combine_split. reflexivity.
Qed.

(** A write of one word leaves the bytes around it as they were. *)
Lemma put_word_elsewhere (bs : list byte) (off : nat) (v : Z) (i : nat) :
  (off + 4 <= length bs)%nat -> (i < off \/ off + 4 <= i)%nat ->
  nth_error (put_word bs off v) i = nth_error bs i.
Proof.
  intros Hin Hi. unfold put_word.
  rewrite <- (firstn_skipn off bs) at 3.
  destruct Hi as [Hlt | Hge].
  - rewrite !nth_error_app1 by (rewrite length_firstn; lia). reflexivity.
  - rewrite !nth_error_app2 by (rewrite ?length_firstn, ?length_le_split; lia).
    rewrite length_firstn, length_le_split, !nth_error_skipn.
    f_equal. lia.
Qed.

(** ** The scratch buffer as a list of entries *)

Lemma parse_entries_length_le (n : nat) :
  forall buf, (length buf <= n)%nat ->
              length (parse_entries buf) = (length buf / 8)%nat.
Proof.
  induction n as [| n IH]; intros buf Hn.
  - destruct buf; [reflexivity | simpl in Hn; lia].
  - do 8 (destruct buf as [| ? buf]; [reflexivity |]).
    cbn [parse_entries length] in *.
    rewrite IH by lia.
    change (S (S (S (S (S (S (S (S (length buf)))))))))
      with (1 * 8 + length buf)%nat.
    rewrite Nat.div_add_l by discriminate. reflexivity.
Qed.

Lemma parse_entries_length (buf : list byte) :
  length (parse_entries buf) = (length buf / 8)%nat.
Proof. apply (parse_entries_length_le (length buf)). apply Nat.le_refl. Qed.

Lemma parse_entries_count (buf : list byte) :
  length (parse_entries buf)
  = Z.to_nat (Z.of_nat (length buf) / sizeof_Elf32_Rel).
Proof.
  rewrite parse_entries_length. unfold sizeof_Elf32_Rel.
  change 8 with (Z.of_nat 8). rewrite <- Nat2Z.inj_div, Nat2Z.id.
  reflexivity.
Qed.

(** Bytes after the last whole entry are not part of any entry. *)
Lemma parse_entries_whole_le (n : nat) :
  forall buf, (length buf <= n)%nat ->
    parse_entries (firstn (8 * (length buf / 8)) buf) = parse_entries buf.
Proof.
  induction n as [| n IH]; intros buf Hle.
  - destruct buf; [reflexivity | simpl in Hle; lia].
  - do 8 (destruct buf as [| ? buf];
          [rewrite Nat.div_small by (simpl; lia); reflexivity |]).
    cbn [length].
    change (S (S (S (S (S (S (S (S (length buf)))))))))
      with (1 * 8 + length buf)%nat.
    rewrite Nat.div_add_l by discriminate.
    replace (8 * (1 + length buf / 8))%nat
      with (S (S (S (S (S (S (S (S (8 * (length buf / 8))))))))))%nat by lia.
    cbn [firstn parse_entries]. rewrite IH by (simpl in Hle; lia).
    reflexivity.
Qed.

Lemma parse_entries_whole (buf : list byte) :
  parse_entries (firstn (8 * (length buf / 8)) buf) = parse_entries buf.
Proof. apply (parse_entries_whole_le (length buf)). apply Nat.le_refl. Qed.

Lemma rel_at_parse_entries (i : nat) :
  forall buf, (i < length (parse_entries buf))%nat ->
              nth_error (parse_entries buf) i = Some (rel_at buf (Z.of_nat i)).
Proof.
  induction i as [| i IH]; intros buf Hi;
    do 8 (destruct buf as [| ? buf]; [simpl in Hi; lia |]).
  - reflexivity.
  - cbn [parse_entries length nth_error] in *.
    rewrite IH by lia. f_equal.
    unfold rel_at, word_at, sizeof_Elf32_Rel.
    replace (Z.to_nat (8 * Z.of_nat (S i)))
      with (S (S (S (S (S (S (S (S (Z.to_nat (8 * Z.of_nat i))))))))))
      by lia.
    reflexivity.
Qed.

Lemma skipn_cons_nth_error {A} (l : list A) (i : nat) (x : A) :
  nth_error l i = Some x -> skipn i l = x :: skipn (S i) l.
Proof.
  revert l. induction i as [| i IH]; intros [| y l] Hx; try discriminate.
  - injection Hx as ->. reflexivity.
  - cbn [nth_error] in Hx. change (skipn i l = x :: skipn (S i) l).
    apply IH, Hx.
Qed.

(** ** The heap *)

Lemma heap_malloc_free (size : Z) (h h1 : Heap) (rel : nat) :
  heap_ok h -> heap_malloc size h = (Some rel, h1) ->
  h_live (heap_free rel h1) = h_live h /\
  h_peak (heap_free rel h1) = Nat.max (h_peak h) (S (length (h_live h))) /\
  h_calls (heap_free rel h1) = S (h_calls h) /\
  h_policy (heap_free rel h1) = h_policy h /\
  heap_ok (heap_free rel h1).
Proof.
  unfold heap_ok, heap_malloc. intros Hok.
  destruct (h_policy h (h_calls h) size); [| discriminate].
  intros Heq. injection Heq as <- <-.
  cbn [heap_free h_live h_peak h_calls h_policy remove].
  destruct (Nat.eq_dec (h_calls h) (h_calls h)) as [_ | Hne];
    [| contradiction].
  assert (Hnotin : ~ In (h_calls h) (h_live h)).
  { intros Hin. rewrite Forall_forall in Hok. apply Hok in Hin. lia. }
  rewrite (notin_remove Nat.eq_dec _ _ Hnotin).
  repeat split.
  eapply Forall_impl; [| exact Hok]. cbn. intros p Hp. lia.
Qed.

Lemma heap_malloc_refused (size : Z) (h h1 : Heap) :
  heap_malloc size h = (None, h1) ->
  h_live h1 = h_live h /\ h_peak h1 = h_peak h /\
  h_calls h1 = S (h_calls h) /\ h_policy h1 = h_policy h /\
  (heap_ok h -> heap_ok h1).
Proof.
  unfold heap_ok, heap_malloc.
  destruct (h_policy h (h_calls h) size); [discriminate |].
  intros Heq. injection Heq as <-. cbn [h_live h_peak h_calls h_policy].
  repeat split. intros Hok.
  eapply Forall_impl; [| exact Hok]. cbn. intros p Hp. lia.
Qed.

Section LoaderFacts.
Context {F : Type} `{SeekableReadStream F}.

Lemma in_segment_offset (st : State F) (addr : Z) :
  in_segment st addr = true ->
  (Z.to_nat (addr - _segment st) + 4 <= length (segment_bytes st))%nat.
Proof.
  unfold in_segment. rewrite andb_true_iff, !Z.leb_le. lia.
Qed.

(** *** One entry *)

Lemma relocate_entry_outcome (st : State F) rel e relSegment :
  relocate_entry rel e relSegment st = entry_outcome rel e relSegment st.
Proof.
  unfold relocate_entry, entry_outcome, absolute_fixup,
    self_relative_or_marker, target_of, bind, get, sym_shndx.
  destruct ((REL_TYPE (r_info e) =? R_ARM_ABS32)
            || (REL_TYPE (r_info e) =? R_ARM_TARGET1)).
  - destruct (nth_error (_symtab st) (Z.to_nat (REL_INDEX (r_info e))))
      as [sym |]; [| reflexivity].
    destruct (st_shndx sym <? SHN_LOPROC); [| reflexivity].
    unfold load32, store32, ret, patch_word.
    destruct (in_segment st
                (uint32 (relSegment + r_offset e - _segmentVMA st)))
      eqn:Hin; [| reflexivity].
    cbn [_segment segment_bytes]. rewrite Hin.
    rewrite shift_by_main_offset. reflexivity.
  - destruct (REL_TYPE (r_info e) =? R_ARM_PC24); [reflexivity |].
    destruct (REL_TYPE (r_info e) =? R_ARM_THM_CALL); [reflexivity |].
    destruct (REL_TYPE (r_info e) =? R_ARM_CALL); [reflexivity |].
    destruct (REL_TYPE (r_info e) =? R_ARM_JUMP24); [reflexivity |].
    destruct (REL_TYPE (r_info e) =? R_ARM_V4BX); reflexivity.
Qed.

Lemma entry_frame_refl rel (st : State F) : entry_frame rel true st st.
Proof. constructor; reflexivity. Qed.

Lemma relocate_entry_frame (st st' : State F) rel e relSegment b :
  relocate_entry rel e relSegment st = Returned b st' ->
  entry_frame rel b st st'.
Proof.
  rewrite relocate_entry_outcome. unfold entry_outcome.
  destruct (absolute_fixup (REL_TYPE (r_info e))).
  - destruct (nth_error (_symtab st) (Z.to_nat (REL_INDEX (r_info e))))
      as [sym |]; [| discriminate].
    destruct (st_shndx sym <? SHN_LOPROC).
    + destruct (in_segment st (target_of relSegment e st)) eqn:Hin;
        [| discriminate].
      intros Heq. injection Heq as <- <-.
      constructor; try reflexivity.
      unfold patch_word. cbn [segment_bytes set_segment_bytes].
      apply put_word_length, in_segment_offset, Hin.
    + intros Heq. injection Heq as <- <-. apply entry_frame_refl.
  - destruct (self_relative_or_marker (REL_TYPE (r_info e))).
    + intros Heq. injection Heq as <- <-. apply entry_frame_refl.
    + intros Heq. injection Heq as <- <-.
      constructor; try reflexivity.
      exists (REL_TYPE (r_info e)). reflexivity.
Qed.

(** *** The loop over the entries *)

Lemma relocate_loop_entries (n : nat) :
  forall (i : nat) rel buf relSegment (st : State F),
    (i + n <= length (parse_entries buf))%nat ->
    relocate_loop n (Z.of_nat i) rel buf relSegment st =
    relocate_entries rel (firstn n (skipn i (parse_entries buf)))
                     relSegment st.
Proof.
  induction n as [| n IH]; intros i rel buf relSegment st Hn.
  - reflexivity.
  - rewrite (skipn_cons_nth_error _ i (rel_at buf (Z.of_nat i)))
      by (apply rel_at_parse_entries; lia).
    cbn [firstn relocate_loop relocate_entries]. unfold bind.
    destruct (relocate_entry rel (rel_at buf (Z.of_nat i)) relSegment st)
      as [[|] st' | f]; try reflexivity.
    replace (Z.of_nat i + 1) with (Z.of_nat (S i)) by lia.
    apply IH. lia.
Qed.

Lemma relocate_loop_all rel buf relSegment (st : State F) :
  relocate_loop (Z.to_nat (Z.of_nat (length buf) / sizeof_Elf32_Rel)) 0
                rel buf relSegment st =
  relocate_entries rel (parse_entries buf) relSegment st.
Proof.
  rewrite <- parse_entries_count.
  rewrite (relocate_loop_entries _ 0) by lia.
  cbn [skipn]. rewrite firstn_all. reflexivity.
Qed.

Lemma relocate_entries_app rel es1 es2 relSegment (st : State F) :
  relocate_entries rel (es1 ++ es2) relSegment st =
  (go <- relocate_entries rel es1 relSegment ;;
   if go then relocate_entries rel es2 relSegment else ret false) st.
Proof.
  revert st. induction es1 as [| e es1 IH]; intros st.
  - reflexivity.
  - cbn [app relocate_entries]. unfold bind in *.
    destruct (relocate_entry rel e relSegment st) as [[|] st' | f];
      try reflexivity.
    apply IH.
Qed.

Lemma entry_frame_trans rel b (st st1 st2 : State F) :
  entry_frame rel true st st1 -> entry_frame rel b st1 st2 ->
  entry_frame rel b st st2.
Proof.
  intros [Hf Hs Hx Hg Hv Hl Hh Hw] [Hf' Hs' Hx' Hg' Hv' Hl' Hh' Hw'].
  constructor; try congruence.
  - destruct b; congruence.
  - destruct b; [congruence |].
    destruct Hw' as [t Ht]. exists t. congruence.
Qed.

Lemma relocate_entries_frame rel es relSegment :
  forall (st st' : State F) b,
    relocate_entries rel es relSegment st = Returned b st' ->
    entry_frame rel b st st'.
Proof.
  induction es as [| e es IH]; intros st st' b.
  - intros Heq. injection Heq as <- <-. apply entry_frame_refl.
  - cbn [relocate_entries]. unfold bind.
    destruct (relocate_entry rel e relSegment st) as [[|] st1 | f] eqn:He;
      [| | discriminate].
    + intros Hrest. apply relocate_entry_frame in He.
      eapply entry_frame_trans; [exact He | apply IH, Hrest].
    + intros Heq. injection Heq as <- <-.
      apply relocate_entry_frame in He. exact He.
Qed.

(** Entries that ask for no patch leave the whole state as it is. *)
Lemma relocate_entries_no_patch rel es relSegment (st : State F) :
  forallb (no_patch (_symtab st)) es = true ->
  relocate_entries rel es relSegment st = Returned true st.
Proof.
  induction es as [| e es IH]; [reflexivity |].
  cbn [forallb relocate_entries]. rewrite andb_true_iff. intros [He Hes].
  unfold bind. rewrite relocate_entry_outcome. unfold entry_outcome.
  unfold no_patch in He.
  destruct (absolute_fixup (REL_TYPE (r_info e))) eqn:Habs.
  - assert (Hsr : self_relative_or_marker (REL_TYPE (r_info e)) = false).
    { unfold absolute_fixup, self_relative_or_marker in *.
      rewrite orb_true_iff, !Z.eqb_eq in Habs.
      destruct Habs as [-> | ->]; reflexivity. }
    rewrite Hsr in He. cbn [orb andb] in He.
    destruct (nth_error (_symtab st) (Z.to_nat (REL_INDEX (r_info e))))
      as [sym |]; [| discriminate].
    apply Z.leb_le in He.
    destruct (st_shndx sym <? SHN_LOPROC) eqn:Hlt;
      [apply Z.ltb_lt in Hlt; lia |].
    apply IH, Hes.
  - rewrite orb_false_r in He. rewrite He. apply IH, Hes.
Qed.

(** The first entry of a type outside the enumerated ones ends the run:
    the state is the one the entries before it left, with the warning
    added and the table freed. *)
Lemma relocate_entries_reject rel pre e post relSegment (st stk : State F) :
  relocate_entries rel pre relSegment st = Returned true stk ->
  enumerated_type (REL_TYPE (r_info e)) = false ->
  relocate_entries rel (pre ++ e :: post) relSegment st =
  Returned false (reject rel (UnknownRelocationType (REL_TYPE (r_info e))) stk).
Proof.
  intros Hpre Hty. rewrite relocate_entries_app. unfold bind. rewrite Hpre.
  cbn [relocate_entries]. unfold bind.
  rewrite relocate_entry_outcome. unfold entry_outcome.
  unfold enumerated_type in Hty. apply orb_false_iff in Hty.
  destruct Hty as [-> ->]. reflexivity.
Qed.

(** *** The whole of [relocate] *)

Lemma relocate_refused offset size relSegment (st : State F) h1 :
  heap_malloc size (heap st) = (None, h1) ->
  relocate offset size relSegment st =
  Returned false (add_warning (CouldNotAllocate size) (set_heap h1 st)).
Proof.
  intros Hm. unfold relocate, bind, malloc. rewrite Hm. reflexivity.
Qed.

Lemma relocate_truncated offset size relSegment (st : State F) rel h1 :
  heap_malloc size (heap st) = (Some rel, h1) ->
  table_truncated offset size st ->
  exists f, relocate offset size relSegment st =
            Returned false (reject rel RelocationTableLoadFailed
                                   (set_file f (set_heap h1 st))).
Proof.
  intros Hm Htr. unfold table_truncated in Htr.
  unfold relocate, bind, malloc, file_seek, file_read. rewrite Hm.
  cbn [_file set_heap].
  destruct (seek offset (_file st)) as [sought f1].
  cbn [fst snd] in Htr.
  destruct sought; cbn [negb].
  - destruct Htr as [Hs | Hr]; [discriminate |].
    cbn [_file set_file].
    destruct (read size f1) as [buf f2]. cbn [fst] in Hr.
    apply Z.eqb_neq in Hr. rewrite Hr. cbn [negb].
    exists f2. reflexivity.
  - exists f1. reflexivity.
Qed.

Lemma relocate_loaded offset size relSegment (st st1 : State F) rel buf :
  table_loaded offset size st rel buf st1 ->
  relocate offset size relSegment st =
  match relocate_entries rel (parse_entries buf) relSegment st1 with
  | Returned true st2 => Returned true (set_heap (heap_free rel (heap st2)) st2)
  | Returned false st2 => Returned false st2
  | Undefined f => Undefined f
  end.
Proof.
  intros (h1 & f1 & f2 & Hm & Hs & Hr & Hlen & ->). subst size.
  unfold relocate, bind, malloc, file_seek, file_read. rewrite Hm.
  cbn [_file set_heap]. rewrite Hs. cbn [negb _file set_file]. rewrite Hr.
  rewrite Z.eqb_refl. cbn [negb]. rewrite relocate_loop_all.
  destruct (relocate_entries rel (parse_entries buf) relSegment _)
    as [[|] st2 | f]; reflexivity.
Qed.

Lemma loaded_or_truncated offset size (st : State F) rel h1 :
  heap_malloc size (heap st) = (Some rel, h1) ->
  (exists buf st1, table_loaded offset size st rel buf st1) \/
  table_truncated offset size st.
Proof.
  intros Hm. unfold table_loaded, table_truncated.
  destruct (seek offset (_file st)) as [[|] f1] eqn:Hs; cbn [fst snd].
  - destruct (read size f1) as [buf f2] eqn:Hr. cbn [fst].
    destruct (Z.eq_dec (Z.of_nat (length buf)) size) as [Hlen | Hlen].
    + left. exists buf, (set_file f2 (set_heap h1 st)), h1, f1, f2.
      repeat split; assumption.
    + right. right. exact Hlen.
  - right. left. reflexivity.
Qed.

(** Whatever [relocate] returns, the object's fields are as before and
    the heap is the one [malloc] left, with the table freed if there was
    one. *)
Lemma relocate_returned offset size relSegment (st st' : State F) b :
  relocate offset size relSegment st = Returned b st' ->
  (_symtab st' = _symtab st /\ _symtab_sect st' = _symtab_sect st /\
   _segment st' = _segment st /\ _segmentVMA st' = _segmentVMA st /\
   length (segment_bytes st') = length (segment_bytes st)) /\
  ((exists h1, heap_malloc size (heap st) = (None, h1) /\ heap st' = h1 /\
               b = false) \/
   (exists rel h1, heap_malloc size (heap st) = (Some rel, h1) /\
                   heap st' = heap_free rel h1)).
Proof.
  destruct (heap_malloc size (heap st)) as [[rel |] h1] eqn:Hm.
  - destruct (loaded_or_truncated offset size st rel h1 Hm)
      as [(buf & st1 & Hld) | Htr].
    + rewrite (relocate_loaded _ _ _ _ _ _ _ Hld).
      destruct Hld as (h1' & f1 & f2 & Hm' & _ & _ & _ & ->).
      assert (h1' = h1) by congruence. subst h1'.
      destruct (relocate_entries rel (parse_entries buf) relSegment _)
        as [[|] st2 | f] eqn:Hes; [| | discriminate];
        apply relocate_entries_frame in Hes;
        destruct Hes as [Hf Hs Hx Hg Hv Hl Hh Hw];
        intros Heq; injection Heq as <- <-;
        (split; [repeat split; assumption |]);
        right; exists rel, h1; (split; [reflexivity |]).
      * cbn [heap set_heap]. rewrite Hh. reflexivity.
      * rewrite Hh. reflexivity.
    + destruct (relocate_truncated offset size relSegment st rel h1 Hm Htr)
        as [f ->].
      intros Heq. injection Heq as <- <-.
      split; [repeat split |]. right. exists rel, h1. split; reflexivity.
  - rewrite (relocate_refused _ _ _ _ _ Hm).
    intros Heq. injection Heq as <- <-.
    split; [repeat split |]. left. exists h1. repeat split.
Qed.

Lemma relocate_relocate_frame offset size relSegment (st st' : State F) b :
  heap_ok (heap st) ->
  relocate offset size relSegment st = Returned b st' ->
  relocate_frame st st'.
Proof.
  intros Hok Hrun. apply relocate_returned in Hrun.
  destruct Hrun as [(Hs & Hx & Hg & Hv & Hl) Hheap].
  destruct Hheap as [(h1 & Hm & Hh & _) | (rel & h1 & Hm & Hh)].
  - destruct (heap_malloc_refused _ _ _ Hm) as (Hlive & Hpeak & Hc & Hp & Hk).
    subst h1. constructor; try assumption.
    + rewrite Hpeak. apply Nat.le_max_l.
    + apply Hk, Hok.
  - destruct (heap_malloc_free _ _ _ _ Hok Hm)
      as (Hlive & Hpeak & Hc & Hp & Hk).
    rewrite <- Hh in *. constructor; try assumption.
    rewrite Hpeak. apply Nat.le_refl.
Qed.

Lemma relocate_frame_balanced (st st' : State F) :
  relocate_frame st st' -> heap_balanced (heap st) (heap st').
Proof. intros []. repeat split; assumption. Qed.

Lemma heap_balanced_refl (h : Heap) : heap_ok h -> heap_balanced h h.
Proof. intros Hok. repeat split; [apply Nat.le_max_l | exact Hok]. Qed.

Lemma heap_balanced_trans (h0 h1 h2 : Heap) :
  heap_balanced h0 h1 -> heap_balanced h1 h2 -> heap_balanced h0 h2.
Proof.
  intros (Hl & Hp & _) (Hl' & Hp' & Hk'). repeat split; [congruence | | exact Hk'].
  rewrite Hl in Hp'. lia.
Qed.

(** *** The loop over the sections *)

Lemma land_SHF_ALLOC (x : Z) :
  negb (Z.land x SHF_ALLOC =? 0) = Z.testbit x 1.
Proof.
  unfold SHF_ALLOC. change 2 with (2 ^ 1).
  destruct (Z.testbit x 1) eqn:Hbit.
  - assert (Hland : Z.land x (2 ^ 1) = 2 ^ 1).
    { apply Z.bits_inj'. intros n Hn.
      rewrite Z.land_spec, Z.pow2_bits_eqb by lia.
      destruct (Z.eqb_spec 1 n) as [<- | Hne].
      - rewrite Hbit. reflexivity.
      - apply andb_false_r. }
    rewrite Hland. reflexivity.
  - assert (Hland : Z.land x (2 ^ 1) = 0).
    { apply Z.bits_inj'. intros n Hn.
      rewrite Z.land_spec, Z.pow2_bits_eqb, Z.bits_0 by lia.
      destruct (Z.eqb_spec 1 n) as [<- | Hne].
      - rewrite Hbit. reflexivity.
      - apply andb_false_r. }
    rewrite Hland. reflexivity.
Qed.

Lemma relocates_loaded_section_qualifies ehdr shdr s (st : State F) :
  (0 < Z.to_nat (e_shnum ehdr) <= length shdr)%nat ->
  relocates_loaded_section ehdr shdr s st =
  Returned (qualifies (_symtab_sect st) ehdr shdr s) st.
Proof.
  intros Hnum. unfold relocates_loaded_section, qualifies, bind, get.
  destruct (((sh_type s =? SHT_REL) || (sh_type s =? SHT_RELA))
            && (sh_entsize s =? sizeof_Elf32_Rel)
            && (int32 (sh_link s) =? _symtab_sect st)); [| reflexivity].
  cbn [andb].
  destruct (sh_info s <? e_shnum ehdr) eqn:Hinfo; [| reflexivity].
  apply Z.ltb_lt in Hinfo. unfold section_at.
  destruct (nth_error shdr (Z.to_nat (sh_info s))) as [t |] eqn:Ht.
  - unfold ret, runtime_resident. rewrite land_SHF_ALLOC. reflexivity.
  - apply nth_error_None in Ht. lia.
Qed.

Lemma relocates_loaded_section_pure ehdr shdr s (st st' : State F) b :
  relocates_loaded_section ehdr shdr s st = Returned b st' -> st' = st.
Proof.
  unfold relocates_loaded_section, bind, get, section_at, ret.
  destruct (_ && _ && _ && _).
  - destruct (nth_error shdr (Z.to_nat (sh_info s))); [| discriminate].
    intros Heq. injection Heq as _ <-. reflexivity.
  - intros Heq. injection Heq as _ <-. reflexivity.
Qed.

Lemma relocateRels_loop_sections ehdr shdr (n : nat) :
  forall (i : nat) (st : State F),
    (i + n <= Z.to_nat (e_shnum ehdr) <= length shdr)%nat ->
    relocateRels_loop n (Z.of_nat i) ehdr shdr st =
    process_sections
      (filter (qualifies (_symtab_sect st) ehdr shdr)
              (firstn n (skipn i shdr))) st.
Proof.
  induction n as [| n IH]; intros i st Hn; [reflexivity |].
  destruct (nth_error shdr i) as [s |] eqn:Hs;
    [| apply nth_error_None in Hs; lia].
  rewrite (skipn_cons_nth_error _ _ _ Hs).
  cbn [firstn filter relocateRels_loop]. unfold bind at 1, section_at at 1.
  rewrite Nat2Z.id, Hs. unfold bind at 1.
  rewrite relocates_loaded_section_qualifies by lia.
  replace (Z.of_nat i + 1) with (Z.of_nat (S i)) by lia.
  destruct (qualifies (_symtab_sect st) ehdr shdr s).
  - cbn [process_sections].
    destruct (sh_type s =? SHT_RELA); [reflexivity |].
    unfold bind, get.
    destruct (relocate (sh_offset s) (sh_size s) (_segment st) st)
      as [[|] st1 | f] eqn:Hrun; try reflexivity.
    cbn [negb]. apply relocate_returned in Hrun.
    destruct Hrun as [(_ & Hx & _) _]. rewrite <- Hx.
    apply IH. lia.
  - apply IH. lia.
Qed.

Lemma relocateRels_sections ehdr shdr (st : State F) :
  (Z.to_nat (e_shnum ehdr) <= length shdr)%nat ->
  relocateRels ehdr shdr st =
  process_sections
    (filter (qualifies (_symtab_sect st) ehdr shdr)
            (firstn (Z.to_nat (e_shnum ehdr)) shdr)) st.
Proof.
  intros Hn. unfold relocateRels.
  apply (relocateRels_loop_sections ehdr shdr _ 0 st). lia.
Qed.

(** A run over the sections that succeeds has called [relocate] once for
    each of them, and none of them was of the addend-carrying type. *)
Lemma process_sections_calls todo :
  forall (st st' : State F),
    process_sections todo st = Returned true st' ->
    h_calls (heap st') = (h_calls (heap st) + length todo)%nat /\
    forallb (fun s => negb (sh_type s =? SHT_RELA)) todo = true.
Proof.
  induction todo as [| s rest IH]; intros st st'.
  - intros Heq. injection Heq as <-. cbn. split; [lia | reflexivity].
  - cbn [process_sections].
    destruct (sh_type s =? SHT_RELA) eqn:Hrela; [discriminate |].
    unfold bind, get.
    destruct (relocate (sh_offset s) (sh_size s) (_segment st) st)
      as [[|] st1 | f] eqn:Hrun; try discriminate.
    intros Hrest. apply IH in Hrest. destruct Hrest as (Hc & Hr).
    apply relocate_returned in Hrun. destruct Hrun as [_ Hheap].
    assert (Hc1 : h_calls (heap st1) = S (h_calls (heap st))).
    { destruct Hheap as [(h1 & Hm & Hh & Hb) | (rel & h1 & Hm & Hh)].
      - discriminate.
      - rewrite Hh. unfold heap_malloc in Hm.
        destruct (h_policy (heap st) (h_calls (heap st)) (sh_size s));
          [| discriminate].
        injection Hm as <- <-. reflexivity. }
    cbn [length forallb]. rewrite Hrela, Hr. cbn [negb andb].
    split; [lia | reflexivity].
Qed.

(** A section of the addend-carrying type among those processed keeps
    the run from succeeding. *)
Lemma process_sections_rela todo s :
  In s todo -> sh_type s = SHT_RELA ->
  forall (st st' : State F) b,
    process_sections todo st = Returned b st' -> b = false.
Proof.
  intros Hin Hty st st' b Hrun. destruct b; [| reflexivity].
  apply process_sections_calls in Hrun. destruct Hrun as [_ Hall].
  rewrite forallb_forall in Hall. specialize (Hall s Hin).
  rewrite Hty in Hall. discriminate.
Qed.

Lemma relocateRels_loop_balanced ehdr shdr (n : nat) :
  forall (i : Z) (st st' : State F) b,
    heap_ok (heap st) ->
    relocateRels_loop n i ehdr shdr st = Returned b st' ->
    heap_balanced (heap st) (heap st').
Proof.
  induction n as [| n IH]; intros i st st' b Hok.
  - intros Heq. injection Heq as <- <-. apply heap_balanced_refl, Hok.
  - cbn [relocateRels_loop]. unfold bind at 1, section_at at 1.
    destruct (nth_error shdr (Z.to_nat i)) as [s |]; [| discriminate].
    unfold bind at 1.
    destruct (relocates_loaded_section ehdr shdr s st)
      as [found st0 | f] eqn:Hfound; [| discriminate].
    apply relocates_loaded_section_pure in Hfound. subst st0.
    destruct found; [| apply IH, Hok].
    destruct (sh_type s =? SHT_RELA).
    + intros Heq. injection Heq as <- <-. apply heap_balanced_refl, Hok.
    + unfold bind, get.
      destruct (relocate (sh_offset s) (sh_size s) (_segment st) st)
        as [ok st1 | f] eqn:Hrun; [| discriminate].
      apply (relocate_relocate_frame _ _ _ _ _ _ Hok) in Hrun.
      pose proof (relocate_frame_balanced _ _ Hrun) as Hbal.
      destruct ok; cbn [negb].
      * intros Hrest. apply IH in Hrest; [| apply Hrun].
        eapply heap_balanced_trans; eassumption.
      * intros Heq. injection Heq as <- <-. exact Hbal.
Qed.

Lemma process_sections_app done rest (st : State F) :
  process_sections (done ++ rest) st =
  (ok <- process_sections done ;;
   if ok then process_sections rest else ret false) st.
Proof.
  revert st. induction done as [| s done IH]; intros st; [reflexivity |].
  cbn [app process_sections].
  destruct (sh_type s =? SHT_RELA); [reflexivity |].
  unfold bind, get in *.
  destruct (relocate (sh_offset s) (sh_size s) (_segment st) st)
    as [[|] st1 | f]; try reflexivity.
  apply IH.
Qed.

Lemma relocate_loop_split (n m : nat) :
  forall i rel buf relSegment (st : State F),
    relocate_loop (n + m) i rel buf relSegment st =
    (go <- relocate_loop n i rel buf relSegment ;;
     if go then relocate_loop m (i + Z.of_nat n) rel buf relSegment
     else ret false) st.
Proof.
  induction n as [| n IH]; intros i rel buf relSegment st.
  - cbn [Nat.add relocate_loop]. unfold bind, ret.
    rewrite Z.add_0_r. reflexivity.
  - cbn [Nat.add relocate_loop]. unfold bind in *.
    destruct (relocate_entry rel (rel_at buf i) relSegment st)
      as [[|] st1 | f]; try reflexivity.
    rewrite IH. replace (i + 1 + Z.of_nat n) with (i + Z.of_nat (S n)) by lia.
    reflexivity.
Qed.

(** An entry of a type outside the enumerated ones keeps the run over
    the entries from succeeding, wherever it stands. *)
Lemma relocate_entries_unknown rel es e relSegment :
  In e es -> enumerated_type (REL_TYPE (r_info e)) = false ->
  forall (st st' : State F) b,
    relocate_entries rel es relSegment st = Returned b st' -> b = false.
Proof.
  intros Hin Hty. induction es as [| e0 es IH]; [contradiction |].
  intros st st' b. cbn [relocate_entries]. unfold bind.
  destruct (relocate_entry rel e0 relSegment st) as [[|] st1 | f] eqn:He;
    [| | discriminate].
  - destruct Hin as [-> | Hin]; [| apply IH, Hin].
    rewrite relocate_entry_outcome in He. unfold entry_outcome in He.
    unfold enumerated_type in Hty. apply orb_false_iff in Hty.
    destruct Hty as [Ha Hs]. rewrite Ha, Hs in He. discriminate.
  - intros Heq. injection Heq as <- _. reflexivity.
Qed.

End LoaderFacts.

(** ** The relocation engine *)

Section RelocationEngine.
Context {F : Type} `{SeekableReadStream F}.

Lemma table_loaded_after_load offset size (st : State F) rel :
  fst (heap_malloc size (heap st)) = Some rel ->
  fst (seek offset (_file st)) = true ->
  Z.of_nat (length (table_bytes offset size st)) = size ->
  table_loaded offset size st rel (table_bytes offset size st)
               (after_load offset size st).
Proof.
  unfold table_loaded, table_bytes, after_load. intros Hm Hs Hlen.
  destruct (heap_malloc size (heap st)) as [p h1] eqn:Em. cbn [fst snd] in *.
  destruct (seek offset (_file st)) as [sought f1] eqn:Es. cbn [fst snd] in *.
  destruct (read size f1) as [buf f2] eqn:Er. cbn [fst snd] in *.
  subst p sought. exists h1, f1, f2. repeat split; assumption.
Qed.

(** One round of the loop at an absolute fixup: for an entry of type
    R_ARM_ABS32 or R_ARM_TARGET1 whose symbol is defined in a section
    below SHN_LOPROC, and whose target word lies in the segment, the
    round stores the 32-bit value of V - O + B at the target and the loop
    carries on with the next entry. *)
Lemma relocate_entry_shifts_word (st : State F) rel e relSegment sym :
  absolute_fixup (REL_TYPE (r_info e)) = true ->
  nth_error (_symtab st) (Z.to_nat (REL_INDEX (r_info e))) = Some sym ->
  st_shndx sym < SHN_LOPROC ->
  in_segment st (target_of relSegment e st) = true ->
  let target := target_of relSegment e st in
  let off := Z.to_nat (target - _segment st) in
  let V := word_at (segment_bytes st) off in
  let O := _segmentVMA st in
  let B := _segment st in
  exists st',
    relocate_entry rel e relSegment st = Returned true st' /\
    load32 target st' = Returned (uint32 (V - O + B)) st' /\
    (0 <= V - O + B < 2 ^ 32 ->
     word_at (segment_bytes st') off = V - O + B) /\
    (forall i, (i < off \/ off + 4 <= i)%nat ->
               nth_error (segment_bytes st') i
               = nth_error (segment_bytes st) i) /\
    st' = set_segment_bytes (segment_bytes st') st /\
    (forall n i buf,
        rel_at buf i = e ->
        relocate_loop (S n) i rel buf relSegment st
        = relocate_loop n (i + 1) rel buf relSegment st').
Proof.
  intros Habs Hsym Hint Hin target off V O B.
  exists (patch_word target st).
  pose proof (in_segment_offset _ _ Hin) as Hoff.
  assert (Hword : word_at (segment_bytes (patch_word target st)) off
                  = uint32 (V - O + B)).
  { unfold patch_word. cbn [segment_bytes set_segment_bytes].
    rewrite word_at_put_word by exact Hoff.
    unfold uint32. rewrite Z.mod_mod by discriminate. reflexivity. }
  assert (Hrun : relocate_entry rel e relSegment st
                 = Returned true (patch_word target st)).
  { rewrite relocate_entry_outcome. unfold entry_outcome.
    rewrite Habs, Hsym. apply Z.ltb_lt in Hint. rewrite Hint.
    rewrite Hin. reflexivity. }
  split; [| split; [| split; [| split; [| split]]]].
  - exact Hrun.
  - unfold load32.
    assert (Hin' : in_segment (patch_word target st) target = true).
    { unfold in_segment, patch_word in *.
      cbn [_segment segment_bytes set_segment_bytes].
      rewrite put_word_length by exact Hoff. exact Hin. }
    rewrite Hin'. f_equal. exact Hword.
  - intros Hfit. rewrite Hword. apply uint32_small, Hfit.
  - intros i Hi. unfold patch_word. cbn [segment_bytes set_segment_bytes].
    apply put_word_elsewhere; assumption.
  - reflexivity.
  - intros n i buf He. cbn [relocate_loop]. unfold bind.
    rewrite He, Hrun. reflexivity.
Qed.

(** C2, as amended.  [relocate] computes the target address and does not
    compare it with the bounds of the segment.  For a target outside the
    segment: an entry that asks for no patch is accepted and the state is
    unchanged; an absolute fixup against a symbol of a loaded section
    reads the word at the address all the same, which is undefined
    behaviour; and an entry makes [relocate] fail only by its type, with
    the warning for an unknown relocation type. *)
Theorem target_is_not_checked (st : State F) rel e relSegment :
  in_segment st (target_of relSegment e st) = false ->
  (no_patch (_symtab st) e = true ->
   relocate_entry rel e relSegment st = Returned true st) /\
  (forall sym,
      absolute_fixup (REL_TYPE (r_info e)) = true ->
      nth_error (_symtab st) (Z.to_nat (REL_INDEX (r_info e))) = Some sym ->
      st_shndx sym < SHN_LOPROC ->
      relocate_entry rel e relSegment st
      = Undefined (OutOfSegment (target_of relSegment e st))) /\
  (forall st',
      relocate_entry rel e relSegment st = Returned false st' ->
      enumerated_type (REL_TYPE (r_info e)) = false /\
      st' = reject rel (UnknownRelocationType (REL_TYPE (r_info e))) st).
Proof.
  intros Hout. split; [| split].
  - intros Hnp.
    pose proof (relocate_entries_no_patch rel [e] relSegment st) as Hrun.
    cbn [forallb relocate_entries] in Hrun. rewrite Hnp in Hrun.
    specialize (Hrun eq_refl). unfold bind, ret in Hrun.
    destruct (relocate_entry rel e relSegment st) as [[|] st1 | f];
      congruence.
  - intros sym Habs Hsym Hint.
    rewrite relocate_entry_outcome. unfold entry_outcome.
    rewrite Habs, Hsym. apply Z.ltb_lt in Hint. rewrite Hint, Hout.
    reflexivity.
  - intros st'. rewrite relocate_entry_outcome. unfold entry_outcome, enumerated_type.
    destruct (absolute_fixup (REL_TYPE (r_info e))).
    + destruct (nth_error (_symtab st) (Z.to_nat (REL_INDEX (r_info e))))
        as [sym |]; [| discriminate].
      destruct (st_shndx sym <? SHN_LOPROC); [| discriminate].
      rewrite Hout. discriminate.
    + destruct (self_relative_or_marker (REL_TYPE (r_info e)));
        [discriminate |].
      intros Heq. injection Heq as <-. split; reflexivity.
Qed.

(** The check for the addend-carrying type, where the loop reaches it:
    a section of type SHT_RELA that passes the checks before it (among
    them entries of eight bytes, the width of the simple encoding) makes
    [relocateRels] warn that RELA is not supported and return failure;
    one that does not is passed over.  Either way its table is not
    read. *)
Lemma rela_check_where_reached (st : State F) ehdr shdr (n i : nat) s :
  (i + S n <= Z.to_nat (e_shnum ehdr) <= length shdr)%nat ->
  nth_error shdr i = Some s ->
  sh_type s = SHT_RELA ->
  (qualifies (_symtab_sect st) ehdr shdr s = true ->
   relocateRels_loop (S n) (Z.of_nat i) ehdr shdr st
   = Returned false (add_warning RelaNotSupported st) /\
   forall b st', relocateRels ehdr shdr st = Returned b st' -> b = false) /\
  (int32 (sh_link s) <> _symtab_sect st \/
   e_shnum ehdr <= sh_info s \/
   (exists t, nth_error shdr (Z.to_nat (sh_info s)) = Some t /\
              runtime_resident t = false) ->
   relocateRels_loop (S n) (Z.of_nat i) ehdr shdr st
   = relocateRels_loop n (Z.of_nat i + 1) ehdr shdr st) /\
  (relocateRels_loop (S n) (Z.of_nat i) ehdr shdr st
   = Returned false (add_warning RelaNotSupported st) \/
   relocateRels_loop (S n) (Z.of_nat i) ehdr shdr st
   = relocateRels_loop n (Z.of_nat i + 1) ehdr shdr st).
Proof.
  intros Hn Hs Hty.
  assert (Hstep : relocateRels_loop (S n) (Z.of_nat i) ehdr shdr st =
                  if qualifies (_symtab_sect st) ehdr shdr s
                  then Returned false (add_warning RelaNotSupported st)
                  else relocateRels_loop n (Z.of_nat i + 1) ehdr shdr st).
  { cbn [relocateRels_loop]. unfold bind at 1, section_at at 1.
    rewrite Nat2Z.id, Hs. unfold bind at 1.
    rewrite relocates_loaded_section_qualifies by lia.
    destruct (qualifies (_symtab_sect st) ehdr shdr s); [| reflexivity].
    rewrite Hty. reflexivity. }
  split; [| split].
  - intros Hq. rewrite Hstep, Hq. split; [reflexivity |].
    intros b st'. rewrite relocateRels_sections by lia.
    apply (process_sections_rela _ s); [| exact Hty].
    apply filter_In. split; [| exact Hq].
    rewrite <- (firstn_skipn (Z.to_nat (e_shnum ehdr)) shdr) in Hs.
    rewrite nth_error_app1 in Hs by (rewrite length_firstn; lia).
    apply nth_error_In in Hs. exact Hs.
  - intros Hskip. rewrite Hstep.
    assert (Hq : qualifies (_symtab_sect st) ehdr shdr s = false);
      [| rewrite Hq; reflexivity].
    unfold qualifies.
    destruct Hskip as [Hlink | [Hinfo | (t & Ht & Hres)]].
    + apply Z.eqb_neq in Hlink. rewrite Hlink.
      rewrite andb_false_r. reflexivity.
    + apply Z.ltb_ge in Hinfo. rewrite Hinfo.
      rewrite andb_false_r. reflexivity.
    + rewrite Ht, Hres. apply andb_false_r.
  - rewrite Hstep.
    destruct (qualifies (_symtab_sect st) ehdr shdr s);
      [left | right]; reflexivity.
Qed.

(** A section whose entries are not eight bytes wide is passed over
    before its type is looked at: so is every section of the
    addend-carrying type that declares the twelve bytes of its
    entries. *)
Lemma other_entry_size_is_passed_over (st : State F) ehdr shdr (n i : nat) s :
  (i + S n <= Z.to_nat (e_shnum ehdr) <= length shdr)%nat ->
  nth_error shdr i = Some s ->
  sh_entsize s <> sizeof_Elf32_Rel ->
  relocateRels_loop (S n) (Z.of_nat i) ehdr shdr st
  = relocateRels_loop n (Z.of_nat i + 1) ehdr shdr st.
Proof.
  intros Hn Hs Hsize.
  cbn [relocateRels_loop]. unfold bind at 1, section_at at 1.
  rewrite Nat2Z.id, Hs. unfold bind at 1.
  rewrite relocates_loaded_section_qualifies by lia.
  assert (Hq : qualifies (_symtab_sect st) ehdr shdr s = false).
  { unfold qualifies. apply Z.eqb_neq in Hsize. rewrite Hsize.
    rewrite andb_false_r. reflexivity. }
  rewrite Hq. reflexivity.
Qed.

(** C4.  A table with an entry whose type is none of R_ARM_ABS32,
    R_ARM_TARGET1, R_ARM_PC24, R_ARM_THM_CALL, R_ARM_CALL, R_ARM_JUMP24
    and R_ARM_V4BX: [relocate] never returns success; when the entries
    before the first such entry have been processed, it warns of the
    unknown type, frees the table and returns failure in the state those
    entries left, so that neither this entry nor a later one is
    processed; [relocateRels], having reached the section of this table,
    returns failure in the same state, and no Plugin is made. *)
Theorem unknown_type_fails_load (st st1 : State F) offset size relSegment
        rel buf pre e post :
  heap_ok (heap st) ->
  table_loaded offset size st rel buf st1 ->
  parse_entries buf = pre ++ e :: post ->
  enumerated_type (REL_TYPE (r_info e)) = false ->
  (forall b st', relocate offset size relSegment st = Returned b st' ->
                 b = false /\ h_live (heap st') = h_live (heap st)) /\
  (forall stk,
      relocate_entries rel pre relSegment st1 = Returned true stk ->
      let st' := reject rel (UnknownRelocationType (REL_TYPE (r_info e))) stk in
      relocate offset size relSegment st = Returned false st' /\
      segment_bytes st' = segment_bytes stk /\
      warnings st' = warnings st
                     ++ [UnknownRelocationType (REL_TYPE (r_info e))] /\
      h_live (heap st') = h_live (heap st) /\
      forall ehdr shdr st0 done s rest,
        (Z.to_nat (e_shnum ehdr) <= length shdr)%nat ->
        filter (qualifies (_symtab_sect st0) ehdr shdr)
               (firstn (Z.to_nat (e_shnum ehdr)) shdr) = done ++ s :: rest ->
        process_sections done st0 = Returned true st ->
        sh_type s = SHT_REL -> sh_offset s = offset -> sh_size s = size ->
        _segment st = relSegment ->
        relocateRels ehdr shdr st0 = Returned false st' /\
        plugin_after_relocation ehdr shdr st0 = Returned None st').
Proof.
  intros Hok Hld Hbuf Hty.
  pose proof (relocate_loaded offset size relSegment _ _ _ _ Hld) as Hrun.
  split.
  - intros b st' Hret. split.
    + rewrite Hrun in Hret.
      destruct (relocate_entries rel (parse_entries buf) relSegment st1)
        as [[|] st2 | f] eqn:Hes; try discriminate.
      * apply (relocate_entries_unknown rel _ e) in Hes;
          [discriminate | | exact Hty].
        rewrite Hbuf. apply in_or_app. right. left. reflexivity.
      * injection Hret as <- _. reflexivity.
    + apply (relocate_relocate_frame _ _ _ _ _ _ Hok) in Hret. apply Hret.
  - intros stk Hpre st'.
    assert (Hfail : relocate offset size relSegment st = Returned false st').
    { rewrite Hrun, Hbuf.
      rewrite (relocate_entries_reject rel pre e post relSegment st1 stk Hpre Hty).
      reflexivity. }
    apply relocate_entries_frame in Hpre.
    destruct Hpre as [_ _ _ _ _ _ Hheap Hwarn].
    destruct Hld as (h1 & f1 & f2 & Hm & _ & _ & _ & Hst1).
    split; [exact Hfail |]. split; [reflexivity |]. split.
    { unfold st', reject. cbn [warnings set_heap add_warning].
      rewrite Hwarn, Hst1. reflexivity. }
    split.
    { apply (relocate_relocate_frame _ _ _ _ _ _ Hok) in Hfail. apply Hfail. }
    intros ehdr shdr st0 done s rest Hnum Hfilter Hdone Hrel Hoff Hsize Hseg.
    assert (Hrels : relocateRels ehdr shdr st0 = Returned false st').
    { rewrite relocateRels_sections by exact Hnum.
      rewrite Hfilter, process_sections_app. unfold bind at 1.
      rewrite Hdone. cbn [process_sections].
      rewrite Hrel. change (SHT_REL =? SHT_RELA) with false. cbn iota.
      unfold bind, get. rewrite Hoff, Hsize, Hseg, Hfail. reflexivity. }
    split; [exact Hrels |].
    unfold plugin_after_relocation, bind, get, ret. rewrite Hrels.
    reflexivity.
Qed.

(** C5.  A table whose entries are all self-relative (R_ARM_PC24,
    R_ARM_THM_CALL, R_ARM_CALL, R_ARM_JUMP24), markers (R_ARM_V4BX) or
    absolute fixups against a symbol defined at or above SHN_LOPROC:
    [relocate] succeeds and the bytes of the segment are those it
    found; of the whole state only the file and the heap have moved. *)
Theorem no_patch_table_keeps_segment (st st1 : State F) offset size
        relSegment rel buf :
  table_loaded offset size st rel buf st1 ->
  forallb (no_patch (_symtab st)) (parse_entries buf) = true ->
  exists st',
    relocate offset size relSegment st = Returned true st' /\
    segment_bytes st' = segment_bytes st /\
    st' = set_file (_file st') (set_heap (heap st') st).
Proof.
  intros Hld Hall.
  rewrite (relocate_loaded offset size relSegment _ _ _ _ Hld).
  destruct Hld as (h1 & f1 & f2 & _ & _ & _ & _ & ->).
  rewrite relocate_entries_no_patch by exact Hall.
  eexists. split; [reflexivity |]. split; reflexivity.
Qed.

(** C6.  A table that cannot be read whole, because the seek fails or
    the read gives fewer bytes than the section declares: [relocate]
    returns failure without entering the loop; the bytes of the segment
    are unchanged, the scratch buffer is freed, and the one warning is
    that the table load failed (or, had [malloc] refused the buffer
    before, that it could not be allocated). *)
Theorem truncated_table_fails (st : State F) offset size relSegment :
  heap_ok (heap st) ->
  table_truncated offset size st ->
  exists st',
    relocate offset size relSegment st = Returned false st' /\
    segment_bytes st' = segment_bytes st /\
    h_live (heap st') = h_live (heap st) /\
    warnings st' =
    warnings st ++ [if h_policy (heap st) (h_calls (heap st)) size
                    then RelocationTableLoadFailed
                    else CouldNotAllocate size].
Proof.
  intros Hok Htr.
  destruct (heap_malloc size (heap st)) as [[rel |] h1] eqn:Hm.
  - destruct (relocate_truncated offset size relSegment st rel h1 Hm Htr)
      as [f Hrun].
    eexists. split; [exact Hrun |]. split; [reflexivity |]. split.
    + apply (relocate_relocate_frame _ _ _ _ _ _ Hok) in Hrun. apply Hrun.
    + unfold heap_malloc in Hm.
      destruct (h_policy (heap st) (h_calls (heap st)) size);
        [reflexivity | discriminate].
  - pose proof (relocate_refused offset size relSegment st h1 Hm) as Hrun.
    eexists. split; [exact Hrun |]. split; [reflexivity |]. split.
    + apply (relocate_relocate_frame _ _ _ _ _ _ Hok) in Hrun. apply Hrun.
    + unfold heap_malloc in Hm.
      destruct (h_policy (heap st) (h_calls (heap st)) size);
        [discriminate | reflexivity].
Qed.

(** C7.  [relocateRels] processes the sections that qualify, in the
    order of the section headers, and passes over the others: a section
    qualifies when its type is a relocation type, its entry size is that
    of [Elf32_Rel], its link is the chosen symbol-table section, its info
    is below the number of sections and the section info names has the
    SHF_ALLOC flag.  A run that succeeds has called [relocate] once for
    each qualifying section and for no other. *)
Theorem relocateRels_processes_qualifying (st : State F) ehdr shdr :
  (Z.to_nat (e_shnum ehdr) <= length shdr)%nat ->
  let todo := filter (qualifies (_symtab_sect st) ehdr shdr)
                     (firstn (Z.to_nat (e_shnum ehdr)) shdr) in
  relocateRels ehdr shdr st = process_sections todo st /\
  forall st', relocateRels ehdr shdr st = Returned true st' ->
              h_calls (heap st') = (h_calls (heap st) + length todo)%nat.
Proof.
  intros Hn todo. split.
  - apply relocateRels_sections, Hn.
  - intros st'. rewrite relocateRels_sections by exact Hn.
    intros Hrun. apply process_sections_calls in Hrun. apply Hrun.
Qed.

(** C8.  Every call of [relocate] that returns, and every run of
    [relocateRels] that returns, leaves the blocks live that were live
    before, and at no time had more than one scratch buffer live beside
    them: the table of a section is freed before [relocate] returns and
    so before the next section is looked at. *)
Theorem scratch_buffer_is_balanced (st : State F) :
  heap_ok (heap st) ->
  (forall offset size relSegment b st',
      relocate offset size relSegment st = Returned b st' ->
      heap_balanced (heap st) (heap st')) /\
  (forall ehdr shdr b st',
      relocateRels ehdr shdr st = Returned b st' ->
      heap_balanced (heap st) (heap st')) /\
  (h_live (heap st) = [] -> h_peak (heap st) = 0%nat ->
   forall ehdr shdr b st',
     relocateRels ehdr shdr st = Returned b st' ->
     h_live (heap st') = [] /\ (h_peak (heap st') <= 1)%nat).
Proof.
  intros Hok. split; [| split].
  - intros offset size relSegment b st' Hrun.
    apply relocate_frame_balanced.
    apply (relocate_relocate_frame _ _ _ _ _ _ Hok Hrun).
  - intros ehdr shdr b st' Hrun.
    apply (relocateRels_loop_balanced _ _ _ _ _ _ _ Hok Hrun).
  - intros Hlive Hpeak ehdr shdr b st' Hrun.
    apply (relocateRels_loop_balanced _ _ _ _ _ _ _ Hok) in Hrun.
    destruct Hrun as (Hl & Hp & _). rewrite Hlive, Hpeak in *.
    split; [exact Hl | exact Hp].
Qed.

(** C10.  A table of [size] bytes that is read whole is processed as
    its [size / sizeof(Elf32_Rel)] whole entries, in order: the bytes
    after the last whole entry have no part in the result, and a table
    shorter than one entry makes [relocate] succeed with no entry
    processed. *)
Theorem relocate_whole_entries (st st1 : State F) offset size relSegment
        rel buf :
  table_loaded offset size st rel buf st1 ->
  length (parse_entries buf) = Z.to_nat (size / sizeof_Elf32_Rel) /\
  relocate offset size relSegment st =
  match relocate_entries rel (parse_entries buf) relSegment st1 with
  | Returned true st2 => Returned true (set_heap (heap_free rel (heap st2)) st2)
  | Returned false st2 => Returned false st2
  | Undefined f => Undefined f
  end /\
  (forall buf' (st0 : State F),
      length buf' = length buf ->
      firstn (8 * (length buf / 8)) buf' = firstn (8 * (length buf / 8)) buf ->
      relocate_loop (Z.to_nat (size / sizeof_Elf32_Rel)) 0 rel buf'
                    relSegment st0
      = relocate_loop (Z.to_nat (size / sizeof_Elf32_Rel)) 0 rel buf
                      relSegment st0) /\
  (size < sizeof_Elf32_Rel ->
   relocate offset size relSegment st
   = Returned true (set_heap (heap_free rel (heap st1)) st1)).
Proof.
  intros Hld.
  pose proof (relocate_loaded offset size relSegment _ _ _ _ Hld) as Hrun.
  assert (Hlen : Z.of_nat (length buf) = size)
    by (destruct Hld as (? & ? & ? & _ & _ & _ & Hlen & _); exact Hlen).
  split; [| split; [| split]].
  - rewrite <- Hlen. apply parse_entries_count.
  - exact Hrun.
  - intros buf' st0 Hl Hfirst. rewrite <- Hlen.
    rewrite relocate_loop_all. rewrite <- Hl at 1.
    rewrite relocate_loop_all.
    rewrite <- (parse_entries_whole buf'), <- (parse_entries_whole buf).
    rewrite Hl, Hfirst. reflexivity.
  - intros Hsmall. rewrite Hrun.
    assert (Hnone : parse_entries buf = []).
    { apply length_zero_iff_nil. rewrite parse_entries_count, Hlen.
      unfold sizeof_Elf32_Rel in *.
      assert (size / 8 <= 0) by (apply Z.lt_succ_r, Z.div_lt_upper_bound; lia).
      lia. }
    rewrite Hnone. reflexivity.
Qed.

End RelocationEngine.

(** ** The memory stream *)

(** For a stream over a byte array, a table whose declared size exceeds
    the bytes that are left at its offset cannot be read whole. *)
Lemma memory_stream_truncated (offset size : Z) (st : State MemoryStream) :
  0 <= offset -> 0 <= size ->
  Z.of_nat (length (ms_data (_file st))) < offset + size ->
  table_truncated offset size st.
Proof.
  intros Hoff Hsize Hlen. unfold table_truncated. cbn [seek read MemoryStream_stream].
  unfold ms_seek.
  destruct ((0 <=? offset) && (offset <=? Z.of_nat (length (ms_data (_file st)))))
    eqn:Hin; cbn [fst snd]; [right | left; reflexivity].
  apply andb_true_iff in Hin. destruct Hin as [_ Hin]. apply Z.leb_le in Hin.
  unfold ms_read. cbn [fst ms_data ms_pos].
  rewrite length_firstn, length_skipn. lia.
Qed.

Lemma sample_heap_ok (table : list byte) : heap_ok (heap (sample_state table)).
Proof. constructor. Qed.

(** ** The properties at the sample object *)

(** C2 does not hold as stated: an entry whose target lies outside the
    segment does not make [relocate] fail.  With a self-relative type the
    table is accepted without a warning; with an absolute fixup the word
    at the address is read. *)
Lemma target_check_counterexample :
  in_segment (sample_state table_outside_branch)
             (target_of 196608 (rel_entry 36864 1 R_ARM_PC24)
                        (sample_state table_outside_branch)) = false /\
  (exists st',
      relocate 0 8 196608 (sample_state table_outside_branch)
      = Returned true st' /\ warnings st' = []) /\
  relocate 0 8 196608 (sample_state table_outside_fixup)
  = Undefined (OutOfSegment 200704).
Proof.
  split; [reflexivity |]. split; [| reflexivity].
  eexists. split; [vm_compute; reflexivity | reflexivity].
Qed.

Lemma target_is_not_checked_witness :
  relocate_entry 0 (rel_entry 36864 1 R_ARM_PC24) 196608
                 (sample_state table_outside_branch)
  = Returned true (sample_state table_outside_branch).
Proof.
  destruct (target_is_not_checked
              (sample_state table_outside_branch) 0%nat
              (rel_entry 36864 1 R_ARM_PC24) 196608 eq_refl)
    as [Haccept _].
  apply Haccept. reflexivity.
Defined.

(** C3.  The sample object with a section of the addend-carrying type
    for its loaded code, as a linker writes it: twelve bytes an entry,
    linked to the symbol table, relocating a section that is
    runtime-resident.  [relocateRels] does not refuse it: the check of
    the entry size, which asks for the eight bytes of the simple encoding
    before the type is looked at, passes the section over, and the run
    returns success in the state it started from, with no warning and
    the segment not relocated.  The refusal is there, and is reached by
    the same section declaring entries of eight bytes.  The table is read
    in neither case. *)
Theorem rela_section_with_addends_is_passed_over :
  nth_error (sample_sections rela_text_addends) 4 = Some rela_text_addends /\
  sh_type rela_text_addends = SHT_RELA /\
  sh_entsize rela_text_addends = 12 /\
  sh_size rela_text_addends = Z.of_nat (length table_rela) /\
  int32 (sh_link rela_text_addends) = _symtab_sect (sample_state table_rela) /\
  (exists relocated,
      nth_error (sample_sections rela_text_addends)
                (Z.to_nat (sh_info rela_text_addends)) = Some relocated /\
      runtime_resident relocated = true) /\
  relocateRels sample_ehdr (sample_sections rela_text_addends)
               (sample_state table_rela)
  = Returned true (sample_state table_rela) /\
  relocateRels sample_ehdr (sample_sections rela_text)
               (sample_state table_rela)
  = Returned false (add_warning RelaNotSupported (sample_state table_rela)).
Proof.
  repeat split; try reflexivity.
  eexists. split; reflexivity.
Qed.

Lemma unknown_type_fails_load_witness :
  relocate 0 16 196608 (sample_state table_unknown)
  = Returned false
      (reject 0 (UnknownRelocationType 77)
              (patch_word 196624 (after_load 0 16 (sample_state table_unknown)))).
Proof.
  destruct (unknown_type_fails_load
              (sample_state table_unknown)
              (after_load 0 16 (sample_state table_unknown))
              0 16 196608 0%nat (table_bytes 0 16 (sample_state table_unknown))
              [rel_entry 32784 1 R_ARM_ABS32] (rel_entry 32772 1 77) [])
    as [_ Hfirst].
  - apply sample_heap_ok.
  - apply table_loaded_after_load; reflexivity.
  - vm_compute. reflexivity.
  - reflexivity.
  - destruct (Hfirst (patch_word 196624
                        (after_load 0 16 (sample_state table_unknown))))
      as [Hrun _]; [vm_compute; reflexivity |].
    exact Hrun.
Defined.

Lemma no_patch_table_keeps_segment_witness :
  exists st',
    relocate 0 24 196608 (sample_state table_no_patch) = Returned true st' /\
    segment_bytes st' = sample_segment.
Proof.
  destruct (no_patch_table_keeps_segment
              (sample_state table_no_patch)
              (after_load 0 24 (sample_state table_no_patch))
              0 24 196608 0%nat
              (table_bytes 0 24 (sample_state table_no_patch)))
    as (st' & Hrun & Hbytes & _).
  - apply table_loaded_after_load; reflexivity.
  - vm_compute. reflexivity.
  - exists st'. split; [exact Hrun | exact Hbytes].
Defined.

Lemma truncated_table_fails_witness :
  exists st',
    relocate 0 32 196608 (sample_state table_scenario) = Returned false st' /\
    segment_bytes st' = sample_segment /\
    warnings st' = [RelocationTableLoadFailed].
Proof.
  destruct (truncated_table_fails (sample_state table_scenario) 0 32 196608)
    as (st' & Hrun & Hbytes & _ & Hwarn).
  - apply sample_heap_ok.
  - apply memory_stream_truncated; vm_compute; congruence.
  - exists st'. split; [exact Hrun |]. split; [exact Hbytes | exact Hwarn].
Defined.

Lemma relocateRels_processes_qualifying_witness :
  relocateRels sample_ehdr (sample_sections (rel_text 24))
               (sample_state table_scenario)
  = process_sections [rel_text 24] (sample_state table_scenario).
Proof.
  destruct (relocateRels_processes_qualifying
              (sample_state table_scenario) sample_ehdr
              (sample_sections (rel_text 24)))
    as [Hrun _]; [vm_compute; lia |].
  exact Hrun.
Defined.

Lemma scratch_buffer_is_balanced_witness :
  exists st',
    relocateRels sample_ehdr (sample_sections (rel_text 16))
                 (sample_state table_unknown) = Returned false st' /\
    h_live (heap st') = [] /\ (h_peak (heap st') <= 1)%nat.
Proof.
  destruct (scratch_buffer_is_balanced (sample_state table_unknown)
                                       (sample_heap_ok table_unknown))
    as (_ & _ & Hone).
  eexists. split; [vm_compute; reflexivity |].
  eapply (Hone eq_refl eq_refl sample_ehdr (sample_sections (rel_text 16))).
  vm_compute. reflexivity.
Defined.

(** C9.  The loop of [relocate] takes the entries in order, a run over
    [n + m] entries being a run over the first [n] followed, if it went
    through, by a run over the next [m]; and a failure does not undo the
    patches made before it: for the table of an absolute fixup against a
    symbol of the loaded section followed by an entry of unknown type,
    [relocate] returns failure and the word at offset 0x10 of the segment
    holds the relocated address 0x30000, not the 0x8000 it held before. *)
Theorem patches_are_not_undone :
  (forall F (HF : SeekableReadStream F) (n m : nat) i rel buf relSegment
          (st : State F),
      relocate_loop (n + m) i rel buf relSegment st =
      (go <- relocate_loop n i rel buf relSegment ;;
       if go then relocate_loop m (i + Z.of_nat n) rel buf relSegment
       else ret false) st) /\
  parse_entries table_unknown
  = [ rel_entry 32784 1 R_ARM_ABS32; rel_entry 32772 1 77 ] /\
  exists st',
    relocate 0 16 196608 (sample_state table_unknown) = Returned false st' /\
    word_at (segment_bytes (sample_state table_unknown)) 16 = 32768 /\
    word_at (segment_bytes st') 16 = 196608 /\
    segment_bytes st' <> segment_bytes (sample_state table_unknown).
Proof.
  split; [| split].
  - intros F HF n m i rel buf relSegment st. apply relocate_loop_split.
  - vm_compute. reflexivity.
  - eexists. split; [vm_compute; reflexivity |].
    split; [reflexivity |]. split; [reflexivity |].
    vm_compute. discriminate.
Qed.

Lemma relocate_whole_entries_witness :
  length (parse_entries (table_bytes 0 20 (sample_state table_scenario)))
  = 2%nat /\
  relocate 0 4 196608 (sample_state table_scenario)
  = Returned true
      (set_heap (heap_free 0 (heap (after_load 0 4 (sample_state table_scenario))))
                (after_load 0 4 (sample_state table_scenario))).
Proof.
  split.
  - destruct (relocate_whole_entries
                (sample_state table_scenario)
                (after_load 0 20 (sample_state table_scenario))
                0 20 196608 0%nat
                (table_bytes 0 20 (sample_state table_scenario)))
      as [Hcount _]; [apply table_loaded_after_load; reflexivity |].
    exact Hcount.
  - destruct (relocate_whole_entries
                (sample_state table_scenario)
                (after_load 0 4 (sample_state table_scenario))
                0 4 196608 0%nat
                (table_bytes 0 4 (sample_state table_scenario)))
      as (_ & _ & _ & Hsmall); [apply table_loaded_after_load; reflexivity |].
    apply Hsmall. reflexivity.
Defined.

(** The scenario of the spec: one loaded section linked at 0x8000 and
    loaded at 0x30000, one absolute fixup at 0x8010 whose word holds
    0x8000, and two self-relative entries.  The load succeeds, the word at
    offset 0x10 becomes 0x30000 and every other byte is unchanged. *)
Example end_to_end_scenario :
  exists st',
    relocateRels sample_ehdr (sample_sections (rel_text 24))
                 (sample_state table_scenario) = Returned true st' /\
    word_at (segment_bytes st') 16 = 196608 /\
    segment_bytes st' = put_word sample_segment 16 196608 /\
    h_live (heap st') = [] /\ warnings st' = [].
Proof.
  eexists. split; [vm_compute; reflexivity |].
  repeat split; reflexivity.
Qed.

(** * Further properties of the relocation engine *)

(** ** Words and bytes, continued *)

Lemma word_at_bounds (bs : list byte) (off : nat) :
  0 <= word_at bs off < 2 ^ 32.
Proof.
  unfold word_at.
  pose proof (le_combine_bound (firstn 4 (skipn off bs))) as Hb.
  pose proof (firstn_le_length 4 (skipn off bs)) as Hl.
  assert (2 ^ (8 * Z.of_nat (length (firstn 4 (skipn off bs)))) <= 2 ^ 32)
    by (apply Z.pow_le_mono_r; lia).
  lia.
Qed.

(** Writing back the word that is there changes nothing. *)
Lemma put_word_same (bs : list byte) (off : nat) :
  (off + 4 <= length bs)%nat -> put_word bs off (word_at bs off) = bs.
Proof.
  intros Hin. unfold put_word, word_at.
  rewrite (split_le_combine' (firstn 4 (skipn off bs)) 4)
    by (rewrite length_firstn, length_skipn; lia).
  rewrite Nat.add_comm, <- skipn_skipn.
  rewrite (firstn_skipn 4 (skipn off bs)). apply firstn_skipn.
Qed.

Lemma nth_error_put_word (bs : list byte) (off : nat) (v : Z) (i : nat) :
  (off + 4 <= length bs)%nat ->
  nth_error (put_word bs off v) i =
  if ((off <=? i) && (i <? off + 4))%nat
  then nth_error (le_split 4 v) (i - off)
  else nth_error bs i.
Proof.
  intros Hin.
  destruct ((off <=? i) && (i <? off + 4))%nat eqn:Hi.
  - apply andb_true_iff in Hi. destruct Hi as [Hlo Hhi].
    apply Nat.leb_le in Hlo. apply Nat.ltb_lt in Hhi.
    unfold put_word.
    rewrite nth_error_app2 by (rewrite length_firstn; lia).
    rewrite nth_error_app1 by (rewrite length_firstn, length_le_split; lia).
    rewrite length_firstn. f_equal. lia.
  - apply put_word_elsewhere; [exact Hin |].
    apply andb_false_iff in Hi. destruct Hi as [Hlo | Hhi].
    + apply Nat.leb_gt in Hlo. lia.
    + apply Nat.ltb_ge in Hhi. lia.
Qed.

(** A write of one word leaves the words that do not overlap it. *)
Lemma word_at_put_word_apart (bs : list byte) (off off' : nat) (v : Z) :
  (off + 4 <= length bs)%nat -> (off' + 4 <= off \/ off + 4 <= off')%nat ->
  word_at (put_word bs off v) off' = word_at bs off'.
Proof.
  intros Hin Hapart. unfold word_at. f_equal.
  apply nth_error_ext. intros i.
  rewrite !nth_error_firstn. destruct (i <? 4)%nat eqn:Hi; [| reflexivity].
  apply Nat.ltb_lt in Hi. rewrite !nth_error_skipn.
  apply put_word_elsewhere; [exact Hin | lia].
Qed.

(** Writes of two words that do not overlap can be done in either order. *)
Lemma put_word_swap (bs : list byte) (off off' : nat) (v v' : Z) :
  (off + 4 <= length bs)%nat -> (off' + 4 <= length bs)%nat ->
  (off' + 4 <= off \/ off + 4 <= off')%nat ->
  put_word (put_word bs off v) off' v' = put_word (put_word bs off' v') off v.
Proof.
  intros Hin Hin' Hapart. apply nth_error_ext. intros i.
  rewrite !nth_error_put_word by (rewrite ?put_word_length; assumption).
  destruct ((off' <=? i) && (i <? off' + 4))%nat eqn:Hi';
    destruct ((off <=? i) && (i <? off + 4))%nat eqn:Hi; try reflexivity.
  apply andb_true_iff in Hi, Hi'.
  rewrite Nat.leb_le, Nat.ltb_lt in Hi, Hi'. lia.
Qed.

Lemma put_word_twice (bs : list byte) (off : nat) (v v' : Z) :
  (off + 4 <= length bs)%nat ->
  put_word (put_word bs off v) off v' = put_word bs off v'.
Proof.
  intros Hin. apply nth_error_ext. intros i.
  rewrite !nth_error_put_word by (rewrite ?put_word_length; assumption).
  destruct ((off <=? i) && (i <? off + 4))%nat; reflexivity.
Qed.

Section RelocationPaths.
Context {F : Type} `{SeekableReadStream F}.

Lemma set_segment_bytes_same (st : State F) :
  set_segment_bytes (segment_bytes st) st = st.
Proof. destruct st. reflexivity. Qed.

Lemma table_loaded_inv offset size (st st1 : State F) rel buf :
  table_loaded offset size st rel buf st1 ->
  buf = table_bytes offset size st /\ st1 = after_load offset size st /\
  h_policy (heap st) (h_calls (heap st)) size = true.
Proof.
  intros (h1 & f1 & f2 & Hm & Hs & Hr & _ & ->).
  unfold table_bytes, after_load. rewrite Hm, Hs. cbn [fst snd].
  rewrite Hr. cbn [fst snd]. repeat split.
  unfold heap_malloc in Hm.
  destruct (h_policy (heap st) (h_calls (heap st)) size);
    [reflexivity | discriminate].
Qed.

(** The three things one entry can do when the loop body returns. *)
Lemma relocate_entry_cases (st st' : State F) rel e relSegment b :
  relocate_entry rel e relSegment st = Returned b st' ->
  (b = true /\ st' = st) \/
  (b = true /\ absolute_fixup (REL_TYPE (r_info e)) = true /\
   in_segment st (target_of relSegment e st) = true /\
   st' = patch_word (target_of relSegment e st) st) \/
  (b = false /\ enumerated_type (REL_TYPE (r_info e)) = false /\
   st' = reject rel (UnknownRelocationType (REL_TYPE (r_info e))) st).
Proof.
  rewrite relocate_entry_outcome. unfold entry_outcome, enumerated_type.
  destruct (absolute_fixup (REL_TYPE (r_info e))).
  - destruct (nth_error (_symtab st) (Z.to_nat (REL_INDEX (r_info e))))
      as [sym |]; [| discriminate].
    destruct (st_shndx sym <? SHN_LOPROC).
    + destruct (in_segment st (target_of relSegment e st)); [| discriminate].
      intros Heq. injection Heq as <- <-. right. left. repeat split.
    + intros Heq. injection Heq as <- <-. left. split; reflexivity.
  - destruct (self_relative_or_marker (REL_TYPE (r_info e))).
    + intros Heq. injection Heq as <- <-. left. split; reflexivity.
    + intros Heq. injection Heq as <- <-. right. right. repeat split.
Qed.

Lemma patch_word_fields (st : State F) target :
  _symtab (patch_word target st) = _symtab st /\
  _segment (patch_word target st) = _segment st /\
  _segmentVMA (patch_word target st) = _segmentVMA st /\
  heap (patch_word target st) = heap st /\
  warnings (patch_word target st) = warnings st.
Proof. repeat split. Qed.

(** A run over the entries that goes through has met enumerated types
    only. *)
Lemma relocate_entries_true rel es relSegment :
  forall (st st' : State F),
    relocate_entries rel es relSegment st = Returned true st' ->
    forallb (fun e => enumerated_type (REL_TYPE (r_info e))) es = true.
Proof.
  induction es as [| e es IH]; intros st st'; [reflexivity |].
  cbn [relocate_entries forallb]. unfold bind.
  destruct (relocate_entry rel e relSegment st) as [[|] st1 | f] eqn:He;
    try discriminate.
  intros Hrest. rewrite (IH _ _ Hrest), andb_true_r.
  destruct (enumerated_type (REL_TYPE (r_info e))) eqn:Hty; [reflexivity |].
  symmetry.
  apply (relocate_entries_unknown rel [e] e relSegment (or_introl eq_refl) Hty
           st st1 true).
  cbn [relocate_entries]. unfold bind. rewrite He. reflexivity.
Qed.

(** A run over the entries that stops was stopped by the first entry of
    a type outside the enumerated ones. *)
Lemma relocate_entries_false rel es relSegment :
  forall (st st' : State F),
    relocate_entries rel es relSegment st = Returned false st' ->
    exists pre e post stk,
      es = pre ++ e :: post /\
      relocate_entries rel pre relSegment st = Returned true stk /\
      enumerated_type (REL_TYPE (r_info e)) = false /\
      st' = reject rel (UnknownRelocationType (REL_TYPE (r_info e))) stk.
Proof.
  induction es as [| e es IH]; intros st st'; [discriminate |].
  cbn [relocate_entries]. unfold bind.
  destruct (relocate_entry rel e relSegment st) as [[|] st1 | f] eqn:He;
    [| | discriminate].
  - intros Hrest. apply IH in Hrest.
    destruct Hrest as (pre & e' & post & stk & -> & Hpre & Hty & ->).
    exists (e :: pre), e', post, stk. repeat split; [| exact Hty].
    cbn [relocate_entries]. unfold bind. rewrite He. exact Hpre.
  - intros Heq. injection Heq as <-.
    apply relocate_entry_cases in He.
    destruct He as [[Hb _] | [(Hb & _) | (_ & Hty & ->)]]; try discriminate.
    exists [], e, es, st. repeat split. exact Hty.
Qed.

(** The three ways [relocate] returns. *)
Lemma relocate_paths offset size relSegment (st st' : State F) b :
  relocate offset size relSegment st = Returned b st' ->
  (exists h1, heap_malloc size (heap st) = (None, h1) /\ b = false /\
              st' = add_warning (CouldNotAllocate size) (set_heap h1 st)) \/
  (exists rel h1 f, heap_malloc size (heap st) = (Some rel, h1) /\
                    table_truncated offset size st /\ b = false /\
                    st' = reject rel RelocationTableLoadFailed
                                 (set_file f (set_heap h1 st))) \/
  (exists rel buf st1 st2,
      table_loaded offset size st rel buf st1 /\
      relocate_entries rel (parse_entries buf) relSegment st1 = Returned b st2 /\
      st' = if b then set_heap (heap_free rel (heap st2)) st2 else st2).
Proof.
  destruct (heap_malloc size (heap st)) as [[rel |] h1] eqn:Hm.
  - destruct (loaded_or_truncated offset size st rel h1 Hm)
      as [(buf & st1 & Hld) | Htr].
    + rewrite (relocate_loaded _ _ _ _ _ _ _ Hld).
      destruct (relocate_entries rel (parse_entries buf) relSegment st1)
        as [[|] st2 | f] eqn:Hes; [| | discriminate];
        intros Heq; injection Heq as <- <-;
        right; right; exists rel, buf, st1, st2; repeat split; assumption.
    + destruct (relocate_truncated offset size relSegment st rel h1 Hm Htr)
        as [f ->].
      intros Heq. injection Heq as <- <-.
      right. left. exists rel, h1, f. repeat split. exact Htr.
  - rewrite (relocate_refused _ _ _ _ _ Hm).
    intros Heq. injection Heq as <- <-.
    left. exists h1. repeat split.
Qed.

End RelocationPaths.

Section FurtherProperties.
Context {F : Type} `{SeekableReadStream F}.

Lemma relocate_entries_bytes rel es relSegment (i : nat) :
  forall (st st' : State F) b,
    relocate_entries rel es relSegment st = Returned b st' ->
    (forall e, In e es -> absolute_fixup (REL_TYPE (r_info e)) = true ->
       (i < Z.to_nat (target_of relSegment e st - _segment st) \/
        Z.to_nat (target_of relSegment e st - _segment st) + 4 <= i)%nat) ->
    nth_error (segment_bytes st') i = nth_error (segment_bytes st) i.
Proof.
  induction es as [| e es IH]; intros st st' b.
  - intros Heq _. injection Heq as _ <-. reflexivity.
  - cbn [relocate_entries]. unfold bind.
    destruct (relocate_entry rel e relSegment st) as [go st1 | f] eqn:He;
      [| discriminate].
    intros Hrest Hapart. apply relocate_entry_cases in He.
    destruct He as [(-> & ->) | [(-> & Habs & Hin & ->) | (-> & _ & ->)]].
    + apply (IH _ _ _ Hrest). intros e' He'. apply Hapart. right. exact He'.
    + rewrite (IH _ _ _ Hrest).
      * unfold patch_word. cbn [segment_bytes set_segment_bytes].
        apply put_word_elsewhere; [apply in_segment_offset, Hin |].
        apply Hapart; [left; reflexivity | exact Habs].
      * intros e' He'. apply Hapart. right. exact He'.
    + injection Hrest as _ <-. reflexivity.
Qed.

(** A word is made of its four bytes. *)
Lemma word_at_same_bytes (bs bs' : list byte) (off : nat) :
  (forall i, (off <= i < off + 4)%nat -> nth_error bs' i = nth_error bs i) ->
  word_at bs' off = word_at bs off.
Proof.
  intros Hsame. unfold word_at. f_equal. apply nth_error_ext. intros i.
  rewrite !nth_error_firstn. destruct (i <? 4)%nat eqn:Hi; [| reflexivity].
  apply Nat.ltb_lt in Hi. rewrite !nth_error_skipn. apply Hsame. lia.
Qed.

(** C1.  [relocate], having read its table whole, reaches an entry of
    type R_ARM_ABS32 or R_ARM_TARGET1 whose symbol is defined in a
    section below SHN_LOPROC and whose target word lies in the segment:
    it writes at the target the 32-bit value of V - O + B, for V the word
    that is there when the entry is reached, O the segment's link-time
    address and B its runtime address, and goes on with the entries after
    it from the state with that word written; the other bytes are as they
    were.  The value is V - O + B itself when that fits 32 bits.  V is
    the word of the segment as it was given to [relocate] when no earlier
    fixup of the table overlaps the target, and when no later one does
    either, the word at the target is still that value when [relocate]
    returns, with success or not.  With the entry last in the table
    [relocate] returns success in the state with the word written and
    the table freed. *)
Theorem relocate_shifts_absolute_fixup_word
        (st st1 stk : State F) offset size relSegment rel buf pre e post sym :
  table_loaded offset size st rel buf st1 ->
  parse_entries buf = pre ++ e :: post ->
  relocate_entries rel pre relSegment st1 = Returned true stk ->
  absolute_fixup (REL_TYPE (r_info e)) = true ->
  nth_error (_symtab st) (Z.to_nat (REL_INDEX (r_info e))) = Some sym ->
  st_shndx sym < SHN_LOPROC ->
  in_segment st (target_of relSegment e st) = true ->
  let target := target_of relSegment e st in
  let off := Z.to_nat (target - _segment st) in
  let O := _segmentVMA st in
  let B := _segment st in
  let V := word_at (segment_bytes stk) off in
  let written :=
    set_segment_bytes
      (put_word (segment_bytes stk) off (uint32 (V - O + B))) stk in
  let apart := fun e' : Elf32_Rel =>
    let off' := Z.to_nat (target_of relSegment e' st - _segment st) in
    (off' + 4 <= off \/ off + 4 <= off')%nat in
  relocate offset size relSegment st
  = match relocate_entries rel post relSegment written with
    | Returned true st2 =>
        Returned true (set_heap (heap_free rel (heap st2)) st2)
    | Returned false st2 => Returned false st2
    | Undefined f => Undefined f
    end /\
  word_at (segment_bytes written) off = uint32 (V - O + B) /\
  (0 <= V - O + B < 2 ^ 32 ->
   word_at (segment_bytes written) off = V - O + B) /\
  (forall i, (i < off \/ off + 4 <= i)%nat ->
             nth_error (segment_bytes written) i
             = nth_error (segment_bytes stk) i) /\
  ((forall e', In e' pre ->
               absolute_fixup (REL_TYPE (r_info e')) = true -> apart e') ->
   V = word_at (segment_bytes st) off) /\
  (forall b st',
      relocate offset size relSegment st = Returned b st' ->
      (forall e', In e' post ->
                  absolute_fixup (REL_TYPE (r_info e')) = true -> apart e') ->
      word_at (segment_bytes st') off = uint32 (V - O + B)) /\
  (post = [] ->
   relocate offset size relSegment st
   = Returned true (set_heap (heap_free rel (heap written)) written)).
Proof.
  intros Hld Hparse Hpre Habs Hsym Hint Hin target off O B V written apart.
  pose proof (relocate_loaded offset size relSegment st st1 rel buf Hld)
    as Hrun.
  destruct Hld as (h1 & f1 & f2 & _ & _ & _ & _ & ->).
  pose proof (relocate_entries_frame _ _ _ _ _ _ Hpre) as Hframe.
  assert (Hsymtab : _symtab stk = _symtab st) by apply Hframe.
  assert (Hseg : _segment stk = _segment st) by apply Hframe.
  assert (Hvma : _segmentVMA stk = _segmentVMA st) by apply Hframe.
  assert (Hlen : length (segment_bytes stk) = length (segment_bytes st))
    by apply Hframe.
  pose proof (in_segment_offset _ _ Hin) as Hoff. fold target off in Hoff.
  rewrite <- Hlen in Hoff.
  assert (Hin_k : in_segment stk target = true).
  { unfold in_segment in *. rewrite Hseg, Hlen. exact Hin. }
  assert (Hentry : relocate_entry rel e relSegment stk
                   = Returned true written).
  { assert (Htarget : target_of relSegment e stk = target)
      by (unfold target, target_of; rewrite Hvma; reflexivity).
    rewrite relocate_entry_outcome. unfold entry_outcome. cbv zeta.
    rewrite Htarget, Habs, Hsymtab, Hsym.
    apply Z.ltb_lt in Hint. rewrite Hint, Hin_k. f_equal.
    unfold patch_word, written, V, O, B, off. cbv zeta.
    rewrite Hseg, Hvma. reflexivity. }
  assert (Hword : word_at (segment_bytes written) off = uint32 (V - O + B)).
  { unfold written. cbn [segment_bytes set_segment_bytes].
    rewrite word_at_put_word by exact Hoff.
    unfold uint32. rewrite Z.mod_mod by discriminate. reflexivity. }
  assert (Hrest : relocate offset size relSegment st
                  = match relocate_entries rel post relSegment written with
                    | Returned true st2 =>
                        Returned true (set_heap (heap_free rel (heap st2)) st2)
                    | Returned false st2 => Returned false st2
                    | Undefined f => Undefined f
                    end).
  { rewrite Hrun, Hparse, relocate_entries_app. unfold bind at 1.
    rewrite Hpre. cbn [relocate_entries]. unfold bind at 1.
    rewrite Hentry. reflexivity. }
  split; [exact Hrest |]. split; [exact Hword |].
  split; [intros Hfit; rewrite Hword; apply uint32_small, Hfit |].
  split; [| split; [| split]].
  - intros i Hi. unfold written. cbn [segment_bytes set_segment_bytes].
    apply put_word_elsewhere; assumption.
  - intros Hapart. unfold V. apply word_at_same_bytes. intros i Hi.
    apply (relocate_entries_bytes _ _ _ i) in Hpre; [exact Hpre |].
    intros e' He' Habs'. specialize (Hapart e' He' Habs').
    unfold apart in Hapart. cbv zeta in Hapart.
    unfold target_of in *. cbn [_segment _segmentVMA set_file set_heap].
    lia.
  - intros b st' Hret Hapart. rewrite Hrest in Hret.
    destruct (relocate_entries rel post relSegment written)
      as [[|] st2 | f] eqn:Hpost; [| | discriminate];
      injection Hret as <- <-; cbn [segment_bytes set_heap];
      rewrite <- Hword; apply word_at_same_bytes; intros i Hi;
      apply (relocate_entries_bytes _ _ _ i) in Hpost; try exact Hpost;
      intros e' He' Habs'; specialize (Hapart e' He' Habs');
      unfold apart in Hapart; cbv zeta in Hapart;
      unfold target_of in *; unfold written;
      cbn [_segment _segmentVMA set_segment_bytes];
      rewrite Hseg, Hvma; lia.
  - intros ->. rewrite Hrest. reflexivity.
Qed.

Lemma patch_word_at_link_address (st : State F) target :
  _segment st = _segmentVMA st -> in_segment st target = true ->
  patch_word target st = st.
Proof.
  intros Hseg Hin. unfold patch_word. cbv zeta. rewrite Hseg.
  set (off := Z.to_nat (target - _segmentVMA st)).
  replace (word_at (segment_bytes st) off - _segmentVMA st + _segmentVMA st)
    with (word_at (segment_bytes st) off) by lia.
  rewrite uint32_small by apply word_at_bounds.
  rewrite put_word_same; [apply set_segment_bytes_same |].
  subst off. rewrite <- Hseg. apply in_segment_offset, Hin.
Qed.

Lemma relocate_entries_at_link_address rel es relSegment :
  forall (st st' : State F) b,
    _segment st = _segmentVMA st ->
    relocate_entries rel es relSegment st = Returned b st' ->
    segment_bytes st' = segment_bytes st.
Proof.
  induction es as [| e es IH]; intros st st' b Hseg.
  - intros Heq. injection Heq as _ <-. reflexivity.
  - cbn [relocate_entries]. unfold bind.
    destruct (relocate_entry rel e relSegment st) as [go st1 | f] eqn:He;
      [| discriminate].
    intros Hrest. apply relocate_entry_cases in He.
    destruct He as [(-> & ->) | [(-> & _ & Hin & ->) | (-> & _ & ->)]].
    + apply (IH _ _ _ Hseg Hrest).
    + rewrite (patch_word_at_link_address _ _ Hseg Hin) in Hrest.
      apply (IH _ _ _ Hseg Hrest).
    + injection Hrest as _ <-. reflexivity.
Qed.

Lemma relocate_at_link_address offset size relSegment (st st' : State F) b :
  _segment st = _segmentVMA st ->
  relocate offset size relSegment st = Returned b st' ->
  segment_bytes st' = segment_bytes st.
Proof.
  intros Hseg Hrun. apply relocate_paths in Hrun.
  destruct Hrun as [(h1 & _ & _ & ->)
                   | [(rel & h1 & f & _ & _ & _ & ->)
                     | (rel & buf & st1 & st2 & Hld & Hes & ->)]];
    try reflexivity.
  destruct Hld as (h1 & f1 & f2 & _ & _ & _ & _ & ->).
  apply relocate_entries_at_link_address in Hes; [| exact Hseg].
  destruct b; exact Hes.
Qed.

(** X1.  [relocate] changes bytes of the segment only inside the words
    that the absolute fixups of its table point at: a byte outside every
    such word is, when [relocate] returns, what it was, whether the call
    succeeded or not; and the segment keeps its size. *)
Theorem relocate_changes_only_fixup_targets (st st' : State F) offset size
        relSegment b (i : nat) :
  relocate offset size relSegment st = Returned b st' ->
  (forall e,
      In e (parse_entries (table_bytes offset size st)) ->
      absolute_fixup (REL_TYPE (r_info e)) = true ->
      (i < Z.to_nat (target_of relSegment e st - _segment st) \/
       Z.to_nat (target_of relSegment e st - _segment st) + 4 <= i)%nat) ->
  nth_error (segment_bytes st') i = nth_error (segment_bytes st) i /\
  length (segment_bytes st') = length (segment_bytes st).
Proof.
  intros Hrun Hapart. split; [| apply (relocate_returned _ _ _ _ _ _ Hrun)].
  apply relocate_paths in Hrun.
  destruct Hrun as [(h1 & _ & _ & ->)
                   | [(rel & h1 & f & _ & _ & _ & ->)
                     | (rel & buf & st1 & st2 & Hld & Hes & ->)]];
    try reflexivity.
  destruct (table_loaded_inv _ _ _ _ _ _ Hld) as (-> & -> & _).
  apply (relocate_entries_bytes _ _ _ i) in Hes; [| exact Hapart].
  destruct b; exact Hes.
Qed.

(** X2.  When the segment is loaded at its link-time address
    ([_segment] equal to [_segmentVMA]), relocation shifts by nothing:
    every call of [relocate] that returns, and every run of
    [relocateRels] that returns, leaves the bytes of the segment as they
    were. *)
Theorem relocation_at_link_address_is_identity (st : State F) :
  _segment st = _segmentVMA st ->
  (forall offset size relSegment b st',
      relocate offset size relSegment st = Returned b st' ->
      segment_bytes st' = segment_bytes st) /\
  (forall ehdr shdr b st',
      relocateRels ehdr shdr st = Returned b st' ->
      segment_bytes st' = segment_bytes st).
Proof.
  intros Hseg. split.
  - intros offset size relSegment b st'. apply relocate_at_link_address, Hseg.
  - intros ehdr shdr. unfold relocateRels.
    generalize 0 as i. revert st Hseg.
    induction (Z.to_nat (e_shnum ehdr)) as [| n IH]; intros st Hseg i b st'.
    + intros Heq. injection Heq as _ <-. reflexivity.
    + cbn [relocateRels_loop]. unfold bind at 1, section_at at 1.
      destruct (nth_error shdr (Z.to_nat i)) as [s |]; [| discriminate].
      unfold bind at 1.
      destruct (relocates_loaded_section ehdr shdr s st)
        as [found st0 | f] eqn:Hfound; [| discriminate].
      apply relocates_loaded_section_pure in Hfound. subst st0.
      destruct found; [| apply IH, Hseg].
      destruct (sh_type s =? SHT_RELA).
      * intros Heq. injection Heq as _ <-. reflexivity.
      * unfold bind, get.
        destruct (relocate (sh_offset s) (sh_size s) (_segment st) st)
          as [ok st1 | f] eqn:Hrun; [| discriminate].
        pose proof (relocate_at_link_address _ _ _ _ _ _ Hseg Hrun) as Hbytes.
        apply relocate_returned in Hrun.
        destruct Hrun as [(_ & _ & Hg & Hv & _) _].
        destruct ok; cbn [negb].
        -- intros Hrest. apply IH in Hrest; [| congruence]. congruence.
        -- intros Heq. injection Heq as _ <-. exact Hbytes.
Qed.

(** X3.  An absolute fixup that is applied twice, as by an entry that
    stands twice in a table, shifts the word twice: for V the word at the
    target, O the link-time and B the runtime address of the segment, the
    word ends as the 32-bit value of V + 2 * (B - O).  Relocation is not
    idempotent; the bytes around the word stay as they were. *)
Theorem fixup_applied_twice_shifts_twice (st : State F) rel e relSegment sym :
  absolute_fixup (REL_TYPE (r_info e)) = true ->
  nth_error (_symtab st) (Z.to_nat (REL_INDEX (r_info e))) = Some sym ->
  st_shndx sym < SHN_LOPROC ->
  in_segment st (target_of relSegment e st) = true ->
  let off := Z.to_nat (target_of relSegment e st - _segment st) in
  let V := word_at (segment_bytes st) off in
  let O := _segmentVMA st in
  let B := _segment st in
  exists st'',
    relocate_entries rel [e; e] relSegment st = Returned true st'' /\
    word_at (segment_bytes st'') off = uint32 (V + 2 * (B - O)) /\
    segment_bytes st'' = put_word (segment_bytes st) off (V + 2 * (B - O)).
Proof.
  intros Habs Hsym Hint Hin off V O B.
  pose proof (in_segment_offset _ _ Hin) as Hoff. fold off in Hoff.
  set (target := target_of relSegment e st) in *.
  set (st1 := patch_word target st).
  assert (Hstep : forall s : State F,
             _symtab s = _symtab st -> _segment s = _segment st ->
             _segmentVMA s = _segmentVMA st ->
             length (segment_bytes s) = length (segment_bytes st) ->
             relocate_entry rel e relSegment s
             = Returned true (patch_word target s)).
  { intros s Hs Hg Hv Hl. rewrite relocate_entry_outcome.
    unfold entry_outcome, target_of. rewrite Habs, Hs, Hsym, Hv.
    pose proof Hint as Hlt. apply Z.ltb_lt in Hlt. rewrite Hlt.
    fold (target_of relSegment e st). fold target.
    assert (Hin' : in_segment s target = true)
      by (unfold in_segment in *; rewrite Hg, Hl; exact Hin).
    rewrite Hin'. reflexivity. }
  exists (patch_word target st1).
  assert (Hbytes : segment_bytes (patch_word target st1)
                   = put_word (segment_bytes st) off (V + 2 * (B - O))).
  { unfold st1, patch_word. cbn [segment_bytes set_segment_bytes _segment
                                 _segmentVMA].
    fold off. fold V.
    rewrite word_at_put_word by exact Hoff.
    rewrite put_word_twice by exact Hoff.
    unfold put_word. f_equal. f_equal.
    rewrite (le_split_mod (V + 2 * (B - O)) 4).
    change (2 ^ (Z.of_nat 4 * 8)) with (2 ^ 32).
    f_equal. fold (uint32 (V + 2 * (B - O))).
    unfold O, B.
    assert (Hu : forall z, uint32 (uint32 z) = uint32 z)
      by (intros z; unfold uint32; apply Z.mod_mod; discriminate).
    rewrite Hu.
    transitivity (uint32 (uint32 (V - _segmentVMA st + _segment st)
                          + (_segment st - _segmentVMA st))).
    - f_equal. lia.
    - unfold uint32. rewrite Zplus_mod_idemp_l. f_equal. lia. }
  split; [| split].
  - cbn [relocate_entries]. unfold bind.
    rewrite (Hstep st) by reflexivity. fold st1.
    rewrite (Hstep st1); [reflexivity | reflexivity | reflexivity
                          | reflexivity |].
    unfold st1, patch_word. cbn [segment_bytes set_segment_bytes].
    apply put_word_length. exact Hoff.
  - rewrite Hbytes. apply word_at_put_word. exact Hoff.
  - exact Hbytes.
Qed.

(** X4.  Two absolute fixups whose target words do not overlap can
    stand in either order: the loop leaves the same state, with both
    words shifted. *)
Theorem apart_fixups_commute (st : State F) rel e1 e2 relSegment sym1 sym2 :
  absolute_fixup (REL_TYPE (r_info e1)) = true ->
  absolute_fixup (REL_TYPE (r_info e2)) = true ->
  nth_error (_symtab st) (Z.to_nat (REL_INDEX (r_info e1))) = Some sym1 ->
  nth_error (_symtab st) (Z.to_nat (REL_INDEX (r_info e2))) = Some sym2 ->
  st_shndx sym1 < SHN_LOPROC -> st_shndx sym2 < SHN_LOPROC ->
  in_segment st (target_of relSegment e1 st) = true ->
  in_segment st (target_of relSegment e2 st) = true ->
  target_of relSegment e1 st + 4 <= target_of relSegment e2 st \/
  target_of relSegment e2 st + 4 <= target_of relSegment e1 st ->
  relocate_entries rel [e1; e2] relSegment st
  = relocate_entries rel [e2; e1] relSegment st /\
  relocate_entries rel [e1; e2] relSegment st
  = Returned true (patch_word (target_of relSegment e2 st)
                              (patch_word (target_of relSegment e1 st) st)).
Proof.
  intros Habs1 Habs2 Hsym1 Hsym2 Hint1 Hint2 Hin1 Hin2 Hapart.
  set (t1 := target_of relSegment e1 st) in *.
  set (t2 := target_of relSegment e2 st) in *.
  pose proof (in_segment_offset _ _ Hin1) as Hoff1.
  pose proof (in_segment_offset _ _ Hin2) as Hoff2.
  assert (Hstep : forall e t sym (s : State F),
             absolute_fixup (REL_TYPE (r_info e)) = true ->
             nth_error (_symtab st) (Z.to_nat (REL_INDEX (r_info e))) = Some sym ->
             st_shndx sym < SHN_LOPROC ->
             target_of relSegment e st = t ->
             in_segment st t = true ->
             _symtab s = _symtab st -> _segment s = _segment st ->
             _segmentVMA s = _segmentVMA st ->
             length (segment_bytes s) = length (segment_bytes st) ->
             relocate_entry rel e relSegment s = Returned true (patch_word t s)).
  { intros e t sym s Habs Hsym Hint Ht Hin Hs Hg Hv Hl.
    rewrite relocate_entry_outcome.
    unfold entry_outcome, target_of. rewrite Habs, Hs, Hsym, Hv.
    pose proof Hint as Hlt. apply Z.ltb_lt in Hlt. rewrite Hlt.
    fold (target_of relSegment e st). rewrite Ht.
    assert (Hin' : in_segment s t = true)
      by (unfold in_segment in *; rewrite Hg, Hl; exact Hin).
    rewrite Hin'. reflexivity. }
  assert (Hrun12 : relocate_entries rel [e1; e2] relSegment st
                   = Returned true (patch_word t2 (patch_word t1 st))).
  { cbn [relocate_entries]. unfold bind.
    rewrite (Hstep e1 t1 sym1 st) by (assumption || reflexivity).
    rewrite (Hstep e2 t2 sym2 (patch_word t1 st));
      try assumption; try reflexivity.
    unfold patch_word. cbn [segment_bytes set_segment_bytes].
    apply put_word_length, Hoff1. }
  assert (Hrun21 : relocate_entries rel [e2; e1] relSegment st
                   = Returned true (patch_word t1 (patch_word t2 st))).
  { cbn [relocate_entries]. unfold bind.
    rewrite (Hstep e2 t2 sym2 st) by (assumption || reflexivity).
    rewrite (Hstep e1 t1 sym1 (patch_word t2 st));
      try assumption; try reflexivity.
    unfold patch_word. cbn [segment_bytes set_segment_bytes].
    apply put_word_length, Hoff2. }
  split; [| exact Hrun12].
  rewrite Hrun12, Hrun21. f_equal.
  assert (Hlo1 : _segment st <= t1)
    by (unfold in_segment in Hin1; apply andb_true_iff in Hin1;
        destruct Hin1 as [Hlo _]; apply Z.leb_le in Hlo; exact Hlo).
  assert (Hlo2 : _segment st <= t2)
    by (unfold in_segment in Hin2; apply andb_true_iff in Hin2;
        destruct Hin2 as [Hlo _]; apply Z.leb_le in Hlo; exact Hlo).
  unfold patch_word.
  cbn [segment_bytes set_segment_bytes _segment _segmentVMA].
  set (o1 := Z.to_nat (t1 - _segment st)) in *.
  set (o2 := Z.to_nat (t2 - _segment st)) in *.
  assert (Ho : (o1 + 4 <= o2 \/ o2 + 4 <= o1)%nat) by (subst o1 o2; lia).
  rewrite (word_at_put_word_apart _ o1 o2) by (assumption || lia).
  rewrite (word_at_put_word_apart _ o2 o1) by (assumption || lia).
  unfold set_segment_bytes.
  cbn [_file _symtab _symtab_sect _segment _segmentVMA segment_bytes heap
       warnings].
  f_equal. apply put_word_swap; (assumption || lia).
Qed.

(** X5.  [relocate] warns exactly when it fails, and then once.  A
    call that succeeds has read the table whole, met enumerated types
    only and added no warning.  A call that fails has added one warning
    that names its cause: the allocation, refused before the file was
    touched; the load of the table, which could not be read whole; or the
    type of an entry of the table, which is none of the enumerated ones.
    [relocate] never gives the warning about RELA. *)
Theorem relocate_warns_exactly_on_failure (st st' : State F) offset size
        relSegment b :
  relocate offset size relSegment st = Returned b st' ->
  if b then
    warnings st' = warnings st /\
    Z.of_nat (length (table_bytes offset size st)) = size /\
    forallb (fun e => enumerated_type (REL_TYPE (r_info e)))
            (parse_entries (table_bytes offset size st)) = true
  else
    exists w,
      warnings st' = warnings st ++ [w] /\
      match w with
      | CouldNotAllocate n =>
          n = size /\
          h_policy (heap st) (h_calls (heap st)) size = false /\
          _file st' = _file st /\ segment_bytes st' = segment_bytes st
      | RelocationTableLoadFailed =>
          h_policy (heap st) (h_calls (heap st)) size = true /\
          table_truncated offset size st /\
          segment_bytes st' = segment_bytes st
      | UnknownRelocationType t =>
          enumerated_type t = false /\
          exists e, In e (parse_entries (table_bytes offset size st)) /\
                    REL_TYPE (r_info e) = t
      | RelaNotSupported => False
      end.
Proof.
  intros Hrun. apply relocate_paths in Hrun.
  destruct Hrun as [(h1 & Hm & -> & ->)
                   | [(rel & h1 & f & Hm & Htr & -> & ->)
                     | (rel & buf & st1 & st2 & Hld & Hes & ->)]].
  - exists (CouldNotAllocate size). split; [reflexivity |].
    repeat split. unfold heap_malloc in Hm.
    destruct (h_policy (heap st) (h_calls (heap st)) size);
      [discriminate | reflexivity].
  - exists RelocationTableLoadFailed. split; [reflexivity |].
    repeat split; [| exact Htr]. unfold heap_malloc in Hm.
    destruct (h_policy (heap st) (h_calls (heap st)) size);
      [reflexivity | discriminate].
  - destruct (table_loaded_inv _ _ _ _ _ _ Hld) as (Hbuf & Hst1 & _).
    assert (Hw1 : warnings st1 = warnings st) by (subst st1; reflexivity).
    destruct b.
    + pose proof (relocate_entries_frame _ _ _ _ _ _ Hes) as Hframe.
      pose proof (relocate_entries_true _ _ _ _ _ Hes) as Hall.
      destruct Hframe as [_ _ _ _ _ _ _ Hw]. cbn [warnings set_heap].
      split; [congruence |]. split.
      * destruct Hld as (? & ? & ? & _ & _ & _ & Hlen & _). subst buf.
        exact Hlen.
      * subst buf. exact Hall.
    + apply relocate_entries_false in Hes.
      destruct Hes as (pre & e & post & stk & Hsplit & Hpre & Hty & ->).
      apply relocate_entries_frame in Hpre.
      destruct Hpre as [_ _ _ _ _ _ _ Hw].
      exists (UnknownRelocationType (REL_TYPE (r_info e))). split.
      * unfold reject. cbn [warnings set_heap add_warning]. congruence.
      * split; [exact Hty |]. exists e. split; [| reflexivity].
        rewrite <- Hbuf, Hsplit. apply in_or_app. right. left. reflexivity.
Qed.

(** X6.  [relocateRels] gives up at the first qualifying section that
    fails: when the qualifying sections before it have been relocated and
    the processing of this one returns failure, [relocateRels] returns
    failure in the state that failure left, whatever sections follow. *)
Theorem relocateRels_stops_at_first_failure (st0 st st' : State F) ehdr shdr
        done s rest :
  (Z.to_nat (e_shnum ehdr) <= length shdr)%nat ->
  filter (qualifies (_symtab_sect st0) ehdr shdr)
         (firstn (Z.to_nat (e_shnum ehdr)) shdr) = done ++ s :: rest ->
  process_sections done st0 = Returned true st ->
  process_sections [s] st = Returned false st' ->
  relocateRels ehdr shdr st0 = Returned false st'.
Proof.
  intros Hn Hfilter Hdone Hfail.
  rewrite relocateRels_sections by exact Hn.
  rewrite Hfilter, process_sections_app. unfold bind at 1. rewrite Hdone.
  change (s :: rest) with ([s] ++ rest).
  rewrite process_sections_app. unfold bind at 1. rewrite Hfail.
  reflexivity.
Qed.

(** X7.  Sections that are not linked to the chosen symbol table are
    passed over: when no section header has the index of the symbol-table
    section as its link (compared as the code compares them, the link
    read as a signed 32-bit number), [relocateRels] returns success and
    the state is untouched; nothing is allocated and the file is not
    read.  This is so in particular when the index is negative, there
    being no symbol table, and every link is below 2^31. *)
Theorem relocateRels_without_linked_sections (st : State F) ehdr shdr :
  (Z.to_nat (e_shnum ehdr) <= length shdr)%nat ->
  (forall s, In s (firstn (Z.to_nat (e_shnum ehdr)) shdr) ->
             int32 (sh_link s) <> _symtab_sect st \/
             (_symtab_sect st < 0 /\ 0 <= sh_link s < 2 ^ 31)) ->
  relocateRels ehdr shdr st = Returned true st.
Proof.
  intros Hn Hlinks. rewrite relocateRels_sections by exact Hn.
  assert (Hnone : filter (qualifies (_symtab_sect st) ehdr shdr)
                         (firstn (Z.to_nat (e_shnum ehdr)) shdr) = []).
  { induction (firstn (Z.to_nat (e_shnum ehdr)) shdr) as [| s l IH];
      [reflexivity |].
    cbn [filter].
    assert (Hq : qualifies (_symtab_sect st) ehdr shdr s = false).
    { unfold qualifies.
      assert (Hne : int32 (sh_link s) <> _symtab_sect st).
      { destruct (Hlinks s (or_introl eq_refl)) as [Hne | [Hneg Hrange]];
          [exact Hne |].
        unfold int32, uint32. rewrite Z.mod_small by lia.
        destruct (sh_link s <? 2 ^ 31) eqn:Hlt;
          [lia | apply Z.ltb_ge in Hlt; lia]. }
      apply Z.eqb_neq in Hne. rewrite Hne.
      rewrite andb_false_r. reflexivity. }
    rewrite Hq. apply IH. intros s' Hs'. apply Hlinks. right. exact Hs'. }
  rewrite Hnone. reflexivity.
Qed.

(** X8.  [relocateRels] warns exactly when it fails, and then once: a
    run that succeeds adds no warning, and a run that fails adds one, at
    the section that made it fail. *)
Theorem relocateRels_warns_exactly_on_failure (st st' : State F) ehdr shdr b :
  relocateRels ehdr shdr st = Returned b st' ->
  if b then warnings st' = warnings st
  else exists w, warnings st' = warnings st ++ [w].
Proof.
  unfold relocateRels. generalize 0 as i. revert st.
  induction (Z.to_nat (e_shnum ehdr)) as [| n IH]; intros st i.
  - intros Heq. injection Heq as <- <-. reflexivity.
  - cbn [relocateRels_loop]. unfold bind at 1, section_at at 1.
    destruct (nth_error shdr (Z.to_nat i)) as [s |]; [| discriminate].
    unfold bind at 1.
    destruct (relocates_loaded_section ehdr shdr s st)
      as [found st0 | f] eqn:Hfound; [| discriminate].
    apply relocates_loaded_section_pure in Hfound. subst st0.
    destruct found; [| apply IH].
    destruct (sh_type s =? SHT_RELA).
    + intros Heq. injection Heq as <- <-.
      exists RelaNotSupported. reflexivity.
    + unfold bind, get.
      destruct (relocate (sh_offset s) (sh_size s) (_segment st) st)
        as [ok st1 | f] eqn:Hrun; [| discriminate].
      apply relocate_paths in Hrun. destruct ok; cbn [negb].
      * assert (Hw : warnings st1 = warnings st).
        { destruct Hrun as [(h1 & _ & Hb & _)
                           | [(rel & h1 & f & _ & _ & Hb & _)
                             | (rel & buf & st1' & st2 & Hld & Hes & ->)]];
            try discriminate.
          apply relocate_entries_frame in Hes.
          destruct Hes as [_ _ _ _ _ _ _ Hw].
          destruct Hld as (? & ? & ? & _ & _ & _ & _ & ->).
          cbn [warnings set_heap]. rewrite Hw. reflexivity. }
        intros Hrest. apply IH in Hrest. rewrite Hw in Hrest. exact Hrest.
      * intros Heq. injection Heq as <- <-.
        destruct Hrun as [(h1 & _ & _ & ->)
                         | [(rel & h1 & f & _ & _ & _ & ->)
                           | (rel & buf & st1' & st2 & Hld & Hes & ->)]].
        -- eexists. reflexivity.
        -- eexists. reflexivity.
        -- apply relocate_entries_frame in Hes.
           destruct Hes as [_ _ _ _ _ _ _ [t Hw]].
           destruct Hld as (? & ? & ? & _ & _ & _ & _ & ->).
           exists (UnknownRelocationType t). rewrite Hw. reflexivity.
Qed.

Lemma relocate_entry_set_symtab rel e relSegment t1 t2 (st : State F) :
  map shifted_symbol t1 = map shifted_symbol t2 ->
  relocate_entry rel e relSegment (set_symtab t2 st) =
  outcome_map (set_symtab t2)
              (relocate_entry rel e relSegment (set_symtab t1 st)).
Proof.
  intros Hsame. rewrite !relocate_entry_outcome.
  unfold entry_outcome, target_of. cbn [_symtab _segmentVMA set_symtab].
  destruct (absolute_fixup (REL_TYPE (r_info e))).
  - assert (Hnth : option_map shifted_symbol
                     (nth_error t1 (Z.to_nat (REL_INDEX (r_info e))))
                   = option_map shifted_symbol
                       (nth_error t2 (Z.to_nat (REL_INDEX (r_info e)))))
      by (rewrite <- !nth_error_map, Hsame; reflexivity).
    destruct (nth_error t1 (Z.to_nat (REL_INDEX (r_info e)))) as [s1 |];
      destruct (nth_error t2 (Z.to_nat (REL_INDEX (r_info e)))) as [s2 |];
      try discriminate; [| reflexivity].
    injection Hnth as Hnth. unfold shifted_symbol in Hnth. rewrite Hnth.
    destruct (st_shndx s2 <? SHN_LOPROC); [| reflexivity].
    unfold in_segment. cbn [_segment segment_bytes set_symtab].
    destruct ((_segment st <=? _) && _); reflexivity.
  - destruct (self_relative_or_marker (REL_TYPE (r_info e))); reflexivity.
Qed.

Lemma set_symtab_own (st : State F) : set_symtab (_symtab st) st = st.
Proof. destruct st. reflexivity. Qed.

Lemma relocate_entries_set_symtab rel es relSegment t1 t2 :
  map shifted_symbol t1 = map shifted_symbol t2 ->
  forall st : State F,
    relocate_entries rel es relSegment (set_symtab t2 st) =
    outcome_map (set_symtab t2)
                (relocate_entries rel es relSegment (set_symtab t1 st)).
Proof.
  intros Hsame. induction es as [| e es IH]; intros st; [reflexivity |].
  cbn [relocate_entries]. unfold bind.
  rewrite (relocate_entry_set_symtab rel e relSegment t1 t2 st Hsame).
  destruct (relocate_entry rel e relSegment (set_symtab t1 st))
    as [[|] st1 | f] eqn:He; cbn [outcome_map]; try reflexivity.
  apply relocate_entry_frame in He. destruct He as [_ Hs _ _ _ _ _ _].
  cbn [_symtab set_symtab] in Hs.
  rewrite <- (set_symtab_own st1) at 2. rewrite Hs. apply IH.
Qed.

(** [relocate] in closed form, over the results of its three calls. *)
Lemma relocate_closed_form offset size relSegment (st : State F) :
  relocate offset size relSegment st =
  match heap_malloc size (heap st) with
  | (None, h1) =>
      Returned false (add_warning (CouldNotAllocate size) (set_heap h1 st))
  | (Some rel, h1) =>
      match seek offset (_file st) with
      | (false, f1) =>
          Returned false (reject rel RelocationTableLoadFailed
                                 (set_file f1 (set_heap h1 st)))
      | (true, f1) =>
          let (buf, f2) := read size f1 in
          if Z.of_nat (length buf) =? size then
            match relocate_entries rel (parse_entries buf) relSegment
                                   (set_file f2 (set_heap h1 st)) with
            | Returned true st2 =>
                Returned true (set_heap (heap_free rel (heap st2)) st2)
            | Returned false st2 => Returned false st2
            | Undefined f => Undefined f
            end
          else
            Returned false (reject rel RelocationTableLoadFailed
                                   (set_file f2 (set_heap h1 st)))
      end
  end.
Proof.
  unfold relocate, bind, malloc.
  destruct (heap_malloc size (heap st)) as [[rel |] h1]; [| reflexivity].
  unfold file_seek. cbn [_file set_heap].
  destruct (seek offset (_file st)) as [[|] f1]; cbn [negb]; [| reflexivity].
  unfold file_read. cbn [_file set_file].
  destruct (read size f1) as [buf f2].
  destruct (Z.of_nat (length buf) =? size) eqn:Hlen; cbn [negb];
    [| reflexivity].
  apply Z.eqb_eq in Hlen. subst size. rewrite relocate_loop_all.
  destruct (relocate_entries rel (parse_entries buf) relSegment _)
    as [[|] st2 | f]; reflexivity.
Qed.

(** X9.  Of a symbol, [relocate] reads only whether its section index
    is below SHN_LOPROC; its value, size and name play no part.  With two
    symbol tables that agree on this for every symbol, [relocate] gives
    the same result and leaves the same state, the symbol table apart. *)
Theorem relocate_reads_only_symbol_sections (st : State F) t1 t2 offset size
        relSegment :
  map shifted_symbol t1 = map shifted_symbol t2 ->
  relocate offset size relSegment (set_symtab t2 st) =
  outcome_map (set_symtab t2)
              (relocate offset size relSegment (set_symtab t1 st)).
Proof.
  intros Hsame. rewrite !relocate_closed_form. cbn [heap _file set_symtab].
  destruct (heap_malloc size (heap st)) as [[rel |] h1]; [| reflexivity].
  destruct (seek offset (_file st)) as [[|] f1]; [| reflexivity].
  destruct (read size f1) as [buf f2].
  destruct (Z.of_nat (length buf) =? size); [| reflexivity].
  pose proof (relocate_entries_set_symtab rel (parse_entries buf) relSegment
                t1 t2 Hsame (set_file f2 (set_heap h1 st))) as Hes.
  change (set_file f2 (set_heap h1 (set_symtab t2 st)))
    with (set_symtab t2 (set_file f2 (set_heap h1 st))).
  change (set_file f2 (set_heap h1 (set_symtab t1 st)))
    with (set_symtab t1 (set_file f2 (set_heap h1 st))).
  rewrite Hes.
  destruct (relocate_entries rel (parse_entries buf) relSegment
              (set_symtab t1 (set_file f2 (set_heap h1 st))))
    as [[|] st2 | f]; reflexivity.
Qed.

End FurtherProperties.

(** ** The further properties at the sample object *)

Lemma relocate_shifts_absolute_fixup_word_witness :
  exists st',
    relocate 0 24 196608 (sample_state table_fixup_between)
    = Returned true st' /\
    word_at (segment_bytes (sample_state table_fixup_between)) 16 = 32768 /\
    word_at (segment_bytes st') 16 = 196608.
Proof.
  destruct (relocate 0 24 196608 (sample_state table_fixup_between))
    as [[|] st' | f] eqn:Hrun;
    [| vm_compute in Hrun; discriminate Hrun
     | vm_compute in Hrun; discriminate Hrun].
  exists st'. split; [reflexivity |]. split; [reflexivity |].
  destruct (relocate_shifts_absolute_fixup_word
              (sample_state table_fixup_between)
              (after_load 0 24 (sample_state table_fixup_between))
              (after_load 0 24 (sample_state table_fixup_between))
              0 24 196608 0%nat
              (table_bytes 0 24 (sample_state table_fixup_between))
              [rel_entry 32772 1 R_ARM_PC24]
              (rel_entry 32784 1 R_ARM_ABS32)
              [rel_entry 32776 1 R_ARM_CALL]
              (mkSym 1 32768 4 0 0 1))
    as (_ & _ & _ & _ & _ & Hfinal & _);
    [apply table_loaded_after_load; reflexivity
    | reflexivity | reflexivity | reflexivity | reflexivity | reflexivity
    | reflexivity |].
  refine (Hfinal true st' Hrun _).
  intros e' [<- | []] Habs; vm_compute in Habs; discriminate Habs.
Defined.

Lemma relocate_changes_only_fixup_targets_witness :
  exists st',
    relocate 0 24 196608 (sample_state table_scenario) = Returned true st' /\
    nth_error (segment_bytes st') 3 = nth_error sample_segment 3 /\
    length (segment_bytes st') = 32%nat.
Proof.
  eexists. split; [vm_compute; reflexivity |].
  apply (relocate_changes_only_fixup_targets
           (sample_state table_scenario) _ 0 24 196608 true 3).
  - vm_compute. reflexivity.
  - intros e Hin Habs. vm_compute in Hin.
    destruct Hin as [<- | [<- | [<- | []]]];
      vm_compute in Habs; try discriminate Habs.
    left. vm_compute. repeat constructor.
Defined.

Lemma relocation_at_link_address_is_identity_witness :
  exists st',
    relocate 0 24 32768 (sample_state_in_place table_scenario)
    = Returned true st' /\
    segment_bytes st' = sample_segment.
Proof.
  destruct (relocation_at_link_address_is_identity
              (sample_state_in_place table_scenario) eq_refl)
    as [Hrelocate _].
  eexists. split; [vm_compute; reflexivity |].
  apply (Hrelocate 0 24 32768 true). vm_compute. reflexivity.
Defined.

Lemma fixup_applied_twice_shifts_twice_witness :
  exists st'',
    relocate_entries 0 [fixup_at_16; fixup_at_16] 196608 (sample_state [])
    = Returned true st'' /\
    word_at (segment_bytes st'') 16 = 360448.
Proof.
  destruct (fixup_applied_twice_shifts_twice
              (sample_state []) 0%nat fixup_at_16 196608
              (mkSym 1 32768 4 0 0 1))
    as (st'' & Hrun & Hword & _);
    [reflexivity | reflexivity | reflexivity | reflexivity |].
  exists st''. split; [exact Hrun | exact Hword].
Defined.

Lemma apart_fixups_commute_witness :
  relocate_entries 0 [fixup_at_4; fixup_at_16] 196608 (sample_state [])
  = relocate_entries 0 [fixup_at_16; fixup_at_4] 196608 (sample_state []).
Proof.
  destruct (apart_fixups_commute
              (sample_state []) 0%nat fixup_at_4 fixup_at_16 196608
              (mkSym 1 32768 4 0 0 1) (mkSym 1 32768 4 0 0 1))
    as [Hswap _];
    [reflexivity | reflexivity | reflexivity | reflexivity | reflexivity
     | reflexivity | reflexivity | reflexivity | | exact Hswap].
  left. vm_compute. discriminate.
Defined.

Lemma relocate_warns_exactly_on_failure_witness :
  exists st' w,
    relocate 0 16 196608 (sample_state table_unknown) = Returned false st' /\
    warnings st' = warnings (sample_state table_unknown) ++ [w].
Proof.
  eexists.
  assert (Hrun : relocate 0 16 196608 (sample_state table_unknown)
                 = Returned false _) by (vm_compute; reflexivity).
  destruct (relocate_warns_exactly_on_failure _ _ _ _ _ _ Hrun)
    as (w & Hw & _).
  exists w. split; [exact Hrun | exact Hw].
Defined.

Lemma relocateRels_stops_at_first_failure_witness :
  exists st',
    relocateRels sample_ehdr (sample_sections (rel_text 16))
                 (sample_state table_unknown) = Returned false st'.
Proof.
  eexists.
  apply (relocateRels_stops_at_first_failure
           (sample_state table_unknown) (sample_state table_unknown) _
           sample_ehdr (sample_sections (rel_text 16)) [] (rel_text 16) []).
  - vm_compute. repeat constructor.
  - reflexivity.
  - reflexivity.
  - vm_compute. reflexivity.
Defined.

Lemma relocateRels_without_linked_sections_witness :
  relocateRels sample_ehdr (sample_sections rel_text_unlinked)
               (sample_state table_scenario)
  = Returned true (sample_state table_scenario).
Proof.
  apply relocateRels_without_linked_sections.
  - vm_compute. repeat constructor.
  - intros s Hin. left. vm_compute in Hin.
    destruct Hin as [<- | [<- | [<- | [<- | [<- | []]]]]];
      vm_compute; discriminate.
Defined.

Lemma relocateRels_warns_exactly_on_failure_witness :
  exists st' w,
    relocateRels sample_ehdr (sample_sections rela_text) (sample_state [])
    = Returned false st' /\
    warnings st' = warnings (sample_state []) ++ [w].
Proof.
  eexists.
  assert (Hrun : relocateRels sample_ehdr (sample_sections rela_text)
                              (sample_state [])
                 = Returned false _) by (vm_compute; reflexivity).
  destruct (relocateRels_warns_exactly_on_failure _ _ _ _ _ Hrun)
    as (w & Hw).
  exists w. split; [exact Hrun | exact Hw].
Defined.

Lemma relocate_reads_only_symbol_sections_witness :
  relocate 0 24 196608
           (set_symtab sample_symtab_moved (sample_state table_scenario))
  = outcome_map (set_symtab sample_symtab_moved)
                (relocate 0 24 196608
                          (set_symtab sample_symtab
                                      (sample_state table_scenario))).
Proof.
  apply relocate_reads_only_symbol_sections. reflexivity.
Defined.

(** * Properties of the save streams *)

Lemma int32_small (z : Z) : - 2 ^ 31 <= z < 2 ^ 31 -> int32 z = z.
Proof.
  intros Hz. unfold int32, uint32. cbv zeta.
  destruct (Z.neg_nonneg_cases z) as [Hneg | Hpos].
  - replace (z mod 2 ^ 32) with (z + 2 ^ 32).
    + destruct (z + 2 ^ 32 <? 2 ^ 31) eqn:Hlt;
        [apply Z.ltb_lt in Hlt; lia | lia].
    + apply (Z.mod_unique_pos _ _ (-1)); lia.
  - rewrite Z.mod_small by lia.
    destruct (z <? 2 ^ 31) eqn:Hlt; [reflexivity |].
    apply Z.ltb_ge in Hlt. lia.
Qed.

Lemma int32_uint32 (z : Z) : int32 (uint32 z) = int32 z.
Proof.
  unfold int32, uint32. cbv zeta. rewrite Z.mod_mod by discriminate.
  reflexivity.
Qed.

Lemma fits_int_iff (z : Z) : fits_int z = true <-> - 2 ^ 31 <= z < 2 ^ 31.
Proof.
  unfold fits_int. rewrite andb_true_iff, Z.leb_le, Z.ltb_lt. reflexivity.
Qed.

Lemma fits_int64_iff (z : Z) : fits_int64 z = true <-> - 2 ^ 63 <= z < 2 ^ 63.
Proof.
  unfold fits_int64. rewrite andb_true_iff, Z.leb_le, Z.ltb_lt. reflexivity.
Qed.

(** What a read of [cnt] bytes gives for a stream in order: the count,
    the end-of-stream flag and the position after it. *)
Lemma InVMSave_read_ok (cnt : Z) (s : InVMSave.t) :
  InVMSave.ok s -> 0 <= cnt -> InVMSave._pos s + cnt < 2 ^ 31 ->
  let n := Z.min cnt (InVMSave._size s - InVMSave._pos s) in
  InVMSave.read cnt s =
  Some (firstn (Z.to_nat n)
               (skipn (Z.to_nat (InVMSave._pos s)) (InVMSave.buffer s)),
        n,
        InVMSave.mk (InVMSave.buffer s) (InVMSave._pos s + n)
                    (InVMSave._size s)
                    (InVMSave._eos s
                     || (InVMSave._size s - InVMSave._pos s <? cnt))).
Proof.
  intros (Hpos & Hsize & Hmax) Hcnt Hsum n. unfold InVMSave.read.
  rewrite (int32_small cnt) by lia.
  assert (Hfit : fits_int (InVMSave._pos s + cnt) = true)
    by (apply fits_int_iff; lia).
  rewrite Hfit. cbn [negb].
  assert (Hfit' : fits_int (InVMSave._size s - InVMSave._pos s) = true)
    by (apply fits_int_iff; lia).
  rewrite Hfit'. cbn [negb]. rewrite andb_false_r.
  destruct (InVMSave._size s <? InVMSave._pos s + cnt) eqn:Hshort.
  - apply Z.ltb_lt in Hshort.
    assert (Hn : n = InVMSave._size s - InVMSave._pos s) by (unfold n; lia).
    assert (Hlt : (InVMSave._size s - InVMSave._pos s <? cnt) = true)
      by (apply Z.ltb_lt; lia).
    rewrite Hlt, orb_true_r, Hn.
    rewrite int32_uint32, (uint32_small (InVMSave._size s - InVMSave._pos s)),
      (int32_small (InVMSave._size s - InVMSave._pos s)) by lia.
    destruct (InVMSave._size s - InVMSave._pos s =? 0) eqn:Hzero.
    + apply Z.eqb_eq in Hzero. rewrite Hzero. cbn [Z.to_nat firstn].
      rewrite Z.add_0_r. reflexivity.
    + assert (Hin : (0 <=? InVMSave._size s - InVMSave._pos s)
                    && (0 <=? InVMSave._pos s)
                    && (InVMSave._pos s + (InVMSave._size s - InVMSave._pos s)
                        <=? Z.of_nat (length (InVMSave.buffer s))) = true).
      { rewrite !andb_true_iff, !Z.leb_le. lia. }
      rewrite Hin. reflexivity.
  - apply Z.ltb_ge in Hshort.
    assert (Hn : n = cnt) by (unfold n; lia).
    assert (Hlt : (InVMSave._size s - InVMSave._pos s <? cnt) = false)
      by (apply Z.ltb_ge; lia).
    rewrite Hlt, orb_false_r, Hn.
    destruct (cnt =? 0) eqn:Hzero.
    + apply Z.eqb_eq in Hzero. rewrite Hzero. cbn [Z.to_nat firstn].
      rewrite Z.add_0_r. reflexivity.
    + assert (Hin : (0 <=? cnt) && (0 <=? InVMSave._pos s)
                    && (InVMSave._pos s + cnt
                        <=? Z.of_nat (length (InVMSave.buffer s))) = true).
      { rewrite !andb_true_iff, !Z.leb_le. lia. }
      rewrite Hin. reflexivity.
Qed.


Lemma InVMSave_read_keeps_ok (cnt : Z) (s : InVMSave.t) :
  InVMSave.ok s -> 0 <= cnt ->
  let n := Z.min cnt (InVMSave._size s - InVMSave._pos s) in
  forall e,
    InVMSave.ok (InVMSave.mk (InVMSave.buffer s) (InVMSave._pos s + n)
                             (InVMSave._size s) e).
Proof.
  intros (Hpos & Hsize & Hmax) Hcnt n e. unfold InVMSave.ok.
  cbn [InVMSave._pos InVMSave._size InVMSave.buffer].
  repeat split; try assumption; unfold n; lia.
Qed.

(** X10.  A read from a save stream that is in order never goes past
    the end of the save: it copies the bytes at the position, as many as
    were asked for or as are left, returns their number, moves the
    position by it, and raises the end-of-stream flag exactly when more
    was asked for than was left.  The stream stays in order. *)
Theorem InVMSave_read_stays_in_save (cnt : Z) (s : InVMSave.t) :
  InVMSave.ok s -> 0 <= cnt -> InVMSave._pos s + cnt < 2 ^ 31 ->
  exists bytes n s',
    InVMSave.read cnt s = Some (bytes, n, s') /\
    n = Z.min cnt (InVMSave._size s - InVMSave._pos s) /\
    Z.of_nat (length bytes) = n /\
    bytes = firstn (Z.to_nat n)
                   (skipn (Z.to_nat (InVMSave._pos s)) (InVMSave.buffer s)) /\
    InVMSave._pos s' = InVMSave._pos s + n /\
    InVMSave._eos s' = (InVMSave._eos s
                        || (InVMSave._size s - InVMSave._pos s <? cnt)) /\
    InVMSave.buffer s' = InVMSave.buffer s /\
    InVMSave._size s' = InVMSave._size s /\
    InVMSave.ok s'.
Proof.
  intros Hok Hcnt Hsum.
  pose proof (InVMSave_read_ok cnt s Hok Hcnt Hsum) as Hread.
  pose proof (InVMSave_read_keeps_ok cnt s Hok Hcnt) as Hkeep.
  cbv zeta in Hread, Hkeep.
  destruct Hok as (Hpos & Hsize & Hmax).
  do 3 eexists. split; [exact Hread |].
  repeat split; try apply Hkeep.
  rewrite length_firstn, length_skipn. lia.
Qed.

(** The place a seek asks for, before it is made an [int]. *)
Lemma InVMSave_seek_closed_form (s : InVMSave.t) (offs whence : Z) :
  0 <= InVMSave._size s ->
  let target := if whence =? SEEK_SET then offs
                else if whence =? SEEK_CUR then InVMSave._pos s + offs
                else if whence =? SEEK_END then InVMSave._size s + offs
                else InVMSave._pos s in
  let moved := if (whence =? SEEK_SET) || (whence =? SEEK_CUR)
                  || (whence =? SEEK_END)
               then int32 target else target in
  InVMSave.seek offs whence s
  = if (whence =? SEEK_CUR) || (whence =? SEEK_END) then
      if fits_int64 target then
        Some (true, InVMSave.mk (InVMSave.buffer s)
                                (Z.max 0 (Z.min (InVMSave._size s) moved))
                                (InVMSave._size s) false)
      else None
    else
      Some (true, InVMSave.mk (InVMSave.buffer s)
                              (Z.max 0 (Z.min (InVMSave._size s) moved))
                              (InVMSave._size s) false).
Proof.
  intros Hsize target moved.
  assert (Hclamp : forall q,
             (if q <? 0 then 0
              else if InVMSave._size s <? q then InVMSave._size s else q)
             = Z.max 0 (Z.min (InVMSave._size s) q)).
  { intros q. destruct (q <? 0) eqn:Hq;
      [apply Z.ltb_lt in Hq; lia | apply Z.ltb_ge in Hq].
    destruct (InVMSave._size s <? q) eqn:Hq';
      [apply Z.ltb_lt in Hq' | apply Z.ltb_ge in Hq']; lia. }
  unfold InVMSave.seek, moved, target, SEEK_SET, SEEK_CUR, SEEK_END.
  destruct (Z.eqb_spec whence 0) as [-> | Hne0];
    [cbn; rewrite Hclamp; reflexivity |].
  destruct (Z.eqb_spec whence 1) as [-> | Hne1];
    [cbn [orb]; destruct (fits_int64 (InVMSave._pos s + offs));
     [rewrite Hclamp |]; reflexivity |].
  destruct (Z.eqb_spec whence 2) as [-> | Hne2];
    [cbn [orb]; destruct (fits_int64 (InVMSave._size s + offs));
     [rewrite Hclamp |]; reflexivity |].
  cbn [orb]. rewrite Hclamp. reflexivity.
Qed.

(** X11.  A seek in a save stream puts the position at the place asked
    for (the offset from the start, from the position or from the end;
    the position itself for any other [whence]), made an [int] and then
    brought back to the start when it lies before it and to the end of
    the save when it lies after it; it returns true and clears the
    end-of-stream flag.  So the position never leaves the save, and for
    a place that is an [int] the position is that place or the nearer end
    of the save.  A place that is not an [int] is cut to its low 32 bits
    first: an offset of 2^32 + 1 from the start lands at 1.  The seek is
    undefined only where the sum it forms leaves the 64 bits of the
    offset. *)
Theorem InVMSave_seek_stays_in_save (s : InVMSave.t) (offs whence : Z) :
  0 <= InVMSave._size s < 2 ^ 31 ->
  - 2 ^ 31 <= InVMSave._pos s < 2 ^ 31 ->
  - 2 ^ 63 <= offs < 2 ^ 63 ->
  let target := if whence =? SEEK_SET then offs
                else if whence =? SEEK_CUR then InVMSave._pos s + offs
                else if whence =? SEEK_END then InVMSave._size s + offs
                else InVMSave._pos s in
  let p := Z.max 0 (Z.min (InVMSave._size s) (int32 target)) in
  (- 2 ^ 63 <= target < 2 ^ 63 ->
   InVMSave.seek offs whence s
   = Some (true,
           InVMSave.mk (InVMSave.buffer s) p (InVMSave._size s) false)) /\
  (target < - 2 ^ 63 \/ 2 ^ 63 <= target ->
   InVMSave.seek offs whence s = None) /\
  0 <= p <= InVMSave._size s /\
  (- 2 ^ 31 <= target < 2 ^ 31 ->
   p = Z.max 0 (Z.min (InVMSave._size s) target)) /\
  (0 <= target <= InVMSave._size s -> p = target) /\
  (InVMSave._size s <= target < 2 ^ 31 -> p = InVMSave._size s) /\
  (- 2 ^ 31 <= target <= 0 -> p = 0).
Proof.
  intros Hsize Hpos Hoffs target p.
  pose proof (InVMSave_seek_closed_form s offs whence (proj1 Hsize))
    as Hseek. cbv zeta in Hseek. fold target in Hseek.
  assert (Hmoved : (if (whence =? SEEK_SET) || (whence =? SEEK_CUR)
                       || (whence =? SEEK_END)
                    then int32 target else target) = int32 target).
  { destruct ((whence =? SEEK_SET) || (whence =? SEEK_CUR)
              || (whence =? SEEK_END)) eqn:Hw; [reflexivity |].
    apply orb_false_iff in Hw. destruct Hw as [Hw Hend].
    apply orb_false_iff in Hw. destruct Hw as [Hset Hcur].
    unfold target. rewrite Hset, Hcur, Hend.
    symmetry. apply int32_small. lia. }
  rewrite Hmoved in Hseek. fold p in Hseek.
  assert (Hint : - 2 ^ 31 <= target < 2 ^ 31 -> int32 target = target)
    by (intros Hfit; apply int32_small; exact Hfit).
  split; [| split; [| split; [| split; [| split; [| split]]]]].
  - intros Hfit. rewrite Hseek.
    replace (fits_int64 target) with true
      by (symmetry; apply fits_int64_iff; exact Hfit).
    destruct ((whence =? SEEK_CUR) || (whence =? SEEK_END)); reflexivity.
  - intros Hout. rewrite Hseek.
    assert (Hnot : fits_int64 target = false).
    { destruct (fits_int64 target) eqn:Hfit; [| reflexivity].
      apply fits_int64_iff in Hfit. lia. }
    rewrite Hnot.
    destruct ((whence =? SEEK_CUR) || (whence =? SEEK_END)) eqn:Hw;
      [reflexivity |].
    apply orb_false_iff in Hw. destruct Hw as [Hcur Hend].
    unfold target in Hout. rewrite Hcur, Hend in Hout.
    destruct (whence =? SEEK_SET); lia.
  - unfold p. lia.
  - intros Hfit. unfold p. rewrite (Hint Hfit). reflexivity.
  - intros Hfit. unfold p. rewrite Hint by lia. lia.
  - intros Hfit. unfold p. rewrite Hint by lia. lia.
  - intros Hfit. unfold p. rewrite Hint by lia. lia.
Qed.

(** X12.  A seek from the start followed by a read gives the bytes of
    the save at that place: for a range that lies in the save, the read
    returns all of its bytes and the end-of-stream flag stays down. *)
Theorem InVMSave_seek_then_read (s : InVMSave.t) (off n : Z) :
  InVMSave.ok s -> 0 <= off -> 0 <= n -> off + n <= InVMSave._size s ->
  exists s1 s2,
    InVMSave.seek off SEEK_SET s = Some (true, s1) /\
    InVMSave.read n s1
    = Some (firstn (Z.to_nat n) (skipn (Z.to_nat off) (InVMSave.buffer s)),
            n, s2) /\
    InVMSave._pos s2 = off + n /\ InVMSave._eos s2 = false.
Proof.
  intros (Hpos & Hsize & Hmax) Hoff Hn Hrange.
  pose proof (InVMSave_seek_closed_form s off SEEK_SET ltac:(lia)) as Hseek.
  change (SEEK_SET =? SEEK_SET) with true in Hseek.
  change (SEEK_SET =? SEEK_CUR) with false in Hseek.
  change (SEEK_SET =? SEEK_END) with false in Hseek.
  cbn [orb] in Hseek. rewrite int32_small in Hseek by lia.
  replace (Z.max 0 (Z.min (InVMSave._size s) off)) with off in Hseek by lia.
  set (s1 := InVMSave.mk (InVMSave.buffer s) off (InVMSave._size s) false)
    in *.
  assert (Hok1 : InVMSave.ok s1) by (unfold InVMSave.ok, s1; cbn; lia).
  pose proof (InVMSave_read_ok n s1 Hok1 Hn) as Hread.
  cbn [InVMSave._pos InVMSave._size InVMSave.buffer InVMSave._eos s1]
    in Hread.
  specialize (Hread ltac:(lia)). cbv zeta in Hread.
  replace (Z.min n (InVMSave._size s - off)) with n in Hread by lia.
  exists s1. eexists. split; [exact Hseek |]. split; [exact Hread |].
  cbn [InVMSave._pos InVMSave._eos]. split; [reflexivity |].
  apply Z.ltb_ge. lia.
Qed.



(** X15.  A skip by a count of 2^31 or more goes backwards: the count
    is read as a negative [int], so the position moves back by 2^32 less
    the count, without a check against the start of the save; and when
    that leaves the position before the start, a read that follows is
    undefined behaviour, its [memcpy] starting before the buffer. *)
Theorem InVMSave_skip_of_huge_count_goes_back (s : InVMSave.t) (offset : Z) :
  InVMSave.ok s -> 2 ^ 31 <= offset < 2 ^ 32 ->
  InVMSave.skip offset s
  = Some (true,
          InVMSave.mk (InVMSave.buffer s)
                      (InVMSave._pos s - (2 ^ 32 - offset))
                      (InVMSave._size s) (InVMSave._eos s)) /\
  (InVMSave._pos s < 2 ^ 32 - offset ->
   forall cnt,
     0 < cnt -> cnt <= InVMSave._size s ->
     InVMSave.read cnt
       (InVMSave.mk (InVMSave.buffer s) (InVMSave._pos s - (2 ^ 32 - offset))
                    (InVMSave._size s) (InVMSave._eos s)) = None).
Proof.
  intros (Hpos & Hsize & Hmax) Hoff.
  assert (Hint : int32 offset = offset - 2 ^ 32).
  { unfold int32, uint32. cbv zeta. rewrite Z.mod_small by lia.
    destruct (offset <? 2 ^ 31) eqn:Hlt; [apply Z.ltb_lt in Hlt; lia |].
    reflexivity. }
  assert (Hskip : InVMSave.skip offset s
                  = Some (true,
                          InVMSave.mk (InVMSave.buffer s)
                            (InVMSave._pos s - (2 ^ 32 - offset))
                            (InVMSave._size s) (InVMSave._eos s))).
  { unfold InVMSave.skip. rewrite Hint.
    assert (Hfit : fits_int (InVMSave._pos s + (offset - 2 ^ 32)) = true)
      by (apply fits_int_iff; lia).
    rewrite Hfit. cbn [negb].
    assert (Hshort : (InVMSave._size s <? InVMSave._pos s + (offset - 2 ^ 32))
                     = false) by (apply Z.ltb_ge; lia).
    rewrite Hshort. cbn [andb]. do 3 f_equal. lia. }
  split; [exact Hskip |].
  intros Hbefore cnt Hcnt Hle. unfold InVMSave.read.
  cbn [InVMSave._pos InVMSave._size InVMSave.buffer InVMSave._eos].
  rewrite (int32_small cnt) by lia.
  assert (Hfit : fits_int (InVMSave._pos s - (2 ^ 32 - offset) + cnt) = true)
    by (apply fits_int_iff; lia).
  rewrite Hfit. cbn [negb].
  assert (Hshort : (InVMSave._size s
                    <? InVMSave._pos s - (2 ^ 32 - offset) + cnt) = false)
    by (apply Z.ltb_ge; lia).
  rewrite Hshort. cbn [andb].
  assert (Hnz : (cnt =? 0) = false) by (apply Z.eqb_neq; lia).
  rewrite Hnz.
  assert (Hneg : (0 <=? InVMSave._pos s - (2 ^ 32 - offset)) = false)
    by (apply Z.leb_gt; lia).
  rewrite Hneg, andb_false_r. reflexivity.
Qed.

(** What a write of [cnt] bytes does to a stream in order. *)
Lemma OutVMSave_write_ok (data : list byte) (cnt : Z) (s : OutVMSave.t) :
  OutVMSave.ok s -> 0 <= cnt <= Z.of_nat (length data) ->
  OutVMSave._pos s + cnt < 2 ^ 31 ->
  let n := Z.min cnt (OutVMSave.size s - OutVMSave._pos s) in
  OutVMSave.write data cnt s =
  Some (n,
        if n =? 0 then s
        else OutVMSave.mk
               (firstn (Z.to_nat (OutVMSave._pos s)) (OutVMSave.buffer s)
                ++ firstn (Z.to_nat n) data
                ++ skipn (Z.to_nat (OutVMSave._pos s + n)) (OutVMSave.buffer s))
               (OutVMSave._pos s + n) (OutVMSave.size s)
               (OutVMSave.committed s) (OutVMSave.iofailed s)).
Proof.
  intros (Hpos & Hsize & Hmax) Hcnt Hsum n. unfold OutVMSave.write.
  rewrite (int32_small cnt) by lia.
  assert (Hfit : fits_int (OutVMSave._pos s + cnt) = true)
    by (apply fits_int_iff; lia).
  assert (Hfit' : fits_int (OutVMSave.size s - OutVMSave._pos s) = true)
    by (apply fits_int_iff; lia).
  rewrite Hfit, Hfit'. cbn [negb]. rewrite andb_false_r.
  destruct (OutVMSave.size s <? OutVMSave._pos s + cnt) eqn:Hshort.
  - apply Z.ltb_lt in Hshort.
    assert (Hn : n = OutVMSave.size s - OutVMSave._pos s) by (unfold n; lia).
    rewrite Hn.
    rewrite int32_uint32, (uint32_small (OutVMSave.size s - OutVMSave._pos s)),
      (int32_small (OutVMSave.size s - OutVMSave._pos s)) by lia.
    destruct (OutVMSave.size s - OutVMSave._pos s =? 0); [reflexivity |].
    assert (Hin : (0 <=? OutVMSave.size s - OutVMSave._pos s)
                  && (0 <=? OutVMSave._pos s)
                  && (OutVMSave._pos s + (OutVMSave.size s - OutVMSave._pos s)
                      <=? Z.of_nat (length (OutVMSave.buffer s)))
                  && (OutVMSave.size s - OutVMSave._pos s
                      <=? Z.of_nat (length data)) = true).
    { rewrite !andb_true_iff, !Z.leb_le. lia. }
    rewrite Hin. reflexivity.
  - apply Z.ltb_ge in Hshort.
    assert (Hn : n = cnt) by (unfold n; lia).
    rewrite Hn.
    destruct (cnt =? 0); [reflexivity |].
    assert (Hin : (0 <=? cnt) && (0 <=? OutVMSave._pos s)
                  && (OutVMSave._pos s + cnt
                      <=? Z.of_nat (length (OutVMSave.buffer s)))
                  && (cnt <=? Z.of_nat (length data)) = true).
    { rewrite !andb_true_iff, !Z.leb_le. lia. }
    rewrite Hin. reflexivity.
Qed.

(** X16.  A write to a save stream that is in order never goes past
    the end of its buffer: it stores the first bytes of the data at the
    position, as many as were given or as there is room for, returns
    their number and moves the position by it.  What has been written so
    far grows by these bytes, the rest of the buffer is as before, and a
    write that was cut short or found no room is not marked as a
    failure.  The stream stays in order. *)
Theorem OutVMSave_write_appends (data : list byte) (cnt : Z) (s : OutVMSave.t) :
  OutVMSave.ok s -> 0 <= cnt <= Z.of_nat (length data) ->
  OutVMSave._pos s + cnt < 2 ^ 31 ->
  exists n s',
    OutVMSave.write data cnt s = Some (n, s') /\
    n = Z.min cnt (OutVMSave.size s - OutVMSave._pos s) /\
    OutVMSave._pos s' = OutVMSave._pos s + n /\
    firstn (Z.to_nat (OutVMSave._pos s')) (OutVMSave.buffer s')
    = firstn (Z.to_nat (OutVMSave._pos s)) (OutVMSave.buffer s)
      ++ firstn (Z.to_nat n) data /\
    skipn (Z.to_nat (OutVMSave._pos s')) (OutVMSave.buffer s')
    = skipn (Z.to_nat (OutVMSave._pos s')) (OutVMSave.buffer s) /\
    OutVMSave.size s' = OutVMSave.size s /\
    OutVMSave.committed s' = OutVMSave.committed s /\
    OutVMSave.iofailed s' = OutVMSave.iofailed s /\
    OutVMSave.ok s'.
Proof.
  intros Hok Hcnt Hsum.
  pose proof (OutVMSave_write_ok data cnt s Hok Hcnt Hsum) as Hwrite.
  cbv zeta in Hwrite. destruct Hok as (Hpos & Hsize & Hmax).
  set (n := Z.min cnt (OutVMSave.size s - OutVMSave._pos s)) in *.
  do 2 eexists. split; [exact Hwrite |]. split; [reflexivity |].
  destruct (n =? 0) eqn:Hzero.
  - apply Z.eqb_eq in Hzero. rewrite Hzero, Z.add_0_r.
    cbn [Z.to_nat firstn]. rewrite app_nil_r.
    repeat split; try assumption; try lia.
  - apply Z.eqb_neq in Hzero.
    assert (Hn : 0 < n) by (unfold n in *; lia).
    cbn [OutVMSave._pos OutVMSave.buffer OutVMSave.size OutVMSave.committed
         OutVMSave.iofailed].
    assert (Hl1 : length (firstn (Z.to_nat (OutVMSave._pos s))
                                 (OutVMSave.buffer s))
                  = Z.to_nat (OutVMSave._pos s))
      by (rewrite length_firstn; lia).
    assert (Hl2 : length (firstn (Z.to_nat n) data) = Z.to_nat n)
      by (rewrite length_firstn; unfold n; lia).
    split; [reflexivity |]. split; [| split].
    + rewrite app_assoc, firstn_app.
      rewrite length_app, Hl1, Hl2.
      replace (Z.to_nat (OutVMSave._pos s + n)
               - (Z.to_nat (OutVMSave._pos s) + Z.to_nat n))%nat
        with 0%nat by lia.
      cbn [firstn]. rewrite app_nil_r.
      apply firstn_all2. rewrite length_app, Hl1, Hl2. lia.
    + rewrite app_assoc, skipn_app.
      rewrite length_app, Hl1, Hl2.
      rewrite skipn_all2 by (rewrite length_app, Hl1, Hl2; lia).
      replace (Z.to_nat (OutVMSave._pos s + n)
               - (Z.to_nat (OutVMSave._pos s) + Z.to_nat n))%nat
        with 0%nat by lia.
      reflexivity.
    + repeat split; try lia; unfold OutVMSave.ok;
        cbn [OutVMSave._pos OutVMSave.buffer OutVMSave.size];
        try (unfold n; lia).
      repeat split; try (unfold n; lia).
      rewrite !length_app, Hl1, Hl2, length_skipn. unfold n. lia.
Qed.

Lemma fits_int_false_iff (z : Z) :
  fits_int z = false <-> z < - 2 ^ 31 \/ 2 ^ 31 <= z.
Proof.
  unfold fits_int. rewrite andb_false_iff, Z.leb_gt, Z.ltb_ge. reflexivity.
Qed.

(** X17.  [finalize] hands to [writeSaveGame] the bytes before the
    position whenever the position lies above what was committed, and
    only then.  That is so for a stream nothing was written to, which the
    constructor leaves with nothing committed (-1) at position 0: its
    [finalize] saves a file of no bytes.  The call then commits the
    position and marks the stream as failed when the answer is not
    VMSAVE_OK; the call after any call finds nothing to commit and does
    nothing.  [finalize] is undefined only where [writeSaveGame] is. *)
Theorem OutVMSave_finalize_commits_once units units' lastvm
        (s : OutVMSave.t) :
  (OutVMSave.finalize units lastvm s = None <->
   OutVMSave.committed s < OutVMSave._pos s /\
   writeSaveGame units (OutVMSave._pos s) lastvm = None) /\
  (forall fresh r lv,
      writeSaveGame units 0 lastvm = Some (r, lv) ->
      OutVMSave.finalize units lastvm (OutVMSave.create fresh)
      = Some (Some ([], r), lv,
              OutVMSave.mk fresh 0 MAX_SAVE_SIZE 0
                           (match r with
                            | VMSAVE_OK => false
                            | _ => true
                            end))) /\
  forall e lv s1,
    OutVMSave.finalize units lastvm s = Some (e, lv, s1) ->
    OutVMSave.finalize units' lv s1 = Some (None, lv, s1) /\
    (OutVMSave._pos s <= OutVMSave.committed s ->
     e = None /\ lv = lastvm /\ s1 = s) /\
    (OutVMSave.committed s < OutVMSave._pos s ->
     exists r,
       writeSaveGame units (OutVMSave._pos s) lastvm = Some (r, lv) /\
       e = Some (firstn (Z.to_nat (OutVMSave._pos s)) (OutVMSave.buffer s),
                 r) /\
       OutVMSave.committed s1 = OutVMSave._pos s /\
       OutVMSave._pos s1 = OutVMSave._pos s /\
       OutVMSave.buffer s1 = OutVMSave.buffer s /\
       OutVMSave.size s1 = OutVMSave.size s /\
       (r = VMSAVE_OK -> OutVMSave.iofailed s1 = OutVMSave.iofailed s) /\
       (r <> VMSAVE_OK -> OutVMSave.iofailed s1 = true)).
Proof.
  split; [| split].
  - unfold OutVMSave.finalize.
    destruct (OutVMSave._pos s <=? OutVMSave.committed s) eqn:Hdone;
      [apply Z.leb_le in Hdone | apply Z.leb_gt in Hdone].
    + split; [discriminate | intros [Hlt _]; lia].
    + destruct (writeSaveGame units (OutVMSave._pos s) lastvm)
        as [[r lv'] |]; split;
        [discriminate | intros [_ Hnone]; discriminate Hnone
        | intros _; split; [exact Hdone | reflexivity]
        | reflexivity].
  - intros fresh r lv Hsave. unfold OutVMSave.finalize, OutVMSave.create.
    cbn [OutVMSave._pos OutVMSave.committed OutVMSave.buffer
         OutVMSave.size OutVMSave.iofailed].
    change (0 <=? -1) with false. cbv iota. rewrite Hsave. reflexivity.
  - intros e lv s1. unfold OutVMSave.finalize at 1.
    destruct (OutVMSave._pos s <=? OutVMSave.committed s) eqn:Hdone.
    + intros Heq. injection Heq as <- <- <-. apply Z.leb_le in Hdone.
      split; [| split].
      * unfold OutVMSave.finalize.
        apply Z.leb_le in Hdone. rewrite Hdone. reflexivity.
      * intros _. repeat split.
      * intros Hlt. lia.
    + apply Z.leb_gt in Hdone.
      destruct (writeSaveGame units (OutVMSave._pos s) lastvm)
        as [[r lv'] |] eqn:Hw; [| discriminate].
      intros Heq. injection Heq as <- <- <-.
      split; [| split].
      * unfold OutVMSave.finalize.
        cbn [OutVMSave._pos OutVMSave.committed].
        rewrite Z.leb_refl. reflexivity.
      * intros Hle. lia.
      * intros _. exists r.
        cbn [OutVMSave._pos OutVMSave.committed OutVMSave.size
             OutVMSave.buffer OutVMSave.iofailed].
        repeat split.
        -- intros ->. reflexivity.
        -- intros Hr. destruct r; [contradiction | | |]; reflexivity.
Qed.

(** X18.  [trySave] answers VMSAVE_NOVM when the unit or its superblock
    cannot be read.  When they can, it adds the blocks of the file it
    replaces to the free ones and 640 and then 511 to the size, as
    [int]s, which is undefined where a sum is not an [int]: a size of
    2^31 - 1151 or more, for one.  Where the sums are [int]s it asks for
    the blocks of 512 bytes that hold the save and 640 bytes before it,
    rounded up: it answers VMSAVE_NOSPACE when the free blocks and those
    of the replaced file are fewer, and else VMSAVE_OK or
    VMSAVE_WRITEERROR as the file could be created or not. *)
Theorem trySave_needs_blocks (size : Z) (c : Card) :
  - 2 ^ 31 <= size < 2 ^ 31 ->
  let needed := (size + 640 + 511) / 512 in
  let room := count_free c
              + match open_file c with Some blks => blks | None => 0 end in
  let reached := check_unit c = true /\ get_superblock c = true in
  let summed := size + 1151 < 2 ^ 31 /\
                (open_file c <> None -> - 2 ^ 31 <= room < 2 ^ 31) in
  512 * (needed - 1) < size + 640 <= 512 * needed /\
  (trySave size c = Some VMSAVE_NOVM <->
   check_unit c = false \/ get_superblock c = false) /\
  (trySave size c = None <-> reached /\ ~ summed) /\
  (trySave size c = Some VMSAVE_NOSPACE <->
   reached /\ summed /\ room < needed) /\
  (trySave size c = Some VMSAVE_WRITEERROR <->
   reached /\ summed /\ needed <= room /\ create_file c = false) /\
  (trySave size c = Some VMSAVE_OK <->
   reached /\ summed /\ needed <= room /\ create_file c = true).
Proof.
  intros Hsize needed room reached summed.
  assert (Hshift : Z.shiftr (128 + 512 + size + 511) 9 = needed).
  { rewrite Z.shiftr_div_pow2 by lia. unfold needed.
    change (2 ^ 9) with 512. f_equal. lia. }
  split.
  { unfold needed.
    pose proof (Z.div_mod (size + 640 + 511) 512 ltac:(lia)) as Hdm.
    pose proof (Z.mod_pos_bound (size + 640 + 511) 512 ltac:(lia)) as Hm.
    lia. }
  unfold trySave, reached, summed, room. cbv zeta. rewrite Hshift.
  destruct (check_unit c), (get_superblock c); cbn [negb];
    try (repeat split; intros;
         repeat match goal with
                | H : _ /\ _ |- _ => destruct H
                | H : _ \/ _ |- _ => destruct H
                end; try discriminate; auto; fail).
  destruct (open_file c) as [blks |].
  - destruct (fits_int (count_free c + blks)) eqn:Hroom;
      [apply fits_int_iff in Hroom | apply fits_int_false_iff in Hroom];
      destruct (fits_int (128 + 512 + size)) eqn:Hhead;
      [apply fits_int_iff in Hhead | apply fits_int_false_iff in Hhead
      | apply fits_int_iff in Hhead | apply fits_int_false_iff in Hhead];
      cbn [negb];
      destruct (fits_int (128 + 512 + size + 511)) eqn:Hsum;
      rewrite ?fits_int_iff, ?fits_int_false_iff in Hsum; cbn [negb];
      destruct (count_free c + blks <? needed) eqn:Hlt;
      rewrite ?Z.ltb_lt, ?Z.ltb_ge in Hlt;
      destruct (create_file c); cbn [negb];
      repeat split; intros;
      repeat match goal with
             | H : _ /\ _ |- _ => destruct H
             | H : _ \/ _ |- _ => destruct H
             | H : ~ (_ /\ _) |- _ => exfalso; apply H; clear H
             | H : Some _ <> None -> _ |- _ =>
                 specialize (H ltac:(discriminate))
             end;
      try discriminate; try congruence; try lia; try (exfalso; lia);
      try (intros [Ha Hb]; specialize (Hb ltac:(discriminate)); lia).
  - destruct (fits_int (128 + 512 + size)) eqn:Hhead;
      [apply fits_int_iff in Hhead | apply fits_int_false_iff in Hhead];
      cbn [negb];
      destruct (fits_int (128 + 512 + size + 511)) eqn:Hsum;
      rewrite ?fits_int_iff, ?fits_int_false_iff in Hsum; cbn [negb];
      destruct (count_free c <? needed) eqn:Hlt;
      rewrite ?Z.ltb_lt, ?Z.ltb_ge in Hlt;
      destruct (create_file c); cbn [negb];
      repeat split; intros;
      repeat match goal with
             | H : _ /\ _ |- _ => destruct H
             | H : _ \/ _ |- _ => destruct H
             | H : ~ (_ /\ _) |- _ => exfalso; apply H; clear H
             end;
      try discriminate; try congruence; try lia;
      try (intros [Ha Hb]; lia);
      try (split; [lia | intros Hn; exfalso; apply Hn; reflexivity]).
Qed.

(** An attempt that answers, and not with VMSAVE_OK. *)
Lemma vmsaveResult_ok_or_not (r : vmsaveResult) :
  r = VMSAVE_OK \/ r <> VMSAVE_OK.
Proof. destruct r; [left; reflexivity | right; discriminate ..]. Qed.

Lemma writeSaveGame_loop_round units size (n : nat) i k res r0 :
  trySave size (units k i) = Some r0 -> r0 <> VMSAVE_OK ->
  writeSaveGame_loop units size (S n) i k res
  = writeSaveGame_loop units size n (i + 1) (S k)
      (if vmsave_rank res <? vmsave_rank r0 then r0 else res).
Proof.
  intros Hfirst Hne. cbn [writeSaveGame_loop]. rewrite Hfirst.
  destruct r0; [contradiction | reflexivity ..].
Qed.

Lemma writeSaveGame_loop_result units size (n : nat) :
  forall i k res r o,
    writeSaveGame_loop units size n i k res = Some (r, o) ->
    match o with
    | Some j =>
        r = VMSAVE_OK /\
        exists m, (m < n)%nat /\ j = i + Z.of_nat m /\
                  trySave size (units (k + m)%nat j) = Some VMSAVE_OK /\
                  forall m', (m' < m)%nat ->
                             exists r',
                               trySave size (units (k + m')%nat
                                                   (i + Z.of_nat m'))
                               = Some r' /\ r' <> VMSAVE_OK
    | None =>
        vmsave_rank res <= vmsave_rank r /\
        (forall m, (m < n)%nat ->
                   exists r',
                     trySave size (units (k + m)%nat (i + Z.of_nat m))
                     = Some r' /\ r' <> VMSAVE_OK /\
                     vmsave_rank r' <= vmsave_rank r) /\
        (r = res \/
         exists m, (m < n)%nat /\
                   trySave size (units (k + m)%nat (i + Z.of_nat m))
                   = Some r)
    end.
Proof.
  induction n as [| n IH]; intros i k res r o.
  - cbn [writeSaveGame_loop]. intros Heq. injection Heq as <- <-.
    split; [lia |]. split; [intros m Hm; lia | left; reflexivity].
  - destruct (trySave size (units k i)) as [r0 |] eqn:Hfirst;
      [| cbn [writeSaveGame_loop]; rewrite Hfirst; discriminate].
    destruct (vmsaveResult_ok_or_not r0) as [-> | Hne].
    + cbn [writeSaveGame_loop]. rewrite Hfirst.
      intros Heq. injection Heq as <- <-. split; [reflexivity |].
      exists 0%nat. rewrite Nat.add_0_r, Z.add_0_r.
      repeat split; [lia | exact Hfirst | intros m' Hm'; lia].
    + rewrite (writeSaveGame_loop_round _ _ _ _ _ _ _ Hfirst Hne).
      intros Hrest. apply IH in Hrest.
      destruct o as [j |].
      * destruct Hrest as (Hr & m & Hm & Hj & Hok & Hbefore).
        split; [exact Hr |].
        exists (S m). split; [lia |]. split; [lia |]. split.
        -- replace (k + S m)%nat with (S k + m)%nat by lia. exact Hok.
        -- intros m' Hm'. destruct m' as [| m'].
           ++ rewrite Nat.add_0_r, Z.add_0_r. exists r0.
              split; [exact Hfirst | exact Hne].
           ++ replace (k + S m')%nat with (S k + m')%nat by lia.
              replace (i + Z.of_nat (S m')) with (i + 1 + Z.of_nat m')
                by lia.
              apply Hbefore. lia.
      * destruct Hrest as (Hrank & Hall & Hfrom).
        assert (Hres : vmsave_rank res <= vmsave_rank r /\
                       vmsave_rank r0 <= vmsave_rank r).
        { revert Hrank.
          destruct (vmsave_rank res <? vmsave_rank r0) eqn:Hlt;
            [apply Z.ltb_lt in Hlt | apply Z.ltb_ge in Hlt];
            intros Hrank; lia. }
        destruct Hres as [Hres Hthis].
        split; [exact Hres |]. split.
        -- intros m Hm. destruct m as [| m].
           ++ rewrite Nat.add_0_r, Z.add_0_r. exists r0.
              split; [exact Hfirst |]. split; [exact Hne | exact Hthis].
           ++ replace (k + S m)%nat with (S k + m)%nat by lia.
              replace (i + Z.of_nat (S m)) with (i + 1 + Z.of_nat m)
                by lia.
              apply Hall. lia.
        -- destruct Hfrom as [Hfrom | (m & Hm & Hfrom)].
           ++ revert Hfrom.
              destruct (vmsave_rank res <? vmsave_rank r0);
                intros ->; [| left; reflexivity].
              right. exists 0%nat. rewrite Nat.add_0_r, Z.add_0_r.
              split; [lia | exact Hfirst].
           ++ right. exists (S m). split; [lia |].
              replace (k + S m)%nat with (S k + m)%nat by lia.
              replace (i + Z.of_nat (S m)) with (i + 1 + Z.of_nat m)
                by lia.
              exact Hfrom.
Qed.

(** The loop is undefined where an attempt it makes is. *)
Lemma writeSaveGame_loop_undefined units size (n : nat) :
  forall i k res,
    writeSaveGame_loop units size n i k res = None <->
    exists m, (m < n)%nat /\
              trySave size (units (k + m)%nat (i + Z.of_nat m)) = None /\
              forall m', (m' < m)%nat ->
                         exists r',
                           trySave size (units (k + m')%nat
                                               (i + Z.of_nat m'))
                           = Some r' /\ r' <> VMSAVE_OK.
Proof.
  induction n as [| n IH]; intros i k res.
  - cbn [writeSaveGame_loop]. split; [discriminate |].
    intros (m & Hm & _). lia.
  - destruct (trySave size (units k i)) as [r0 |] eqn:Hfirst.
    + destruct (vmsaveResult_ok_or_not r0) as [-> | Hne].
      * cbn [writeSaveGame_loop]. rewrite Hfirst.
        split; [discriminate |].
        intros (m & Hm & Hnone & Hbefore). destruct m as [| m].
        -- rewrite Nat.add_0_r, Z.add_0_r, Hfirst in Hnone.
           discriminate Hnone.
        -- destruct (Hbefore 0%nat ltac:(lia)) as (r' & Hr' & Hne).
           rewrite Nat.add_0_r, Z.add_0_r, Hfirst in Hr'.
           injection Hr' as <-. contradiction.
      * rewrite (writeSaveGame_loop_round _ _ _ _ _ _ _ Hfirst Hne).
        rewrite IH. split.
        -- intros (m & Hm & Hnone & Hbefore).
           exists (S m). split; [lia |]. split.
           ++ replace (k + S m)%nat with (S k + m)%nat by lia.
              replace (i + Z.of_nat (S m)) with (i + 1 + Z.of_nat m)
                by lia.
              exact Hnone.
           ++ intros m' Hm'. destruct m' as [| m'].
              ** rewrite Nat.add_0_r, Z.add_0_r. exists r0.
                 split; [exact Hfirst | exact Hne].
              ** replace (k + S m')%nat with (S k + m')%nat by lia.
                 replace (i + Z.of_nat (S m')) with (i + 1 + Z.of_nat m')
                   by lia.
                 apply Hbefore. lia.
        -- intros (m & Hm & Hnone & Hbefore). destruct m as [| m].
           ++ rewrite Nat.add_0_r, Z.add_0_r, Hfirst in Hnone.
              discriminate Hnone.
           ++ exists m. split; [lia |]. split.
              ** replace (S k + m)%nat with (k + S m)%nat by lia.
                 replace (i + 1 + Z.of_nat m) with (i + Z.of_nat (S m))
                   by lia.
                 exact Hnone.
              ** intros m' Hm'.
                 replace (S k + m')%nat with (k + S m')%nat by lia.
                 replace (i + 1 + Z.of_nat m') with (i + Z.of_nat (S m'))
                   by lia.
                 apply Hbefore. lia.
    + cbn [writeSaveGame_loop]. rewrite Hfirst.
      split; [intros _ | reflexivity].
      exists 0%nat. rewrite Nat.add_0_r, Z.add_0_r.
      split; [lia |]. split; [exact Hfirst | intros m' Hm'; lia].
Qed.

(** [writeSaveGame] is its loop, after the attempt at the remembered
    unit if there is one. *)
Lemma writeSaveGame_closed_form units size lastvm :
  let finish := fun run : option (vmsaveResult * option Z) =>
                  match run with
                  | None => None
                  | Some (r, Some i) => Some (r, i)
                  | Some (r, None) => Some (r, lastvm)
                  end in
  writeSaveGame units size lastvm
  = if 0 <=? lastvm then
      match trySave size (units 0%nat lastvm) with
      | None => None
      | Some r1 =>
          match r1 with
          | VMSAVE_OK => Some (VMSAVE_OK, lastvm)
          | _ => finish (writeSaveGame_loop units size 24 0 1 r1)
          end
      end
    else finish (writeSaveGame_loop units size 24 0 0 VMSAVE_NOVM).
Proof.
  unfold writeSaveGame. cbv zeta.
  destruct (0 <=? lastvm); [| reflexivity].
  destruct (trySave size (units 0%nat lastvm)) as [[| | |] |]; reflexivity.
Qed.

(** X19.  [writeSaveGame] saves on the first unit that takes the save,
    trying the unit remembered from the last save before the twenty-four
    units in order, and remembers the unit it saved on.  When no unit
    takes the save it leaves the remembered unit as it is and answers
    with the gravest of the answers it got (no card, then no space, then
    write error), or with VMSAVE_NOVM.  It is undefined exactly where an
    attempt it makes is: the one at the remembered unit, or one of the
    twenty-four when every attempt before it answered, and not with
    VMSAVE_OK. *)
Theorem writeSaveGame_first_success_or_gravest_error units size lastvm :
  let first := trySave size (units 0%nat lastvm) in
  let k0 := if 0 <=? lastvm then 1%nat else 0%nat in
  let attempt := fun m : nat =>
                   trySave size (units (k0 + m)%nat (Z.of_nat m)) in
  let fails := fun a : option vmsaveResult =>
                 exists r', a = Some r' /\ r' <> VMSAVE_OK in
  (writeSaveGame units size lastvm = None <->
   (0 <= lastvm /\ first = None) \/
   ((lastvm < 0 \/ fails first) /\
    exists m, (m < 24)%nat /\ attempt m = None /\
              forall m', (m' < m)%nat -> fails (attempt m'))) /\
  forall r lv,
    writeSaveGame units size lastvm = Some (r, lv) ->
    (r = VMSAVE_OK ->
     (0 <= lastvm /\ first = Some VMSAVE_OK /\ lv = lastvm) \/
     ((lastvm < 0 \/ fails first) /\
      exists m, (m < 24)%nat /\ lv = Z.of_nat m /\
                attempt m = Some VMSAVE_OK /\
                forall m', (m' < m)%nat -> fails (attempt m'))) /\
    (r <> VMSAVE_OK ->
     lv = lastvm /\
     (0 <= lastvm ->
      exists r1, first = Some r1 /\ r1 <> VMSAVE_OK /\
                 vmsave_rank r1 <= vmsave_rank r) /\
     (forall m, (m < 24)%nat ->
                exists rm, attempt m = Some rm /\ rm <> VMSAVE_OK /\
                           vmsave_rank rm <= vmsave_rank r) /\
     (r = VMSAVE_NOVM \/ (0 <= lastvm /\ first = Some r) \/
      exists m, (m < 24)%nat /\ attempt m = Some r)).
Proof.
  intros first k0 attempt fails.
  pose proof (writeSaveGame_closed_form units size lastvm) as Hform.
  cbv zeta in Hform.
  assert (Hcases :
            (0 <= lastvm /\ first = None /\
             writeSaveGame units size lastvm = None) \/
            (0 <= lastvm /\ first = Some VMSAVE_OK /\
             writeSaveGame units size lastvm = Some (VMSAVE_OK, lastvm)) \/
            exists res,
              ((0 <= lastvm /\ first = Some res /\ res <> VMSAVE_OK) \/
               (lastvm < 0 /\ res = VMSAVE_NOVM)) /\
              writeSaveGame units size lastvm
              = match writeSaveGame_loop units size 24 0 k0 res with
                | None => None
                | Some (r, Some i) => Some (r, i)
                | Some (r, None) => Some (r, lastvm)
                end).
  { rewrite Hform. subst first k0.
    destruct (0 <=? lastvm) eqn:Hlast;
      [apply Z.leb_le in Hlast | apply Z.leb_gt in Hlast].
    - destruct (trySave size (units 0%nat lastvm)) as [r1 |] eqn:Hfirst;
        [| left; repeat split; exact Hlast].
      destruct (vmsaveResult_ok_or_not r1) as [-> | Hne];
        [right; left; repeat split; exact Hlast |].
      right. right. exists r1. split.
      + left. repeat split; assumption.
      + destruct r1; [contradiction | reflexivity ..].
    - right. right. exists VMSAVE_NOVM. split; [| reflexivity].
      right. split; [exact Hlast | reflexivity]. }
  assert (Hbefore : forall res,
             (0 <= lastvm /\ first = Some res /\ res <> VMSAVE_OK) \/
             (lastvm < 0 /\ res = VMSAVE_NOVM) ->
             lastvm < 0 \/ fails first).
  { intros res [(_ & Hf & Hne) | (Hneg & _)]; [right | left; exact Hneg].
    exists res. split; assumption. }
  split.
  - destruct Hcases as [(Hlast & Hfirst & ->)
                       | [(Hlast & Hfirst & ->) | (res & Hres & ->)]].
    + split; [intros _; left; split; assumption | reflexivity].
    + split; [discriminate |].
      intros [(_ & Hnone) | ([Hneg | (r' & Hr' & Hne)] & _)].
      * rewrite Hfirst in Hnone. discriminate Hnone.
      * lia.
      * rewrite Hfirst in Hr'. injection Hr' as <-. contradiction.
    + pose proof (writeSaveGame_loop_undefined units size 24 0 k0 res)
        as Hundef.
      destruct (writeSaveGame_loop units size 24 0 k0 res)
        as [[r [i |]] |] eqn:Hloop.
      * split; [discriminate |].
        intros [(Hlast & Hnone) | (_ & m & Hm & Hnone & Hprev)].
        -- destruct Hres as [(_ & Hf & _) | (Hneg & _)];
             [rewrite Hf in Hnone; discriminate Hnone | lia].
        -- assert (Hbad : Some (r, Some i) = None); [| discriminate Hbad].
           apply Hundef. exists m. split; [exact Hm |].
           rewrite Z.add_0_l. split; [exact Hnone |].
           intros m' Hm'. rewrite Z.add_0_l. apply Hprev, Hm'.
      * split; [discriminate |].
        intros [(Hlast & Hnone) | (_ & m & Hm & Hnone & Hprev)].
        -- destruct Hres as [(_ & Hf & _) | (Hneg & _)];
             [rewrite Hf in Hnone; discriminate Hnone | lia].
        -- assert (Hbad : Some (r, @None Z) = None); [| discriminate Hbad].
           apply Hundef. exists m. split; [exact Hm |].
           rewrite Z.add_0_l. split; [exact Hnone |].
           intros m' Hm'. rewrite Z.add_0_l. apply Hprev, Hm'.
      * split; [intros _ | reflexivity].
        right. split; [apply (Hbefore res Hres) |].
        destruct Hundef as [Hundef _].
        destruct (Hundef eq_refl) as (m & Hm & Hnone & Hprev).
        exists m. rewrite Z.add_0_l in Hnone.
        split; [exact Hm |]. split; [exact Hnone |].
        intros m' Hm'. specialize (Hprev m' Hm').
        rewrite Z.add_0_l in Hprev. exact Hprev.
  - intros r lv Hrun.
    destruct Hcases as [(Hlast & Hfirst & Hnone)
                       | [(Hlast & Hfirst & Hok) | (res & Hres & Hloop)]].
    + rewrite Hnone in Hrun. discriminate Hrun.
    + rewrite Hok in Hrun. injection Hrun as <- <-.
      split; [intros _; left; repeat split; assumption |].
      intros Hne. contradiction.
    + rewrite Hloop in Hrun.
      destruct (writeSaveGame_loop units size 24 0 k0 res)
        as [[r' o] |] eqn:Hrun'; [| discriminate Hrun].
      apply writeSaveGame_loop_result in Hrun'.
      destruct o as [j |]; injection Hrun as <- <-.
      * destruct Hrun' as (-> & m & Hm & Hj & Hok & Hprev).
        split; [| intros Hne; contradiction].
        intros _. right. split; [apply (Hbefore res Hres) |].
        exists m. rewrite Z.add_0_l in Hj. subst j.
        repeat split; [exact Hm | exact Hok |].
        intros m' Hm'. specialize (Hprev m' Hm').
        rewrite Z.add_0_l in Hprev. exact Hprev.
      * destruct Hrun' as (Hrank & Hall & Hfrom).
        assert (Hne : r' <> VMSAVE_OK).
        { intros ->. cbn [vmsave_rank] in Hrank.
          destruct Hres as [(_ & _ & Hnf) | (_ & ->)].
          - destruct res; cbn [vmsave_rank] in Hrank;
              [contradiction | lia | lia | lia].
          - cbn [vmsave_rank] in Hrank. lia. }
        split; [intros Hr; contradiction |].
        intros _. split; [reflexivity |]. split; [| split].
        -- intros Hlast.
           destruct Hres as [(_ & Hf & Hnf) | (Hneg & _)]; [| lia].
           exists res. repeat split; assumption.
        -- intros m Hm. specialize (Hall m Hm).
           rewrite Z.add_0_l in Hall. exact Hall.
        -- destruct Hfrom as [-> | (m & Hm & Hfrom)].
           ++ destruct Hres as [(Hlast & Hf & _) | (_ & ->)];
                [right; left; split; [exact Hlast | exact Hf]
                | left; reflexivity].
           ++ right. right. exists m. rewrite Z.add_0_l in Hfrom.
              split; [exact Hm | exact Hfrom].
Qed.

(** ** The save streams at the samples *)

Lemma sample_save_ok : InVMSave.ok sample_save.
Proof. unfold InVMSave.ok. cbn. lia. Qed.

Lemma sample_out_ok : OutVMSave.ok sample_out.
Proof. unfold OutVMSave.ok. cbn. lia. Qed.

Lemma InVMSave_read_stays_in_save_witness :
  exists bytes s',
    InVMSave.read 5 sample_save = Some (bytes, 2, s') /\
    bytes = [Byte.x07; Byte.x08] /\
    InVMSave._pos s' = 8 /\ InVMSave._eos s' = true.
Proof.
  destruct (InVMSave_read_stays_in_save 5 sample_save sample_save_ok)
    as (bytes & n & s' & Hread & Hn & _ & Hbytes & Hpos & Heos & _);
    [lia | cbn; lia |].
  exists bytes, s'. rewrite Hn in Hread, Hbytes, Hpos.
  split; [exact Hread |]. split; [exact Hbytes |].
  split; [exact Hpos | exact Heos].
Defined.

Lemma InVMSave_seek_stays_in_save_witness :
  InVMSave.seek 100 SEEK_CUR sample_save
  = Some (true, InVMSave.mk (InVMSave.buffer sample_save) 8 8 false) /\
  InVMSave.seek (-3) SEEK_END sample_save
  = Some (true, InVMSave.mk (InVMSave.buffer sample_save) 5 8 false) /\
  InVMSave.seek 4294967297 SEEK_SET sample_save
  = Some (true, InVMSave.mk (InVMSave.buffer sample_save) 1 8 false).
Proof.
  split; [| split].
  - destruct (InVMSave_seek_stays_in_save sample_save 100 SEEK_CUR)
      as [Hseek _]; [cbn; lia | cbn; lia | lia |].
    apply Hseek. vm_compute. split; [discriminate | reflexivity].
  - destruct (InVMSave_seek_stays_in_save sample_save (-3) SEEK_END)
      as [Hseek _]; [cbn; lia | cbn; lia | lia |].
    apply Hseek. vm_compute. split; [discriminate | reflexivity].
  - destruct (InVMSave_seek_stays_in_save sample_save 4294967297 SEEK_SET)
      as [Hseek _]; [cbn; lia | cbn; lia | lia |].
    apply Hseek. vm_compute. split; [discriminate | reflexivity].
Defined.

Lemma InVMSave_seek_then_read_witness :
  exists s1 s2,
    InVMSave.seek 2 SEEK_SET sample_save = Some (true, s1) /\
    InVMSave.read 3 s1 = Some ([Byte.x03; Byte.x04; Byte.x05], 3, s2).
Proof.
  destruct (InVMSave_seek_then_read sample_save 2 3 sample_save_ok)
    as (s1 & s2 & Hseek & Hread & _); [lia | lia | cbn; lia |].
  exists s1, s2. split; [exact Hseek | exact Hread].
Defined.



Lemma InVMSave_skip_of_huge_count_goes_back_witness :
  InVMSave.skip 4294967289 sample_save
  = Some (true, InVMSave.mk (InVMSave.buffer sample_save) (-1) 8 false) /\
  InVMSave.read 1 (InVMSave.mk (InVMSave.buffer sample_save) (-1) 8 false)
  = None.
Proof.
  destruct (InVMSave_skip_of_huge_count_goes_back
              sample_save 4294967289 sample_save_ok)
    as [Hskip Hread]; [lia |].
  split; [exact Hskip |].
  apply (Hread ltac:(cbn; lia) 1); cbn; lia.
Defined.

Lemma OutVMSave_write_appends_witness :
  exists s',
    OutVMSave.write [Byte.x0a; Byte.x0b; Byte.x0c] 3 sample_out
    = Some (2, s') /\
    firstn (Z.to_nat (OutVMSave._pos s')) (OutVMSave.buffer s')
    = [Byte.x01; Byte.x02; Byte.x0a; Byte.x0b] /\
    OutVMSave.iofailed s' = false.
Proof.
  destruct (OutVMSave_write_appends
              [Byte.x0a; Byte.x0b; Byte.x0c] 3 sample_out sample_out_ok)
    as (n & s' & Hwrite & Hn & _ & Hwritten & _ & _ & _ & Hfailed & _);
    [cbn; lia | cbn; lia |].
  exists s'. rewrite Hn in Hwrite, Hwritten.
  split; [exact Hwrite |]. split; [exact Hwritten | exact Hfailed].
Defined.

Lemma OutVMSave_finalize_commits_once_witness :
  OutVMSave.finalize only_unit_3 (-1)
                     (OutVMSave.create (repeat Byte.x00 (Z.to_nat MAX_SAVE_SIZE)))
  = Some (Some ([], VMSAVE_OK), 3,
          OutVMSave.mk (repeat Byte.x00 (Z.to_nat MAX_SAVE_SIZE))
                       0 MAX_SAVE_SIZE 0 false) /\
  OutVMSave.finalize only_unit_3 3
    (OutVMSave.mk (OutVMSave.buffer sample_out) 2 4 2 false)
  = Some (None, 3, OutVMSave.mk (OutVMSave.buffer sample_out) 2 4 2 false).
Proof.
  split.
  - destruct (OutVMSave_finalize_commits_once
                only_unit_3 only_unit_3 (-1) sample_out)
      as (_ & Hfresh & _).
    apply (Hfresh (repeat Byte.x00 (Z.to_nat MAX_SAVE_SIZE)) VMSAVE_OK 3).
    vm_compute. reflexivity.
  - destruct (OutVMSave_finalize_commits_once
                only_unit_3 only_unit_3 (-1) sample_out)
      as (_ & _ & Hafter).
    destruct (Hafter (Some ([Byte.x01; Byte.x02], VMSAVE_OK)) 3
                     (OutVMSave.mk (OutVMSave.buffer sample_out) 2 4 2 false))
      as [Hagain _]; [vm_compute; reflexivity | exact Hagain].
Defined.

Lemma trySave_needs_blocks_witness :
  trySave 1000 card_with_three_blocks = Some VMSAVE_NOSPACE /\
  trySave (2 ^ 31 - 1151) card_with_three_blocks = None.
Proof.
  split.
  - destruct (trySave_needs_blocks 1000 card_with_three_blocks)
      as (_ & _ & _ & Hnospace & _); [lia |].
    apply Hnospace. vm_compute.
    repeat split; try discriminate; try reflexivity;
      intros Hfile; exfalso; apply Hfile; reflexivity.
  - destruct (trySave_needs_blocks (2 ^ 31 - 1151) card_with_three_blocks)
      as (_ & _ & Hundefined & _); [lia |].
    apply Hundefined. split; [split; reflexivity |].
    intros [Hsum _]. lia.
Defined.

Lemma writeSaveGame_first_success_or_gravest_error_witness :
  exists m, (m < 24)%nat /\
            3 = Z.of_nat m /\
            trySave 100 (only_unit_3 (1 + m)%nat (Z.of_nat m))
            = Some VMSAVE_OK.
Proof.
  destruct (writeSaveGame_first_success_or_gravest_error only_unit_3 100 7)
    as [_ Hrun].
  destruct (Hrun VMSAVE_OK 3) as [Hok _]; [vm_compute; reflexivity |].
  destruct (Hok eq_refl) as [(_ & Hfirst & _) | (_ & m & Hm & Hlv & Hatt & _)].
  - vm_compute in Hfirst. discriminate Hfirst.
  - exists m. split; [exact Hm |]. split; [exact Hlv | exact Hatt].
Defined.

(** * Properties of the font's character map *)

Lemma WinFont_loaded_glyphCount (font : WinFont.t) :
  WinFont.loaded font ->
  WinFont._glyphCount font
  = WinFont._lastChar font - WinFont._firstChar font + 2.
Proof.
  intros (Hfl & Hl & _ & Hcount & _).
  rewrite Hcount. unfold uint16. apply Z.mod_small.
  change (2 ^ 16) with 65536. lia.
Qed.

Lemma WinFont_index_of_mapped (font : WinFont.t) (c : Z) :
  WinFont.loaded font ->
  WinFont._firstChar font <= c <= WinFont._lastChar font ->
  WinFont.characterToIndex font c = c - WinFont._firstChar font.
Proof.
  intros (Hfl & Hl & _) Hc. unfold WinFont.characterToIndex.
  replace (c <? WinFont._firstChar font) with false
    by (symmetry; apply Z.ltb_ge; lia).
  replace (WinFont._lastChar font <? c) with false
    by (symmetry; apply Z.ltb_ge; lia).
  cbn [orb]. unfold uint16, uint32.
  rewrite (Z.mod_small _ (2 ^ 32)) by (change (2 ^ 32) with 4294967296; lia).
  apply Z.mod_small. change (2 ^ 16) with 65536. lia.
Qed.

Lemma WinFont_index_of_unmapped (font : WinFont.t) (c : Z) :
  c < WinFont._firstChar font \/ WinFont._lastChar font < c ->
  WinFont.characterToIndex font c
  = uint16 (uint32 (WinFont._defaultChar font - WinFont._firstChar font)).
Proof.
  intros Hc. unfold WinFont.characterToIndex.
  destruct (c <? WinFont._firstChar font) eqn:Hlo; [reflexivity |].
  destruct (WinFont._lastChar font <? c) eqn:Hhi; [reflexivity |].
  apply Z.ltb_ge in Hlo. apply Z.ltb_ge in Hhi. lia.
Qed.

(** X20. In a loaded font every character from the first to the last has
    a glyph of its own that is not the sentinel: its index leads back to
    the character. *)
Theorem WinFont_character_round_trip (font : WinFont.t) (c : Z) :
  WinFont.loaded font ->
  WinFont._firstChar font <= c <= WinFont._lastChar font ->
  0 <= WinFont.characterToIndex font c < WinFont._glyphCount font - 1 /\
  WinFont.indexToCharacter font (WinFont.characterToIndex font c) = c.
Proof.
  intros Hloaded Hc.
  rewrite (WinFont_index_of_mapped font c Hloaded Hc).
  pose proof (WinFont_loaded_glyphCount font Hloaded) as Hcount.
  destruct Hloaded as (Hfl & Hl & _).
  split; [lia |].
  unfold WinFont.indexToCharacter.
  replace (c - WinFont._firstChar font =? WinFont._glyphCount font - 1)
    with false by (symmetry; apply Z.eqb_neq; lia).
  unfold uint8. replace (c - WinFont._firstChar font + WinFont._firstChar font)
    with c by lia.
  apply Z.mod_small. change (2 ^ 8) with 256. lia.
Qed.

(** X21. In a loaded font every index below the sentinel's is the index
    of the character it stands for, and that character is one of the
    font's. *)
Theorem WinFont_index_round_trip (font : WinFont.t) (index : Z) :
  WinFont.loaded font ->
  0 <= index < WinFont._glyphCount font - 1 ->
  WinFont._firstChar font <= WinFont.indexToCharacter font index
                          <= WinFont._lastChar font /\
  WinFont.characterToIndex font (WinFont.indexToCharacter font index) = index.
Proof.
  intros Hloaded Hindex.
  pose proof (WinFont_loaded_glyphCount font Hloaded) as Hcount.
  assert (Hchar : WinFont.indexToCharacter font index
                  = index + WinFont._firstChar font).
  { destruct Hloaded as (Hfl & Hl & _).
    unfold WinFont.indexToCharacter.
    replace (index =? WinFont._glyphCount font - 1)
      with false by (symmetry; apply Z.eqb_neq; lia).
    unfold uint8. apply Z.mod_small. change (2 ^ 8) with 256. lia. }
  rewrite Hchar. split; [lia |].
  rewrite WinFont_index_of_mapped; [lia | exact Hloaded | lia].
Qed.

(** X22. In a loaded font a character outside the font's range is sent
    to the default character's glyph, and [getCharWidth] reads inside the
    glyphs for every character exactly when the default character lies
    between the first character and the one after the last, the
    sentinel's: with a default character below the first one the index
    wraps and the width is read outside the glyphs. *)
Theorem WinFont_width_defined_iff_default_in_range (font : WinFont.t) :
  WinFont.loaded font ->
  (forall chr, 0 <= chr < 2 ^ 32 -> WinFont.getCharWidth font chr <> None)
  <->
  WinFont._firstChar font <= WinFont._defaultChar font
                          <= WinFont._lastChar font + 1.
Proof.
  intros Hloaded.
  pose proof (WinFont_loaded_glyphCount font Hloaded) as Hcount.
  pose proof Hloaded as (Hfl & Hl & Hd & _ & Hlen).
  assert (Hwrap : WinFont._defaultChar font < WinFont._firstChar font ->
                  uint16 (uint32 (WinFont._defaultChar font
                                  - WinFont._firstChar font))
                  = 65536 + (WinFont._defaultChar font
                             - WinFont._firstChar font)).
  { intros Hlt. unfold uint16, uint32.
    change (2 ^ 32) with 4294967296. change (2 ^ 16) with 65536.
    rewrite <- (Z.mod_unique_pos
                  (WinFont._defaultChar font - WinFont._firstChar font)
                  4294967296 (-1)
                  (4294967296 + (WinFont._defaultChar font
                                 - WinFont._firstChar font))) by lia.
    symmetry.
    apply (Z.mod_unique_pos _ 65536 65535); lia. }
  assert (Hplain : WinFont._firstChar font <= WinFont._defaultChar font ->
                   uint16 (uint32 (WinFont._defaultChar font
                                   - WinFont._firstChar font))
                   = WinFont._defaultChar font - WinFont._firstChar font).
  { intros Hle. unfold uint16, uint32.
    change (2 ^ 32) with 4294967296. change (2 ^ 16) with 65536.
    rewrite (Z.mod_small _ 4294967296) by lia.
    apply Z.mod_small. lia. }
  split.
  - intros Hall.
    assert (Hout : WinFont.getCharWidth font 256 <> None)
      by (apply Hall; change (2 ^ 32) with 4294967296; lia).
    unfold WinFont.getCharWidth in Hout.
    rewrite WinFont_index_of_unmapped in Hout by lia.
    apply nth_error_Some in Hout.
    destruct (Z_lt_le_dec (WinFont._defaultChar font)
                          (WinFont._firstChar font)) as [Hlt | Hle].
    + rewrite (Hwrap Hlt) in Hout. lia.
    + rewrite (Hplain Hle) in Hout. lia.
  - intros Hdefault chr Hchr. unfold WinFont.getCharWidth.
    apply nth_error_Some.
    destruct (Z_lt_le_dec chr (WinFont._firstChar font)) as [Hlo | Hlo];
      [| destruct (Z_lt_le_dec (WinFont._lastChar font) chr) as [Hhi | Hhi]].
    + rewrite WinFont_index_of_unmapped by lia.
      rewrite Hplain by lia. lia.
    + rewrite WinFont_index_of_unmapped by lia.
      rewrite Hplain by lia. lia.
    + rewrite WinFont_index_of_mapped by (assumption || lia). lia.
Qed.

(** * Properties of the Freescape messages *)

Lemma Freescape_back_last {A} (l : list A) (x : A) :
  Freescape.back (l ++ [x]) = Some x.
Proof.
  unfold Freescape.back. rewrite length_app. cbn [length].
  replace (length l + 1 - 1)%nat with (length l) by lia.
  rewrite nth_error_app2 by lia. rewrite Nat.sub_diag. reflexivity.
Qed.

Lemma Freescape_pop_back_last {A} (l : list A) (x : A) :
  Freescape.pop_back (l ++ [x]) = l.
Proof. apply removelast_last. Qed.

Lemma same_length_last {A B} (l : list A) (x : A) (k : list B) :
  length (l ++ [x]) = length k ->
  exists k' y, k = k' ++ [y] /\ length l = length k'.
Proof.
  intros Hlen. destruct k as [| b k] using rev_ind.
  - rewrite length_app in Hlen. cbn in Hlen. lia.
  - exists k, b. split; [reflexivity |].
    rewrite !length_app in Hlen. cbn in Hlen. lia.
Qed.

Lemma getLatestMessages_loop_round
      (n : nat) (msgs : list String.string) (dls : list Z) (countdown : Z)
      (x : String.string) (y : Z) (message : String.string) (deadline : Z) :
  countdown < deadline ->
  Freescape.getLatestMessages_loop
    (S n) (Freescape.mkMessages (msgs ++ [x]) (dls ++ [y]) countdown)
    message deadline
  = Freescape.getLatestMessages_loop
      n (Freescape.mkMessages msgs dls countdown) x y.
Proof.
  intros Hexpired.
  cbn [Freescape.getLatestMessages_loop Freescape._temporaryMessages
       Freescape._temporaryMessageDeadlines Freescape._countdown].
  destruct (msgs ++ [x]) as [| m0 rest] eqn:Hmsgs;
    [destruct msgs; discriminate Hmsgs |].
  rewrite <- Hmsgs.
  replace (countdown <? deadline) with true
    by (symmetry; apply Z.ltb_lt; exact Hexpired).
  rewrite !Freescape_back_last, !Freescape_pop_back_last. reflexivity.
Qed.

Lemma getLatestMessages_loop_live
      (n : nat) (e : Freescape.Messages)
      (message : String.string) (deadline : Z) :
  deadline <= Freescape._countdown e ->
  Freescape.getLatestMessages_loop n e message deadline
  = Some (message, deadline, e).
Proof.
  intros Hlive. destruct n as [| n]; [reflexivity |].
  cbn [Freescape.getLatestMessages_loop].
  destruct (Freescape._temporaryMessages e); [reflexivity |].
  replace (Freescape._countdown e <? deadline) with false
    by (symmetry; apply Z.ltb_ge; exact Hlive).
  reflexivity.
Qed.

Lemma getLatestMessages_loop_empty
      (n : nat) (dls : list Z) (countdown : Z)
      (message : String.string) (deadline : Z) :
  Freescape.getLatestMessages_loop
    n (Freescape.mkMessages [] dls countdown) message deadline
  = Some (message, deadline, Freescape.mkMessages [] dls countdown).
Proof. destruct n; reflexivity. Qed.




Lemma getLatestMessages_loop_lockstep :
  forall (n : nat) (e : Freescape.Messages)
         (message : String.string) (deadline : Z),
    length (Freescape._temporaryMessages e)
    = length (Freescape._temporaryMessageDeadlines e) ->
    exists message' deadline' e',
      Freescape.getLatestMessages_loop n e message deadline
      = Some (message', deadline', e') /\
      length (Freescape._temporaryMessages e')
      = length (Freescape._temporaryMessageDeadlines e') /\
      Freescape._countdown e' = Freescape._countdown e /\
      exists taken taken_d,
        Freescape._temporaryMessages e
        = Freescape._temporaryMessages e' ++ taken /\
        Freescape._temporaryMessageDeadlines e
        = Freescape._temporaryMessageDeadlines e' ++ taken_d.
Proof.
  induction n as [| n IH]; intros e message deadline Hlen.
  - exists message, deadline, e. split; [reflexivity |].
    split; [exact Hlen |]. split; [reflexivity |].
    exists [], []. rewrite !app_nil_r. split; reflexivity.
  - destruct e as [msgs dls countdown].
    cbn [Freescape._temporaryMessages Freescape._temporaryMessageDeadlines
         Freescape._countdown] in *.
    destruct (Z_lt_le_dec countdown deadline) as [Hexpired | Hlive].
    + destruct msgs as [| x msgs] using rev_ind.
      * rewrite getLatestMessages_loop_empty.
        exists message, deadline, (Freescape.mkMessages [] dls countdown).
        split; [reflexivity |]. split; [exact Hlen |].
        split; [reflexivity |].
        exists [], []. rewrite !app_nil_r. split; reflexivity.
      * destruct (same_length_last msgs x dls Hlen)
          as (dls' & y & -> & Hlen').
        rewrite getLatestMessages_loop_round by exact Hexpired.
        destruct (IH (Freescape.mkMessages msgs dls' countdown) x y Hlen')
          as (message' & deadline' & e' & Hrun & Hlock & Hcount
              & taken & taken_d & Hmsgs & Hdls).
        cbn [Freescape._temporaryMessages
             Freescape._temporaryMessageDeadlines
             Freescape._countdown] in *.
        exists message', deadline', e'.
        split; [exact Hrun |]. split; [exact Hlock |].
        split; [exact Hcount |].
        exists (taken ++ [x]), (taken_d ++ [y]).
        rewrite Hmsgs, Hdls, <- !app_assoc. split; reflexivity.
    + rewrite getLatestMessages_loop_live by exact Hlive.
      exists message, deadline, (Freescape.mkMessages msgs dls countdown).
      split; [reflexivity |]. split; [exact Hlen |].
      split; [reflexivity |].
      exists [], []. rewrite !app_nil_r. split; reflexivity.
Qed.

(** X25. The engine keeps as many deadlines as messages:
    [insertTemporaryMessage] adds one of each, and from such a state
    [getLatestMessages] never asks an empty array for its back: it
    returns, having taken as many deadlines as messages off the back and
    left the countdown alone. *)
Theorem getLatestMessages_keeps_deadlines_in_step
        (e : Freescape.Messages) (message : String.string) (deadline : Z) :
  fits_int (Freescape._countdown e + 1) = true ->
  length (Freescape._temporaryMessages e)
  = length (Freescape._temporaryMessageDeadlines e) ->
  (let e1 := Freescape.insertTemporaryMessage message deadline e in
   length (Freescape._temporaryMessages e1)
   = length (Freescape._temporaryMessageDeadlines e1)) /\
  exists message' deadline' e',
    Freescape.getLatestMessages e = Some (message', deadline', e') /\
    length (Freescape._temporaryMessages e')
    = length (Freescape._temporaryMessageDeadlines e') /\
    Freescape._countdown e' = Freescape._countdown e /\
    exists taken taken_d,
      length taken = length taken_d /\
      Freescape._temporaryMessages e
      = Freescape._temporaryMessages e' ++ taken /\
      Freescape._temporaryMessageDeadlines e
      = Freescape._temporaryMessageDeadlines e' ++ taken_d.
Proof.
  intros Hfits Hlen. split.
  - cbn. rewrite Hlen. reflexivity.
  - unfold Freescape.getLatestMessages. rewrite Hfits.
    destruct (getLatestMessages_loop_lockstep
                (S (length (Freescape._temporaryMessages e))) e
                String.EmptyString (Freescape._countdown e + 1) Hlen)
      as (message' & deadline' & e' & Hrun & Hlock & Hcount
          & taken & taken_d & Hmsgs & Hdls).
    exists message', deadline', e'.
    split; [exact Hrun |]. split; [exact Hlock |]. split; [exact Hcount |].
    exists taken, taken_d. split; [| split; assumption].
    rewrite Hmsgs, Hdls, !length_app in Hlen. lia.
Qed.

(** * Properties of the Freescape colours *)

Lemma read_colour_not_assertion (gfx : Freescape.Renderer) (c : Z) :
  Freescape.read_colour gfx c <> Freescape.AssertionFailed.
Proof.
  unfold Freescape.read_colour.
  destruct (Freescape.readFromPalette gfx c); discriminate.
Qed.

Lemma read_colour_done (gfx : Freescape.Renderer) (c : Z)
      (ok : bool) (rgb : byte * byte * byte) :
  Freescape.read_colour gfx c = Freescape.Done (ok, rgb) ->
  ok = true /\ Freescape.readFromPalette gfx c = Some rgb.
Proof.
  unfold Freescape.read_colour.
  destruct (Freescape.readFromPalette gfx c); [| discriminate].
  intros Hdone. injection Hdone as <- <-. split; reflexivity.
Qed.

(** What the loop keeps: the colour stays below the next bit. *)
Lemma getRGBAt_loop_round_bounds (n : nat) (color acc : Z) (set : bool) :
  0 <= color < acc -> acc * 2 ^ Z.of_nat (S n) <= 16 ->
  0 <= (if set then uint8 (color + acc) else color)
     < uint8 (Z.shiftl acc 1) /\
  uint8 (Z.shiftl acc 1) * 2 ^ Z.of_nat n <= 16.
Proof.
  intros Hcolor Hacc.
  rewrite Nat2Z.inj_succ, Z.pow_succ_r in Hacc by lia.
  assert (Hpow : 0 < 2 ^ Z.of_nat n) by (apply Z.pow_pos_nonneg; lia).
  assert (Hsmall : acc * 2 <= 16) by nia.
  rewrite Z.shiftl_mul_pow2 by lia. change (2 ^ 1) with 2.
  unfold uint8. change (2 ^ 8) with 256.
  rewrite (Z.mod_small (acc * 2)) by lia.
  split; [| nia].
  destruct set; [| lia].
  rewrite Z.mod_small by lia. lia.
Qed.

Lemma getRGBAt_loop_no_assertion
      (gfx : Freescape.Renderer) (index : Z) (entry : list byte) :
  forall (n i : nat) (color acc : Z),
    0 <= color < acc -> acc * 2 ^ Z.of_nat n <= 16 ->
    Freescape.getRGBAt_loop gfx index entry n i color acc
    <> Freescape.AssertionFailed.
Proof.
  induction n as [| n IH]; intros i color acc Hcolor Hacc.
  - cbn [Freescape.getRGBAt_loop].
    change (2 ^ Z.of_nat 0) with 1 in Hacc.
    replace (color <? 16) with true by (symmetry; apply Z.ltb_lt; lia).
    apply read_colour_not_assertion.
  - cbn [Freescape.getRGBAt_loop].
    destruct (nth_error entry i) as [be |]; [| discriminate].
    destruct (negb (byte.unsigned be =? 0) && negb (byte.unsigned be =? 255));
      [apply read_colour_not_assertion |].
    destruct (getRGBAt_loop_round_bounds
                n color acc (byte.unsigned be =? 255) Hcolor Hacc)
      as [Hcolor' Hacc'].
    apply IH; assumption.
Qed.

Lemma getRGBAt_loop_done
      (gfx : Freescape.Renderer) (index : Z) (entry : list byte)
      (ok : bool) (rgb : byte * byte * byte) :
  forall (n i : nat) (color acc : Z),
    0 <= color < acc -> acc * 2 ^ Z.of_nat n <= 16 ->
    Freescape.getRGBAt_loop gfx index entry n i color acc
    = Freescape.Done (ok, rgb) ->
    ok = true /\
    exists c, (c = index \/ 0 <= c < 16) /\
              Freescape.readFromPalette gfx c = Some rgb.
Proof.
  induction n as [| n IH]; intros i color acc Hcolor Hacc Hdone.
  - cbn [Freescape.getRGBAt_loop] in Hdone.
    destruct (color <? 16) eqn:Hlt; [| discriminate Hdone].
    apply Z.ltb_lt in Hlt.
    destruct (read_colour_done gfx color ok rgb Hdone) as [Hok Hread].
    split; [exact Hok |]. exists color. split; [right; lia | exact Hread].
  - cbn [Freescape.getRGBAt_loop] in Hdone.
    destruct (nth_error entry i) as [be |]; [| discriminate Hdone].
    destruct (negb (byte.unsigned be =? 0) && negb (byte.unsigned be =? 255)).
    + destruct (read_colour_done gfx index ok rgb Hdone) as [Hok Hread].
      split; [exact Hok |]. exists index. split; [left; reflexivity | exact Hread].
    + destruct (getRGBAt_loop_round_bounds
                  n color acc (byte.unsigned be =? 255) Hcolor Hacc)
        as [Hcolor' Hacc'].
      exact (IH _ _ _ Hcolor' Hacc' Hdone).
Qed.

(** X26. The assertion of [getRGBAt] never fails: whatever the renderer,
    the colour map and the index, the colour put together from the four
    bytes of an entry is below 16. *)
Theorem getRGBAt_assertion_never_fails
        (gfx : Freescape.Renderer) (index : Z) (rgb : byte * byte * byte) :
  Freescape.getRGBAt gfx index rgb <> Freescape.AssertionFailed.
Proof.
  unfold Freescape.getRGBAt.
  destruct (index =? Freescape._keyColor gfx); [discriminate |].
  destruct (index =? 0); [apply read_colour_not_assertion |].
  destruct (Freescape._renderMode gfx);
    try apply read_colour_not_assertion.
  destruct (nth_error (Freescape._colorMap gfx) (Z.to_nat (index - 1)));
    [| discriminate].
  apply getRGBAt_loop_no_assertion; [lia | vm_compute; discriminate].
Qed.

(** X27. Outside the Amiga and Atari ST modes, a colour other than the
    key colour and colour 0 is looked up through its colour map entry:
    when the entry's four bytes are each 0 or 0xff, the palette is read
    at the colour whose bit [i] is set where byte [i] is 0xff; as soon as
    one of them is something else, at the index itself. *)
Theorem getRGBAt_decodes_colour_map_entry
        (gfx : Freescape.Renderer) (index : Z) (rgb : byte * byte * byte)
        (b0 b1 b2 b3 : byte) (rest : list byte) :
  index <> Freescape._keyColor gfx ->
  index <> 0 ->
  Freescape._renderMode gfx = Freescape.kRenderOther ->
  nth_error (Freescape._colorMap gfx) (Z.to_nat (index - 1))
  = Some (b0 :: b1 :: b2 :: b3 :: rest) ->
  Freescape.getRGBAt gfx index rgb
  = Freescape.read_colour gfx
      (if Freescape.solid b0 && Freescape.solid b1
          && Freescape.solid b2 && Freescape.solid b3
       then Freescape.colour_of b0 b1 b2 b3 else index).
Proof.
  intros Hkey Hzero Hmode Hentry.
  unfold Freescape.getRGBAt.
  replace (index =? Freescape._keyColor gfx) with false
    by (symmetry; apply Z.eqb_neq; exact Hkey).
  replace (index =? 0) with false
    by (symmetry; apply Z.eqb_neq; exact Hzero).
  rewrite Hmode, Hentry.
  cbn [Freescape.getRGBAt_loop nth_error].
  unfold Freescape.solid, Freescape.colour_of, Freescape.bit_of.
  destruct (byte.unsigned b0 =? 0), (byte.unsigned b0 =? 255),
           (byte.unsigned b1 =? 0), (byte.unsigned b1 =? 255),
           (byte.unsigned b2 =? 0), (byte.unsigned b2 =? 255),
           (byte.unsigned b3 =? 0), (byte.unsigned b3 =? 255);
    reflexivity.
Qed.

(** X28. [getRGBAt] answers false for the key colour alone, and then
    leaves the three components as they were; for every other index a
    call that returns answers true with a colour of the palette, read at
    the index itself or at a colour below 16. *)
Theorem getRGBAt_skips_only_key_colour
        (gfx : Freescape.Renderer) (index : Z)
        (rgb rgb' : byte * byte * byte) (ok : bool) :
  Freescape.getRGBAt gfx index rgb = Freescape.Done (ok, rgb') ->
  (index = Freescape._keyColor gfx /\ ok = false /\ rgb' = rgb) \/
  (index <> Freescape._keyColor gfx /\ ok = true /\
   exists c, (c = index \/ 0 <= c < 16) /\
             Freescape.readFromPalette gfx c = Some rgb').
Proof.
  unfold Freescape.getRGBAt. intros Hdone.
  destruct (index =? Freescape._keyColor gfx) eqn:Hkey.
  - apply Z.eqb_eq in Hkey. injection Hdone as <- <-.
    left. repeat split. exact Hkey.
  - apply Z.eqb_neq in Hkey. right. split; [exact Hkey |].
    destruct (index =? 0) eqn:Hzero.
    + destruct (read_colour_done gfx 0 ok rgb' Hdone) as [Hok Hread].
      split; [exact Hok |]. exists 0. split; [right; lia | exact Hread].
    + destruct (Freescape._renderMode gfx).
      * destruct (read_colour_done gfx index ok rgb' Hdone) as [Hok Hread].
        split; [exact Hok |]. exists index.
        split; [left; reflexivity | exact Hread].
      * destruct (read_colour_done gfx index ok rgb' Hdone) as [Hok Hread].
        split; [exact Hok |]. exists index.
        split; [left; reflexivity | exact Hread].
      * destruct (nth_error (Freescape._colorMap gfx)
                            (Z.to_nat (index - 1)));
          [| discriminate Hdone].
        apply (getRGBAt_loop_done gfx index l ok rgb' 4 0 0 1);
          [lia | vm_compute; discriminate | exact Hdone].
Qed.

(** ** The properties at the samples *)

Lemma sample_font_loaded : WinFont.loaded sample_font.
Proof.
  unfold WinFont.loaded. cbn. repeat split; try lia; reflexivity.
Qed.

Lemma WinFont_character_round_trip_witness :
  0 <= WinFont.characterToIndex sample_font 65
    < WinFont._glyphCount sample_font - 1 /\
  WinFont.indexToCharacter sample_font
                           (WinFont.characterToIndex sample_font 65) = 65.
Proof.
  apply (WinFont_character_round_trip sample_font 65 sample_font_loaded).
  cbn. lia.
Defined.

Lemma WinFont_index_round_trip_witness :
  WinFont.characterToIndex sample_font
                           (WinFont.indexToCharacter sample_font 94) = 94.
Proof.
  destruct (WinFont_index_round_trip sample_font 94 sample_font_loaded)
    as [_ Hback]; [cbn; lia | exact Hback].
Defined.

Lemma WinFont_width_defined_iff_default_in_range_witness :
  exists width, WinFont.getCharWidth sample_font 300 = Some width.
Proof.
  assert (Hall : forall chr, 0 <= chr < 2 ^ 32 ->
                             WinFont.getCharWidth sample_font chr <> None).
  { apply (WinFont_width_defined_iff_default_in_range
             sample_font sample_font_loaded).
    cbn. lia. }
  destruct (WinFont.getCharWidth sample_font 300) as [width |] eqn:Hwidth.
  - exists width. reflexivity.
  - exfalso. apply (Hall 300); [| exact Hwidth].
    change (2 ^ 32) with 4294967296. lia.
Defined.



Lemma getLatestMessages_keeps_deadlines_in_step_witness :
  exists message' deadline' e',
    Freescape.getLatestMessages sample_messages
    = Some (message', deadline', e') /\
    length (Freescape._temporaryMessages e')
    = length (Freescape._temporaryMessageDeadlines e').
Proof.
  destruct (getLatestMessages_keeps_deadlines_in_step
              sample_messages "next"%string 1 eq_refl eq_refl)
    as (_ & message' & deadline' & e' & Hrun & Hlock & _).
  exists message', deadline', e'. split; [exact Hrun | exact Hlock].
Defined.

Lemma getRGBAt_decodes_colour_map_entry_witness :
  Freescape.getRGBAt sample_renderer 1 (Byte.x00, Byte.x00, Byte.x00)
  = Freescape.Done (true, (Byte.x05, Byte.x05, Byte.x05)) /\
  Freescape.getRGBAt sample_renderer 2 (Byte.x00, Byte.x00, Byte.x00)
  = Freescape.Done (true, (Byte.x02, Byte.x02, Byte.x02)).
Proof.
  split.
  - rewrite (getRGBAt_decodes_colour_map_entry
               sample_renderer 1 (Byte.x00, Byte.x00, Byte.x00)
               Byte.xff Byte.x00 Byte.xff Byte.x00 []);
      [reflexivity | cbn; lia | lia | reflexivity | reflexivity].
  - rewrite (getRGBAt_decodes_colour_map_entry
               sample_renderer 2 (Byte.x00, Byte.x00, Byte.x00)
               Byte.xff Byte.x55 Byte.x00 Byte.x00 []);
      [reflexivity | cbn; lia | lia | reflexivity | reflexivity].
Defined.

Lemma getRGBAt_skips_only_key_colour_witness :
  exists c, (c = 1 \/ 0 <= c < 16) /\
            Freescape.readFromPalette sample_renderer c
            = Some (Byte.x05, Byte.x05, Byte.x05).
Proof.
  destruct (getRGBAt_skips_only_key_colour
              sample_renderer 1 (Byte.x00, Byte.x00, Byte.x00)
              (Byte.x05, Byte.x05, Byte.x05) true eq_refl)
    as [(Hkey & _) | (_ & _ & Hread)].
  - cbn in Hkey. discriminate Hkey.
  - exact Hread.
Defined.
